(** * EstateMate-Re: the proxies of [server/index.js]

    A shallow embedding of the prediction proxy: the numeric extractor
    ([deepFindNumber]), the plausibility resolver ([choosePlausibleTotal])
    and the request dispatcher ([tryAllShapes], [postJson] and the
    [/api/predict] handler), with the properties of the specification
    proved about them; and of the recommendation proxy and the chat relay
    ([sanitize], [summarizePrefs], [smartParse], [extractAnswer],
    [callN8n], [gatherPrefsFromQuery] and the [/api/chat] handler), with
    further properties of the code.

    JavaScript numbers are IEEE 754 binary64 values: they are modelled by
    Rocq's primitive [float], whose operations are specified by
    [FloatAxioms] in terms of [SpecFloat].

    The first part is the model: numbers, regular expressions, values, the
    functions, and instances to run them on (a reference engine and stub
    upstreams). The second part proves the properties. *)

From Stdlib Require Import ZArith Floats Lia Bool List String Ascii DecimalString.
From stdpp Require Import gmap.
Import ListNotations.

Set Warnings "-register-all".

(** * The model *)

(** ** JavaScript numbers *)

Module JSNum.

Local Open Scope Z_scope.

(** [Number.isFinite] on a value that is already a number. *)
Definition isFinite (x : float) : bool := is_finite x.

Definition sf_finite (x : spec_float) : bool :=
  match x with
  | S754_zero _ | S754_finite _ _ _ => true
  | _ => false
  end.

(** A finite double is an integer multiple of [2^emin = 2^-1074]; [units]
    is that integer. It embeds the order of finite doubles into [Z]. *)
Definition sf_units (x : spec_float) : Z :=
  match x with
  | S754_finite s m e => cond_Zopp s (Zpos m * 2 ^ (e + 1074))
  | _ => 0
  end.

Definition units (x : float) : Z := sf_units (Prim2SF x).

(** The result of a rounding of a non-zero value keeps its sign. *)
Definition sf_signed (s : bool) (r : spec_float) : bool :=
  match r with
  | S754_finite s' _ _ | S754_infinity s' => Bool.eqb s s'
  | _ => false
  end.

End JSNum.

(** ** Regular expressions

    The two patterns of [deepFindNumber] use literals, a character class,
    alternation, [?] and [+]. Matching is by derivatives. *)

Inductive regex :=
| Nothing
| Eps
| Chr (c : ascii)
| Class (p : ascii -> bool)
| Seq (r1 r2 : regex)
| Alt (r1 r2 : regex)
| Opt (r : regex)
| Plus (r : regex).

(** Canonicalization of the [/i] flag on ASCII: letters compare by their
    lower-case form. *)
Definition lower (c : ascii) : ascii :=
  let k := nat_of_ascii c in
  if (65 <=? k)%nat && (k <=? 90)%nat then ascii_of_nat (k + 32) else c.

Definition chr_eqb (ignoreCase : bool) (c a : ascii) : bool :=
  if ignoreCase then Ascii.eqb (lower c) (lower a) else Ascii.eqb c a.

Fixpoint nullable (r : regex) : bool :=
  match r with
  | Nothing | Chr _ | Class _ => false
  | Eps | Opt _ => true
  | Seq r1 r2 => nullable r1 && nullable r2
  | Alt r1 r2 => nullable r1 || nullable r2
  | Plus r1 => nullable r1
  end.

Fixpoint deriv (ignoreCase : bool) (a : ascii) (r : regex) : regex :=
  match r with
  | Nothing | Eps => Nothing
  | Chr c => if chr_eqb ignoreCase c a then Eps else Nothing
  | Class p => if p a then Eps else Nothing
  | Seq r1 r2 =>
      let d := Seq (deriv ignoreCase a r1) r2 in
      if nullable r1 then Alt d (deriv ignoreCase a r2) else d
  | Alt r1 r2 => Alt (deriv ignoreCase a r1) (deriv ignoreCase a r2)
  | Opt r1 => deriv ignoreCase a r1
  | Plus r1 => Seq (deriv ignoreCase a r1) (Opt (Plus r1))
  end.

(** The whole of [s] matches [r]: a pattern between [^] and [$]. *)
Fixpoint matches (ignoreCase : bool) (r : regex) (s : string) : bool :=
  match s with
  | EmptyString => nullable r
  | String a s' => matches ignoreCase (deriv ignoreCase a r) s'
  end.

(** Some prefix of [s] matches [r]. *)
Fixpoint matches_prefix (ignoreCase : bool) (r : regex) (s : string) : bool :=
  nullable r ||
  match s with
  | EmptyString => false
  | String a s' => matches_prefix ignoreCase (deriv ignoreCase a r) s'
  end.

(** [r.test(s)] for a pattern without anchors: a match starts somewhere. *)
Fixpoint test (ignoreCase : bool) (r : regex) (s : string) : bool :=
  matches_prefix ignoreCase r s ||
  match s with
  | EmptyString => false
  | String _ s' => test ignoreCase r s'
  end.

Fixpoint lit (s : string) : regex :=
  match s with
  | EmptyString => Eps
  | String c s' => Seq (Chr c) (lit s')
  end.

Definition digit (c : ascii) : bool :=
  let k := nat_of_ascii c in (48 <=? k)%nat && (k <=? 57)%nat.

(** [/pred(i(ct|cted)?)?_?price|price|pred(i(ct|ction))|value|amount/i] *)
Definition hit_pattern : regex :=
  Alt (Seq (lit "pred")
        (Seq (Opt (Seq (lit "i") (Opt (Alt (lit "ct") (lit "cted")))))
          (Seq (Opt (lit "_")) (lit "price"))))
   (Alt (lit "price")
     (Alt (Seq (lit "pred") (Seq (lit "i") (Alt (lit "ct") (lit "ction"))))
       (Alt (lit "value") (lit "amount")))).

(** [/^(-?\d+(\.\d+)?)$/] *)
Definition decimal_pattern : regex :=
  Seq (Opt (lit "-"))
    (Seq (Plus (Class digit)) (Opt (Seq (lit ".") (Plus (Class digit))))).

(** [v.replace(/[, ]/g, '')] *)
Fixpoint strip_separators (s : string) : string :=
  match s with
  | EmptyString => EmptyString
  | String c s' =>
      if Ascii.eqb c "," || Ascii.eqb c " " then strip_separators s'
      else String c (strip_separators s')
  end.

(** ** JavaScript values of a request body *)

(** A request body is what [express.json()] parsed: a JSON tree. *)
Inductive json :=
| JNull
| JBool (b : bool)
| JNum (x : float)
| JStr (s : string)
| JArr (items : list json)
| JObj (fields : list (string * json)).

Fixpoint assoc (k : string) (fields : list (string * json)) : option json :=
  match fields with
  | [] => None
  | (k', v) :: rest => if String.eqb k k' then Some v else assoc k rest
  end.

(** Property access [v.k]; [None] is [undefined]. The keys of a parsed
    object are distinct. *)
Definition get (v : json) (k : string) : option json :=
  match v with
  | JObj fields => assoc k fields
  | _ => None
  end.

(** [s.includes(needle)] *)
Fixpoint includes (needle s : string) : bool :=
  String.prefix needle s ||
  match s with
  | EmptyString => false
  | String _ s' => includes needle s'
  end.

(** [x || 0] on a number: the falsy numbers are [NaN], [+0] and [-0]. *)
Definition or_zero (x : float) : float :=
  if is_nan x || is_zero x then 0%float else x.

(** ** Candidates *)

Record cand := { n : float; rule : string }.

Definition PL_MIN : float := 50000.
Definition PL_MAX : float := 2000000000.

(** The filter [c => c.n >= PL_MIN && c.n <= PL_MAX]. *)
Definition in_range (c : cand) : bool :=
  (PL_MIN <=? n c)%float && (n c <=? PL_MAX)%float.

Definition per_sqm_bonus (c : cand) : float :=
  if includes "per_sqm" (rule c) then 1%float else 0%float.

(** The comparator of [plausible.sort]. *)
Definition by_bonus_then_value (a b : cand) : float :=
  let aBonus := per_sqm_bonus a in
  let bBonus := per_sqm_bonus b in
  if negb (aBonus =? bBonus)%float then (bBonus - aBonus)%float
  else (n b - n a)%float.

(** The comparator of [cands.sort]. *)
Definition by_value (a b : cand) : float := (n b - n a)%float.

(** ** [Array.prototype.sort]

    With a consistent comparator the result is the stable sorted
    permutation, whatever algorithm the engine runs; insertion from the
    right computes it: an element moves behind a later one only when the
    comparator is positive on the pair. *)
Section Sort.
Context {A : Type}.
Variable compareFn : A -> A -> float.

Fixpoint sort_insert (x : A) (l : list A) : list A :=
  match l with
  | [] => [x]
  | y :: l' => if (0 <? compareFn x y)%float then y :: sort_insert x l' else x :: l
  end.

Fixpoint sort (l : list A) : list A :=
  match l with
  | [] => []
  | x :: l' => sort_insert x (sort l')
  end.
End Sort.

(** ** The plausibility resolver *)

Section Resolver.
(** [Math.exp] and [Math.pow] are implementation-approximated functions of
    the engine, and so are the conversions of strings and objects to
    numbers: they are parameters of the model. Here the conversion of an
    object returns: features are numbers and strings. On an object with an
    own property [toString], which no parsed body can call, [Number]
    throws; the dispatcher has that exception where it calls the resolver
    (see [unconvertible] and [chosen_total]). *)
Variable Math_exp : float -> float.
Variable Math_pow : float -> float -> float.
Variable StringToNumber : string -> float.
Variable ObjectToNumber : json -> float.

(** [Number(v)], with [None] for [undefined]. *)
Definition Number (v : option json) : float :=
  match v with
  | None => nan
  | Some JNull => 0%float
  | Some (JBool b) => if b then 1%float else 0%float
  | Some (JNum x) => x
  | Some (JStr s) => StringToNumber s
  | Some (JArr items) => ObjectToNumber (JArr items)
  | Some (JObj fields) => ObjectToNumber (JObj fields)
  end.

(** [const push = (val, rule) => { const n = Number(val);
      if (Number.isFinite(n)) cands.push({ n, rule }); }] *)
Definition push (cands : list cand) (val : float) (r : string) : list cand :=
  if JSNum.isFinite val then cands ++ [{| n := val; rule := r |}] else cands.

Definition area_of (features : json) : float :=
  or_zero (Number (get features "procedure_area")).

(** The array [cands] when the pushes are done. *)
Definition candidates (rawNumber : float) (features : json) : list cand :=
  let area := area_of features in
  let cands := [] in
  let cands := push cands rawNumber "raw" in
  let cands :=
    if (0 <? area)%float then
      let cands := push cands (rawNumber * area)%float "per_sqm" in
      let cands := push cands (Math_exp rawNumber * area)%float "exp_per_sqm" in
      push cands (Math_pow 10 rawNumber * area)%float "pow10_per_sqm"
    else cands in
  let cands := push cands (Math_exp rawNumber) "exp" in
  let cands := push cands (Math_pow 10 rawNumber) "pow10" in
  push cands (rawNumber * 1000)%float "x1000".

Definition choosePlausibleTotal (rawNumber : float) (features : json) : cand :=
  let cands := candidates rawNumber features in
  let plausible := List.filter in_range cands in
  match plausible with
  | _ :: _ => hd {| n := rawNumber; rule := "raw" |} (sort by_bonus_then_value plausible)
  | [] =>
      match sort by_value cands with
      | c :: _ => c
      | [] => {| n := rawNumber; rule := "raw" |}
      end
  end.

(** The candidates the transform rules generate, before [push] looks at
    their values: what the specification calls the generated candidates. *)
Definition generated (rawNumber : float) (features : json) : list cand :=
  let area := area_of features in
  [{| n := rawNumber; rule := "raw" |}]
  ++ (if (0 <? area)%float then
        [{| n := (rawNumber * area)%float; rule := "per_sqm" |};
         {| n := (Math_exp rawNumber * area)%float; rule := "exp_per_sqm" |};
         {| n := (Math_pow 10 rawNumber * area)%float; rule := "pow10_per_sqm" |}]
      else [])
  ++ [{| n := Math_exp rawNumber; rule := "exp" |};
      {| n := Math_pow 10 rawNumber; rule := "pow10" |};
      {| n := (rawNumber * 1000)%float; rule := "x1000" |}].
End Resolver.

(** ** Response documents

    [deepFindNumber] compares objects by identity and must cope with shared
    and cyclic references, so a response document is a graph: a heap of
    objects and a root value. An object is given by its
    [Object.entries], in enumeration order; an array is the object whose
    keys are its indices. What [JSON.parse] returns is the special case of
    a tree. A reference the heap does not hold reads as an object without
    entries. *)

Abbreviation loc := nat (only parsing).

Inductive value :=
| VUndefined
| VNull
| VBool (b : bool)
| VNum (x : float)
| VStr (s : string)
| VRef (l : loc).

Abbreviation object := (list (string * value)).

Record document := { doc_heap : gmap loc object; doc_root : value }.

(** ** The numeric extractor *)

Definition keyHit (k : string) : bool := test true hit_pattern k.

Section Extractor.
Variable StringToNumber : string -> float.

(** The number an entry value stands for, if the loop body takes it as
    numeric: a finite number, or a string that is a plain decimal once
    commas and spaces are removed and whose value is finite. *)
Definition numeric (v : value) : option float :=
  match v with
  | VNum x => if JSNum.isFinite x then Some x else None
  | VStr s =>
      let t := strip_separators s in
      if matches false decimal_pattern t then
        let num := StringToNumber t in
        if JSNum.isFinite num then Some num else None
      else None
  | _ => None
  end.

Inductive scan_result :=
| Hit (v : float)
| Scanned (stack : list value) (best : option float).

(** [if (best == null) best = v] *)
Definition remember (best : option float) (v : float) : option float :=
  match best with
  | None => Some v
  | Some _ => best
  end.

(** The [for (const [k, v] of Object.entries(cur))] loop. The head of
    [stack] is the top of the stack: [stack.push(v)] is a cons. *)
Fixpoint scan (entries : object) (stack : list value) (best : option float)
  : scan_result :=
  match entries with
  | [] => Scanned stack best
  | (k, v) :: rest =>
      match v with
      | VUndefined | VNull => scan rest stack best
      | VNum x =>
          if JSNum.isFinite x then
            if keyHit k then Hit x else scan rest stack (remember best x)
          else scan rest stack best
      | VStr s =>
          let t := strip_separators s in
          if matches false decimal_pattern t then
            let num := StringToNumber t in
            if JSNum.isFinite num then
              if keyHit k then Hit num else scan rest stack (remember best num)
            else scan rest stack best
          else scan rest stack best
      | VRef l => scan rest (VRef l :: stack) best
      | VBool _ => scan rest stack best
      end
  end.

(** What a run of the [while] loop ends with: the returned value and, for
    the record, the objects whose entries were scanned, latest first. *)
Inductive outcome :=
| OutOfFuel
| Return (result : option float) (scanned : list loc).

(** The [while (stack.length)] loop; each iteration takes one unit of
    [fuel]. *)
Fixpoint loop (fuel : nat) (h : gmap loc object) (visited : gset loc)
  (stack : list value) (best : option float) (scanned : list loc) : outcome :=
  match stack with
  | [] => Return best scanned
  | cur :: stack' =>
      match fuel with
      | O => OutOfFuel
      | S fuel' =>
          match cur with
          | VRef l =>
              if decide (l ∈ visited) then loop fuel' h visited stack' best scanned
              else
                match scan (h !!! l) stack' best with
                | Hit v => Return (Some v) (l :: scanned)
                | Scanned stack'' best' =>
                    loop fuel' h ({[l]} ∪ visited) stack'' best' (l :: scanned)
                end
          | _ => loop fuel' h visited stack' best scanned
          end
      end
  end.

(** The number of entries of all objects of a heap. *)
Definition entries_count (h : gmap loc object) : nat :=
  map_fold (fun _ o acc => length o + acc) 0 h.

(** Fuel that always suffices (see [loop_terminates]). *)
Definition enough_fuel (h : gmap loc object) : nat := 2 + entries_count h.

Definition deepFindNumber_run (fuel : nat) (doc : document) : outcome :=
  loop fuel (doc_heap doc) ∅ [doc_root doc] None [].

Definition deepFindNumber (doc : document) : option float :=
  match deepFindNumber_run (enough_fuel (doc_heap doc)) doc with
  | Return result _ => result
  | OutOfFuel => None
  end.
End Extractor.

(** ** The dispatcher *)

(** What a rejected request carries: [err.message] and [String(err)]. *)
Record js_error := { message : string; description : string }.

(** How one HTTPS exchange ends: the ['error'] event of the request (an
    exception while the request is made reaches the caller in the same
    way), or the ['end'] event of a response with its status code ([None]
    for [undefined]) and the concatenated body, or neither: the response
    is cut after its headers, and the response has no ['error'] listener,
    or the upstream answers never. There is no timeout. *)
Inductive transport :=
| TransportError (err : js_error)
| Transported (statusCode : option nat) (data : string)
| Unsettled.

(** One exchange, for the record: where the request went, the body that
    was written, and how the exchange ended. *)
Record attempt := { url : string; sent : json; received : transport }.

Record proxy_result := {
  status : nat;
  raw : document;
  predicted_price_raw : option float;
  predicted_price : option float;
  used_rule : option string
}.

(** Truthiness of a parsed JSON value. *)
Definition truthy (v : json) : bool :=
  match v with
  | JNull => false
  | JBool b => b
  | JNum x => negb (is_nan x || is_zero x)
  | JStr s => negb (String.eqb s EmptyString)
  | JArr _ | JObj _ => true
  end.

(** [v || {}] *)
Definition or_empty_object (v : json) : json :=
  if truthy v then v else JObj [].

(** The object [{ raw: data }]. *)
Definition raw_document (data : string) : document :=
  {| doc_heap := {[ 0 := [("raw"%string, VStr data)] ]}; doc_root := VRef 0 |}.

(** [isFinite(rawNum ?? NaN)] *)
Definition isFinite_or_NaN (v : option float) : bool :=
  match v with
  | Some x => JSNum.isFinite x
  | None => false
  end.

(** [Number(v)] throws a [TypeError] when the conversion of [v] to a
    primitive finds no method to call. In a parsed body that is an object
    with an own property [toString], which is no function, and an array
    with such an element, since its string joins those of its elements. *)
Fixpoint unconvertible (v : json) : bool :=
  match v with
  | JObj fields =>
      match assoc "toString" fields with
      | Some _ => true
      | None => false
      end
  | JArr items => existsb unconvertible items
  | _ => false
  end.

(** [Number(features.procedure_area)] throws. *)
Definition unconvertible_area (features : json) : bool :=
  match get features "procedure_area" with
  | Some v => unconvertible v
  | None => false
  end.

(** The [TypeError] of a conversion, with the text that Node gives it. *)
Definition conversion_error : js_error :=
  {| message := "Cannot convert object to primitive value";
     description := "TypeError: Cannot convert object to primitive value" |}.

(** How a loop of the dispatcher ends; [Pending] when it waits for a
    promise that settles never. *)
Inductive loop_exit :=
| Thrown (err : js_error)
| Returned (result : proxy_result)
| Completed
| Pending.

(** What the handler sends; [NoReply] when it waits for ever. *)
Inductive reply :=
| ReplyOk (code : nat) (predicted_price predicted_price_raw : option float)
    (used_rule : option string) (raw : document)
| ReplyError (code : nat) (error : string)
| NoReply.

Section Dispatcher.
Variable Math_exp : float -> float.
Variable Math_pow : float -> float -> float.
Variable StringToNumber : string -> float.
Variable ObjectToNumber : json -> float.
(** [JSON.parse]; [None] when it throws. *)
Variable JSON_parse : string -> option document.
(** The network and the upstream service: a state and what a POST of a
    body to a URL does to it. *)
Variable upstream : Type.
Variable https_request : upstream -> string -> json -> transport * upstream.
Variable MODEL_BASE : string.

(** The outside world and the exchanges made so far, oldest first. *)
Record world := { outside : upstream; attempts : list attempt }.

(** How the promise of [postJson] settles: the handler of the ['end'] event
    resolves it, the ['error'] event of the request rejects it; [None]
    when it stays pending. *)
Definition response_of (t : transport) : option (js_error + (nat * document)) :=
  match t with
  | TransportError err => Some (inl err)
  | Transported statusCode data =>
      let status := match statusCode with Some (S k) => S k | _ => 200 end in
      let text := if String.eqb data EmptyString then "{}"%string else data in
      match JSON_parse text with
      | Some json => Some (inr (status, json))
      | None => Some (inr (status, raw_document data))
      end
  | Unsettled => None
  end.

(** The call [choosePlausibleTotal(rawNum, body)]: its first line converts
    [body.procedure_area] to a number, and that may throw. *)
Definition chosen_total (rawNum : float) (body : json) : js_error + cand :=
  if unconvertible_area body then inl conversion_error
  else inr (choosePlausibleTotal Math_exp Math_pow StringToNumber ObjectToNumber
                                 rawNum body).

Definition postJson (urlString : string) (bodyObj : json) (w : world)
  : option (js_error + (nat * document)) * world :=
  let body := or_empty_object bodyObj in
  let (t, out) := https_request (outside w) urlString body in
  (response_of t,
   {| outside := out;
      attempts := attempts w ++ [{| url := urlString; sent := body; received := t |}] |}).

(** The inner loop [for (const shape of shapes)]. *)
Fixpoint for_shapes (body : json) (p : string) (shapes : list json) (w : world)
  : loop_exit * world :=
  match shapes with
  | [] => (Completed, w)
  | shape :: shapes' =>
      match postJson (MODEL_BASE ++ p) shape w with
      | (None, w') => (Pending, w')
      | (Some (inl err), w') => (Thrown err, w')
      | (Some (inr (status, json)), w') =>
          let rawNum := deepFindNumber StringToNumber json in
          match rawNum with
          | Some x =>
              if JSNum.isFinite x then
                match chosen_total x body with
                | inl err => (Thrown err, w')
                | inr chosen =>
                    (Returned {| status := status; raw := json;
                                 predicted_price_raw := Some x;
                                 predicted_price := Some (n chosen);
                                 used_rule := Some (rule chosen) |}, w')
                end
              else for_shapes body p shapes' w'
          | None => for_shapes body p shapes' w'
          end
      end
  end.

(** The outer loop [for (const p of paths)]. *)
Fixpoint for_paths (body : json) (paths : list string) (shapes : list json) (w : world)
  : loop_exit * world :=
  match paths with
  | [] => (Completed, w)
  | p :: paths' =>
      match for_shapes body p shapes w with
      | (Completed, w') => for_paths body paths' shapes w'
      | exit => exit
      end
  end.

(** What the promise of [tryAllShapes] settles with: an exception rejects
    it, a result resolves it; [None] when it stays pending. *)
Definition tryAllShapes (body : json) (w : world)
  : option (js_error + proxy_result) * world :=
  let shapes := [body; JObj [("data"%string, body)]; JObj [("data"%string, JArr [body])]] in
  let paths := ["/predict"; "/"]%string in
  match for_paths body paths shapes w with
  | (Thrown err, w') => (Some (inl err), w')
  | (Returned result, w') => (Some (inr result), w')
  | (Pending, w') => (None, w')
  | (Completed, w') =>
      match postJson (MODEL_BASE ++ "/predict") body w' with
      | (None, w'') => (None, w'')
      | (Some (inl err), w'') => (Some (inl err), w'')
      | (Some (inr (last_status, last_json)), w'') =>
          let rawNum := deepFindNumber StringToNumber last_json in
          let chosen : js_error + option float * option string :=
            match rawNum with
            | Some x =>
                if JSNum.isFinite x then
                  match chosen_total x body with
                  | inl err => inl err
                  | inr c => inr (Some (n c), Some (rule c))
                  end
                else inr (None, None)
            | None => inr (None, None)
            end in
          match chosen with
          | inl err => (Some (inl err), w'')
          | inr chosen =>
              (Some (inr {| status := last_status;
                            raw := last_json;
                            predicted_price_raw :=
                              if isFinite_or_NaN rawNum then rawNum else None;
                            predicted_price :=
                              if isFinite_or_NaN (fst chosen) then fst chosen else None;
                            used_rule := snd chosen |}), w'')
          end
      end
  end.

(** [req.body || {}]: [req_body] is [req.body], [None] for [undefined]. *)
Definition body_or_empty (req_body : option json) : json :=
  match req_body with
  | Some b => or_empty_object b
  | None => JObj []
  end.

(** [app.post('/api/predict', ...)]. An exception of [tryAllShapes], from
    an exchange or from the conversion of [procedure_area], gives the
    reply of the [catch] clause; while the promise is pending, nothing is
    sent. *)
Definition api_predict (req_body : option json) (w : world) : reply * world :=
  let body := body_or_empty req_body in
  match tryAllShapes body w with
  | (Some (inr result), w') =>
      (ReplyOk (match status result with O => 200 | code => code end)
               (predicted_price result) (predicted_price_raw result)
               (used_rule result) (raw result), w')
  | (Some (inl err), w') =>
      (ReplyError 500 (if String.eqb (message err) EmptyString then description err
                       else message err), w')
  | (None, w') => (NoReply, w')
  end.
End Dispatcher.

(** ** A reference engine

    One concrete choice of the engine's functions, to run the model on
    inputs: [e^x] and [10^x] are computed in 128-bit fixed point (argument
    reduction by [ln 2], then the exponential series) and rounded to a
    double once. The theorems below do not depend on it: they hold for
    every [Math_exp] and [Math_pow]. *)
Module Reference.

Local Open Scope Z_scope.

(** [floor (ln 2 * 2^128)] and [floor (ln 10 * 2^128)] *)
Definition LN2 : Z := 235865763225513294137944142764154484399.
Definition LN10 : Z := 783529105480883066805338482703447369891.
Definition ONE : Z := 2 ^ 128.

Fixpoint exp_series (terms : nat) (i term acc r : Z) : Z :=
  match terms with
  | O => acc
  | S k =>
      let term' := term * r / ONE / i in
      exp_series k (i + 1) term' (acc + term') r
  end.

(** [e^(X / 2^128)], rounded to nearest. *)
Definition exp_fixed (X : Z) : float :=
  let k := X / LN2 in
  let r := X - k * LN2 in
  let E := exp_series 45 1 ONE ONE r in
  SF2Prim (binary_normalize prec emax E (k - 128) false).

(** The double [x] in fixed point, truncated. *)
Definition to_fixed (x : float) : Z :=
  match Prim2SF x with
  | S754_finite s m e => cond_Zopp s (Z.shiftl (Zpos m) (e + 128))
  | _ => 0
  end.

Definition Math_exp (x : float) : float :=
  if is_nan x then nan
  else if (710 <? x)%float then infinity
  else if (x <? -746)%float then 0%float
  else exp_fixed (to_fixed x).

(** The proxy only raises 10 to a power; other bases are outside this
    reference and give [NaN]. *)
Definition Math_pow (base x : float) : float :=
  if is_nan x || negb (base =? 10)%float then nan
  else if (309 <? x)%float then infinity
  else if (x <? -324)%float then 0%float
  else exp_fixed (to_fixed x * LN10 / ONE).

(** The value of the digits of [s], the point left out. *)
Fixpoint digits_value (s : string) (acc : Z) : Z :=
  match s with
  | EmptyString => acc
  | String c s' =>
      if digit c then digits_value s' (10 * acc + (Z.of_nat (nat_of_ascii c) - 48))
      else digits_value s' acc
  end.

(** The number of digits behind the point. *)
Fixpoint fraction_digits (s : string) : Z :=
  match s with
  | EmptyString => 0
  | String c s' => if Ascii.eqb c "." then Z.of_nat (String.length s') else fraction_digits s'
  end.

(** [Number(s)] for a plain decimal literal, rounded to nearest; the other
    forms of numeric strings are outside this reference and give [NaN]. *)
Definition StringToNumber (s : string) : float :=
  if matches false decimal_pattern s then
    let negative := String.prefix "-" s in
    match digits_value s 0 with
    | Zpos m =>
        SF2Prim (SFdiv prec emax (S754_finite negative m 0)
                   (S754_finite false (Z.to_pos (10 ^ fraction_digits s)) 0))
    | _ => if negative then (-0)%float else 0%float
    end
  else nan.

(** Objects are not exercised by the examples. *)
Definition ObjectToNumber (v : json) : float := nan.

End Reference.

(** ** Inputs of the worked examples *)

Definition area_1200 : json := JObj [("procedure_area"%string, JNum 1200)].
Definition area_1000 : json := JObj [("procedure_area"%string, JNum 1000)].

Definition ref_candidates : float -> json -> list cand :=
  candidates Reference.Math_exp Reference.Math_pow
             Reference.StringToNumber Reference.ObjectToNumber.

Definition ref_generated : float -> json -> list cand :=
  generated Reference.Math_exp Reference.Math_pow
            Reference.StringToNumber Reference.ObjectToNumber.

Definition ref_choosePlausibleTotal : float -> json -> cand :=
  choosePlausibleTotal Reference.Math_exp Reference.Math_pow
                       Reference.StringToNumber Reference.ObjectToNumber.

(** ** A stub upstream

    It answers with a body without a number until the fourth request, which
    gets the array [[800]]; its state counts the requests. [JSON.parse] is
    given on the two texts that occur. *)
Module Stub.

Definition array_800 : document :=
  {| doc_heap := {[ 0 := [("0"%string, VNum 800)] ]}; doc_root := VRef 0 |}.

Definition empty_object : document :=
  {| doc_heap := {[ 0 := [] ]}; doc_root := VRef 0 |}.

Definition JSON_parse (text : string) : option document :=
  if String.eqb text "[800]" then Some array_800
  else if String.eqb text "{}" then Some empty_object
  else None.

Definition https_request (count : nat) (url : string) (body : json)
  : transport * nat :=
  (if Nat.eqb count 3 then Transported (Some 200) "[800]"
   else Transported (Some 404) EmptyString, S count).

Definition MODEL_BASE : string := "https://model.example".

Definition start : world nat := {| outside := 0; attempts := [] |}.

Definition tryAllShapes (body : json) (w : world nat)
  : option (js_error + proxy_result) * world nat :=
  tryAllShapes Reference.Math_exp Reference.Math_pow
               Reference.StringToNumber Reference.ObjectToNumber
               JSON_parse nat https_request MODEL_BASE body w.

(** An upstream that sends the headers of a response and no more: no
    exchange with it ends. *)
Definition silent_request (count : nat) (url : string) (body : json)
  : transport * nat :=
  (Unsettled, S count).

Definition api_predict_silent (req_body : option json) (w : world nat)
  : reply * world nat :=
  api_predict Reference.Math_exp Reference.Math_pow
              Reference.StringToNumber Reference.ObjectToNumber
              JSON_parse nat silent_request MODEL_BASE req_body w.

Definition api_predict (req_body : option json) (w : world nat) : reply * world nat :=
  api_predict Reference.Math_exp Reference.Math_pow
              Reference.StringToNumber Reference.ObjectToNumber
              JSON_parse nat https_request MODEL_BASE req_body w.

(** The body [{"procedure_area":{"toString":0}}]. *)
Definition area_object : json :=
  JObj [("procedure_area"%string, JObj [("toString"%string, JNum 0)])].

Definition fourth_result : proxy_result :=
  {| status := 200; raw := array_800;
     predicted_price_raw := Some 800%float;
     predicted_price := Some 960000%float;
     used_rule := Some "per_sqm"%string |}.

(** A document with a cycle and a shared object: object 0 holds itself
    and object 1 twice, object 1 points back to object 0. *)
Definition cyclic : document :=
  {| doc_heap :=
       {[ 0 := [("a"%string, VNum 1); ("first"%string, VRef 1);
                ("again"%string, VRef 1); ("self"%string, VRef 0)];
          1 := [("x"%string, VStr "1,000"); ("price"%string, VStr "2 500.5");
                ("back"%string, VRef 0)] ]};
     doc_root := VRef 0 |}.

(** Documents with one entry under the key [price], and one with two hit
    keys. *)
Definition priced (v : value) : document :=
  {| doc_heap := {[ 0 := [("price"%string, v)] ]}; doc_root := VRef 0 |}.

Definition two_hits : document :=
  {| doc_heap := {[ 0 := [("price"%string, VNum 1); ("value"%string, VNum 2)] ]};
     doc_root := VRef 0 |}.

(** The digits 12 followed by a tab character. *)
Definition tabbed : string :=
  String "1" (String "2" (String (ascii_of_nat 9) EmptyString)).

Fixpoint zeros (k : nat) : string :=
  match k with
  | O => EmptyString
  | S k' => String "0" (zeros k')
  end.

(** The digit 1 followed by 400 zeros. *)
Definition huge : string := String "1" (zeros 400).

End Stub.

(** ** The recommendation proxy *)

(** What the handler sends: the status and the body of the upstream
    response, or status 500 with [{ ok: false, error }]; [NoRelay] when it
    waits for ever. *)
Inductive relay :=
| Relayed (code : nat) (body : document)
| RelayError (code : nat) (error : string)
| NoRelay.

Section Recommender.
Variable JSON_parse : string -> option document.
Variable upstream : Type.
Variable https_request : upstream -> string -> json -> transport * upstream.
Variable RECOMMENDER_URL : string.

(** [app.post('/api/recommend', ...)]: [req_body] is [req.body], [None] for
    [undefined]. *)
Definition api_recommend (req_body : option json) (w : world upstream)
  : relay * world upstream :=
  let payload := match req_body with
                 | Some b => or_empty_object b
                 | None => JObj []
                 end in
  match postJson JSON_parse upstream https_request RECOMMENDER_URL payload w with
  | (Some (inr (status, json)), w') =>
      (Relayed (match status with O => 200 | code => code end) json, w')
  | (Some (inl err), w') =>
      (RelayError 500 (if String.eqb (message err) EmptyString then description err
                       else message err), w')
  | (None, w') => (NoRelay, w')
  end.
End Recommender.

(** ** The chat relay

    The second half of [server/index.js]: the preferences kept per
    session, and the relay of a chat question to the n8n workflow.

    A string is a sequence of code units below 256. An object is the list
    of its own properties in creation order; [JSON.parse] and the query
    parser give objects. *)

Module Chat.

(** *** Strings *)

(** White space and line terminators, as [trim] removes them. *)
Definition white (c : ascii) : bool :=
  let k := nat_of_ascii c in
  ((9 <=? k)%nat && (k <=? 13)%nat) || (k =? 32)%nat || (k =? 160)%nat.

Fixpoint trimStart (s : string) : string :=
  match s with
  | EmptyString => EmptyString
  | String c s' => if white c then trimStart s' else s
  end.

Fixpoint trimEnd (s : string) : string :=
  match s with
  | EmptyString => EmptyString
  | String c s' =>
      match trimEnd s' with
      | EmptyString => if white c then EmptyString else String c EmptyString
      | t => String c t
      end
  end.

(** [s.trim()] *)
Definition trim (s : string) : string := trimEnd (trimStart s).

(** The lower case of a code unit below 256: the letters [A-Z] and the
    accented capitals. *)
Definition lower_unit (c : ascii) : ascii :=
  let k := nat_of_ascii c in
  if ((65 <=? k)%nat && (k <=? 90)%nat)
     || ((192 <=? k)%nat && (k <=? 222)%nat && negb (k =? 215)%nat)
  then ascii_of_nat (k + 32) else c.

(** [s.toLowerCase()] *)
Fixpoint toLowerCase (s : string) : string :=
  match s with
  | EmptyString => EmptyString
  | String c s' => String (lower_unit c) (toLowerCase s')
  end.

(** A string in a condition: the empty string is falsy. *)
Definition nonempty (s : string) : bool := negb (String.eqb s EmptyString).

(** The decimal numeral of a status code or of an index. *)
Definition decimal (k : nat) : string := NilEmpty.string_of_uint (Nat.to_uint k).

(** *** Objects *)

(** The own property [k] of an object; [None] is [undefined]. *)
Fixpoint own {V : Type} (k : string) (o : list (string * V)) : option V :=
  match o with
  | [] => None
  | (k', v) :: rest => if String.eqb k k' then Some v else own k rest
  end.

(** [CreateDataProperty]: the value of an existing property is replaced
    in place, a new property is created last. *)
Fixpoint define {V : Type} (k : string) (v : V) (o : list (string * V))
  : list (string * V) :=
  match o with
  | [] => [(k, v)]
  | (k', v') :: rest =>
      if String.eqb k k' then (k, v) :: rest else (k', v') :: define k v rest
  end.

(** The assignment [o[k] = v]. The key [__proto__] is the accessor of
    [Object.prototype]: the assignment creates no property (and a
    prototype is never looked at by what follows). *)
Definition assign {V : Type} (k : string) (v : V) (o : list (string * V))
  : list (string * V) :=
  if String.eqb k "__proto__" then o else define k v o.

Fixpoint digits_value (s : string) (acc : N) : option N :=
  match s with
  | EmptyString => Some acc
  | String c s' =>
      if digit c then digits_value s' (10 * acc + (N_of_ascii c - 48))%N else None
  end.

(** An array index: the canonical numeral of an integer below [2^32 - 1]. *)
Definition array_index (k : string) : option N :=
  match k with
  | EmptyString => None
  | String c s' =>
      if Ascii.eqb c "0" && nonempty s' then None
      else match digits_value k 0 with
           | Some i => if (i <? 4294967295)%N then Some i else None
           | None => None
           end
  end.

Fixpoint insert_index {V : Type} (i : N) (kv : string * V)
  (l : list (N * (string * V))) : list (N * (string * V)) :=
  match l with
  | [] => [(i, kv)]
  | (j, kv') :: rest =>
      if (i <? j)%N then (i, kv) :: l else (j, kv') :: insert_index i kv rest
  end.

(** The properties whose keys are array indices, in ascending order. *)
Fixpoint index_properties {V : Type} (o : list (string * V))
  : list (N * (string * V)) :=
  match o with
  | [] => []
  | (k, v) :: rest =>
      match array_index k with
      | Some i => insert_index i (k, v) (index_properties rest)
      | None => index_properties rest
      end
  end.

Definition named {V : Type} (kv : string * V) : bool :=
  match array_index (fst kv) with
  | Some _ => false
  | None => true
  end.

(** [Object.entries(o)]: the array indices in ascending order, then the
    other keys in the order of their creation. *)
Definition Object_entries {V : Type} (o : list (string * V)) : list (string * V) :=
  map snd (index_properties o) ++ List.filter named o.

(** The own enumerable properties of a value that [Object.assign] and a
    spread copy: those of an object, the elements of an array, the code
    units of a string. *)
Definition own_enumerable (v : json) : list (string * json) :=
  match v with
  | JObj fields => Object_entries fields
  | JArr items => imap (fun i x => (decimal i, x)) items
  | JStr s =>
      imap (fun i c => (decimal i, JStr (String c EmptyString)))
           (list_ascii_of_string s)
  | _ => []
  end.

(** [Object.assign(target, source)] *)
Definition Object_assign (target : list (string * json)) (source : json)
  : list (string * json) :=
  fold_left (fun t kv => assign (fst kv) (snd kv) t) (own_enumerable source) target.

(** [{ ...a, ...b }] *)
Definition spread {V : Type} (a b : list (string * V)) : list (string * V) :=
  fold_left (fun o kv => define (fst kv) (snd kv) o)
            (Object_entries a ++ Object_entries b) [].

(** An object of strings as a value. *)
Definition object_of (p : list (string * string)) : json :=
  JObj (map (fun kv => (fst kv, JStr (snd kv))) p).

(** *** The preferences store *)

(** [SameValueZero], the comparison of the keys of a [Map]. An array or an
    object is the same as itself only, and those of a request are new. *)
Definition same_key (a b : json) : bool :=
  match a, b with
  | JNull, JNull => true
  | JBool x, JBool y => Bool.eqb x y
  | JNum x, JNum y => (x =? y)%float || (is_nan x && is_nan y)
  | JStr s, JStr t => String.eqb s t
  | _, _ => false
  end.

Fixpoint Map_get {V : Type} (k : json) (m : list (json * V)) : option V :=
  match m with
  | [] => None
  | (k', v) :: rest => if same_key k k' then Some v else Map_get k rest
  end.

Fixpoint Map_set {V : Type} (k : json) (v : V) (m : list (json * V))
  : list (json * V) :=
  match m with
  | [] => [(k, v)]
  | (k', v') :: rest =>
      if same_key k k' then (k', v) :: rest else (k', v') :: Map_set k v rest
  end.

(** *** The query of the upstream request *)

Fixpoint params_delete (name : string) (l : list (string * string))
  : list (string * string) :=
  match l with
  | [] => []
  | (k, v) :: rest =>
      if String.eqb k name then params_delete name rest
      else (k, v) :: params_delete name rest
  end.

(** [searchParams.set(name, value)]: the first pair of that name gets the
    value and the others go; without one the pair is appended. *)
Fixpoint params_set (name value : string) (l : list (string * string))
  : list (string * string) :=
  match l with
  | [] => [(name, value)]
  | (k, v) :: rest =>
      if String.eqb k name then (name, value) :: params_delete name rest
      else (k, v) :: params_set name value rest
  end.

(** [/^prefs\[(.+)\]$/]: the dot matches all but the line terminators. *)
Definition dot (c : ascii) : bool :=
  negb (Ascii.eqb c (ascii_of_nat 10) || Ascii.eqb c (ascii_of_nat 13)).

Definition prefs_pattern : regex :=
  Seq (lit "prefs[") (Seq (Plus (Class dot)) (lit "]")).

(** [m[1]] of [prefs_pattern.exec(k)], [None] without a match: the group
    is what stands between the six code units in front and the last one. *)
Definition bracket_name (k : string) : option string :=
  if matches false prefs_pattern k then Some (substring 6 (String.length k - 7) k)
  else None.

(** What a call ends with: an exception thrown before any request, a
    rejected promise, a resolved one, or one that settles never. *)
Inductive completion (A : Type) :=
| Threw
| Rejected (err : js_error)
| Resolved (result : A)
| Waiting.
Arguments Threw {A}.
Arguments Rejected {A} err.
Arguments Resolved {A} result.
Arguments Waiting {A}.

Record n8n_result := {
  ok : bool;
  error : option string;
  answer : string;
  raw : string
}.

(** One GET, for the record: the URL, its query, and how the exchange
    ended. *)
Record exchange := {
  target : string;
  query : list (string * string);
  ended : transport
}.

(** What the handler sends: [{ ok: true, answer, raw }], or status 500
    with [{ ok: false, error: 'Chat failed' }]; [ChatSilent] when it waits
    for ever. *)
Inductive chat_reply :=
| ChatOk (answer raw : string)
| ChatFailed
| ChatSilent.

Section Relay.
(** The conversions of a number and of an array or object to a string (the
    latter throws when [toString] is not callable: [None]), [JSON.parse]
    ([None] when it throws) and [JSON.stringify] are the engine's. *)
Variable NumberToString : float -> string.
Variable ObjectToString : json -> option string.
Variable JSON_parse : string -> option json.
Variable JSON_stringify : json -> string.
(** The two message texts with a character above 255: the answer to
    [__prefs__] and the opening of a summary. *)
Variable SAVED : string.
Variable SUMMARY : string.
(** The webhook, the query its URL starts with, and the network with the
    workflow behind it. *)
Variable N8N_CHAT_URL : string.
Variable searchParams : string -> list (string * string).
Variable upstream : Type.
Variable https_get :
  upstream -> string -> list (string * string) -> transport * upstream.

(** [(v ?? '').toString()], which is also [String(v ?? '')] on these
    values; [None] when it throws. *)
Definition toString (v : json) : option string :=
  match v with
  | JNull => Some EmptyString
  | JBool b => Some (if b then "true" else "false")%string
  | JNum x => Some (NumberToString x)
  | JStr s => Some s
  | JArr _ | JObj _ => ObjectToString v
  end.

(** [String(v)], the conversion of what [searchParams.set] is given. *)
Definition String_of (v : json) : option string :=
  match v with
  | JNull => Some "null"%string
  | _ => toString v
  end.

(** The loop of [sanitize] over the entries, [out] being the object under
    construction. *)
Fixpoint sanitize_entries (entries : list (string * json))
  (out : list (string * string)) : option (list (string * string)) :=
  match entries with
  | [] => Some out
  | (k, v) :: rest =>
      match toString v with
      | None => None
      | Some text =>
          let s := trim text in
          sanitize_entries rest (if nonempty s then assign k s out else out)
      end
  end.

Definition sanitize (o : list (string * json)) : option (list (string * string)) :=
  sanitize_entries (Object_entries o) [].

(** [if (p.key) bits.push(`label: ${p.key}`)] *)
Definition bit (label key : string) (p : list (string * string)) : list string :=
  match own key p with
  | Some v => if nonempty v then [(label ++ ": " ++ v)%string] else []
  | None => []
  end.

Definition summarizePrefs (p : list (string * string)) : string :=
  match p with
  | [] => "You currently have no saved preferences."%string
  | _ =>
      let bits :=
        bit "community" "community" p ++ bit "property type" "ptype" p
        ++ bit "bedrooms" "bedrooms" p ++ bit "must-have" "musthave" p
        ++ bit "lifestyle" "lifestyle" p ++ bit "personality" "personality" p
        ++ bit "style" "style" p ++ bit "commute" "commute" p
        ++ bit "budget mindset" "budget" p in
      (SUMMARY ++ String.concat ", " bits ++ ".")%string
  end.

Definition smartParse (strOrObj : json) : json :=
  match strOrObj with
  | JArr _ | JObj _ => strOrObj
  | _ =>
      let txt := trim (match toString strOrObj with
                       | Some text => text
                       | None => EmptyString
                       end) in
      if nonempty txt then
        match JSON_parse txt with
        | Some (JStr once) =>
            match JSON_parse once with
            | Some twice => twice
            | None => JObj [("output"%string, JStr once)]
            end
        | Some once => once
        | None => JObj [("output"%string, JStr txt)]
        end
      else JNull
  end.

(** [v?.k], with [None] for [undefined] *)
Definition member (v : option json) (k : string) : option json :=
  match v with
  | Some j => get j k
  | None => None
  end.

(** [a ?? b] *)
Definition coalesce (a b : option json) : option json :=
  match a with
  | None | Some JNull => b
  | _ => a
  end.

Definition extractAnswer (payload : json) : string :=
  let j := smartParse payload in
  let candidate :=
    coalesce (member (Some j) "answer")
   (coalesce (member (member (Some j) "output") "answer")
   (coalesce (member (member (Some j) "output") "state")
   (coalesce (member (Some j) "output")
   (coalesce (member (Some j) "content")
   (coalesce (member (Some j) "message")
   (coalesce (member (Some j) "result") (Some (JStr EmptyString)))))))) in
  let text := JSON_stringify (match j with JNull => payload | _ => j end) in
  match candidate with
  | Some (JStr s) => if nonempty (trim s) then trim s else text
  | _ => text
  end.

(** The server: the preferences of the sessions, the outside world, and
    the exchanges made so far, oldest first. *)
Record server := {
  PREFS_STORE : list (json * list (string * string));
  outside : upstream;
  exchanges : list exchange
}.

(** [if (clean.from) clean.to = clean.from] *)
Definition alias (from to : string) (clean : list (string * string))
  : list (string * string) :=
  match own from clean with
  | Some v => if nonempty v then assign to v clean else clean
  | None => clean
  end.

(** The query of the request for a question, a session and the clean
    preferences; [text] is the session identifier as a string. *)
Definition request_query (question text : string) (clean : list (string * string))
  : list (string * string) :=
  let params := searchParams N8N_CHAT_URL in
  let params := params_set "question" question params in
  let params := params_set "sessionId" text params in
  let params := params_set "prefs_json" (JSON_stringify (object_of clean)) params in
  fold_left (fun ps kv => params_set (fst kv) (snd kv) ps) (Object_entries clean) params.

(** The handler of the ['end'] event. *)
Definition result_of (statusCode : option nat) (data : string) : n8n_result :=
  let answer := extractAnswer (JStr data) in
  match statusCode with
  | Some code =>
      if (400 <=? code)%nat then
        {| ok := false; error := Some ("n8n HTTP " ++ decimal code)%string;
           answer := answer; raw := data |}
      else {| ok := true; error := None; answer := answer; raw := data |}
  | None => {| ok := true; error := None; answer := answer; raw := data |}
  end.

Definition callN8n (question : string) (sessionId : json)
  (prefs : list (string * string)) (st : server)
  : completion n8n_result * server :=
  match sanitize (map (fun kv => (fst kv, JStr (snd kv))) prefs) with
  | None => (Threw, st)
  | Some clean =>
      let clean := alias "community" "locations" clean in
      let clean := alias "ptype" "propertyType" clean in
      let clean := alias "bedrooms" "bedroom" clean in
      match String_of sessionId with
      | None => (Threw, st)
      | Some text =>
          let params := request_query question text clean in
          let (t, out) := https_get (outside st) N8N_CHAT_URL params in
          let st' := {| PREFS_STORE := PREFS_STORE st; outside := out;
                        exchanges := exchanges st
                                     ++ [{| target := N8N_CHAT_URL; query := params;
                                            ended := t |}] |} in
          match t with
          | TransportError err => (Rejected err, st')
          | Transported statusCode data => (Resolved (result_of statusCode data), st')
          | Unsettled => (Waiting, st')
          end
      end
  end.

Definition gatherPrefsFromQuery (q : list (string * json))
  : option (list (string * string)) :=
  let prefs :=
    fold_left (fun prefs kv =>
                 match bracket_name (fst kv) with
                 | Some name => assign name (snd kv) prefs
                 | None => prefs
                 end)
              (Object_entries q) [] in
  let prefs :=
    match prefs, own "prefs_json" q with
    | [], Some text =>
        if truthy text then
          match toString text with
          | Some source =>
              match JSON_parse source with
              | Some parsed => Object_assign prefs parsed
              | None => prefs
              end
          | None => prefs
          end
        else prefs
    | _, _ => prefs
    end in
  sanitize prefs.

(** [a || b] *)
Definition or_else (a : option json) (b : json) : json :=
  match a with
  | Some v => if truthy v then v else b
  | None => b
  end.

(** [(src?.question || '').trim()]; [None] when the value has no [trim]
    to call. *)
Definition question_of (q : list (string * json)) : option string :=
  match or_else (own "question" q) (JStr EmptyString) with
  | JStr s => Some (trim s)
  | _ => None
  end.

Definition session_of (q : list (string * json)) : json :=
  or_else (own "sessionId" q)
    (or_else (own "sessionID" q)
       (or_else (own "sessioniD" q) (JStr "default-session"))).

(** [app.get('/api/chat', ...)]: [q] is [req.query]. The handler writes to
    the store before it waits for the workflow and does not read it
    afterwards, so one request is one step of the server. *)
Definition api_chat (q : list (string * json)) (st : server) : chat_reply * server :=
  match question_of q with
  | None => (ChatFailed, st)
  | Some question =>
      let sessionId := session_of q in
      match gatherPrefsFromQuery q with
      | None => (ChatFailed, st)
      | Some incoming =>
          let stored := match Map_get sessionId (PREFS_STORE st) with
                        | Some p => p
                        | None => []
                        end in
          let merged := spread stored incoming in
          let st :=
            if (0 <? length incoming)%nat || String.eqb question "__prefs__" then
              {| PREFS_STORE := Map_set sessionId merged (PREFS_STORE st);
                 outside := outside st; exchanges := exchanges st |}
            else st in
          let qLower := toLowerCase question in
          if String.eqb qLower "__prefs__" then
            (ChatOk SAVED (JSON_stringify (object_of merged)), st)
          else if includes "what are my preferences" qLower
                  || String.eqb qLower "__get_prefs__" then
            (ChatOk (summarizePrefs merged) (JSON_stringify (object_of merged)), st)
          else
            match callN8n question sessionId merged st with
            | (Resolved result, st') =>
                let havePrefs := (0 <? length merged)%nat in
                let looksEmpty := test true (lit "no preferences") (answer result) in
                if havePrefs && (looksEmpty || negb (ok result)) then
                  (ChatOk (summarizePrefs merged) (raw result), st')
                else (ChatOk (answer result) (raw result), st')
            | (Waiting, st') => (ChatSilent, st')
            | (_, st') => (ChatFailed, st')
            end
      end
  end.

End Relay.

End Chat.

(** ** Sample documents *)

Module Sample.

(** [{ meta: { count: 7 }, total: "1,500" }]: numbers, but no hit key. *)
Definition nested : document :=
  {| doc_heap :=
       {[ 0 := [("meta"%string, VRef 1); ("total"%string, VStr "1,500")];
          1 := [("count"%string, VNum 7)] ]};
     doc_root := VRef 0 |}.

End Sample.

(** ** A stub workflow

    One choice of the engine's functions and of the workflow, to run the
    chat relay on inputs: [JSON.parse] is given on the three texts that
    occur, [JSON.stringify] on objects of strings without a character to
    escape; numbers, arrays and objects are not exercised. The workflow
    answers the first request, fails the second with status 500, and is
    out of reach from then on; its state counts the requests. *)
Module ChatStub.
Import Chat.

Definition quote : string := String (ascii_of_nat 34) EmptyString.
Definition backslash : string := String (ascii_of_nat 92) EmptyString.

(** [{"community":" Marina "}] *)
Definition prefs_text : string :=
  ("{" ++ quote ++ "community" ++ quote ++ ":" ++ quote ++ " Marina " ++ quote ++ "}")%string.

(** [{"answer":"Hi"}], and the JSON string that holds this text. *)
Definition answer_text : string :=
  ("{" ++ quote ++ "answer" ++ quote ++ ":" ++ quote ++ "Hi" ++ quote ++ "}")%string.

Definition encoded_text : string :=
  (quote ++ "{" ++ backslash ++ quote ++ "answer" ++ backslash ++ quote ++ ":"
   ++ backslash ++ quote ++ "Hi" ++ backslash ++ quote ++ "}" ++ quote)%string.

Definition NumberToString (x : float) : string := "NaN".
Definition ObjectToString (v : json) : option string := Some "[object Object]"%string.

Definition JSON_parse (text : string) : option json :=
  if String.eqb text prefs_text then
    Some (JObj [("community"%string, JStr " Marina ")])
  else if String.eqb text answer_text then Some (JObj [("answer"%string, JStr "Hi")])
  else if String.eqb text encoded_text then Some (JStr answer_text)
  else None.

Definition quoted (s : string) : string := (quote ++ s ++ quote)%string.

Definition JSON_stringify (v : json) : string :=
  match v with
  | JStr s => quoted s
  | JObj fields =>
      ("{" ++ String.concat ","
                (map (fun kv => match snd kv with
                                | JStr s => (quoted (fst kv) ++ ":" ++ quoted s)%string
                                | _ => (quoted (fst kv) ++ ":null")%string
                                end) fields)
       ++ "}")%string
  | _ => "null"%string
  end.

(** The two texts, without their character above 255. *)
Definition SAVED : string := "Preferences saved.".
Definition SUMMARY : string := "Your saved preferences are: ".

Definition N8N_CHAT_URL : string := "https://n8n.example/webhook/chat".
Definition searchParams (u : string) : list (string * string) := [].

Definition https_get (count : nat) (u : string) (params : list (string * string))
  : transport * nat :=
  (match count with
   | 0 => Transported (Some 200) " Hello there "
   | 1 => Transported (Some 500) "Internal error"
   | _ => TransportError {| message := "ECONNREFUSED"; description := "Error: ECONNREFUSED" |}
   end, S count).

Definition toString : json -> option string := toString NumberToString ObjectToString.

Definition sanitize : list (string * json) -> option (list (string * string)) :=
  sanitize NumberToString ObjectToString.

Definition gatherPrefsFromQuery : list (string * json) -> option (list (string * string)) :=
  gatherPrefsFromQuery NumberToString ObjectToString JSON_parse.

Definition extractAnswer : json -> string :=
  extractAnswer NumberToString ObjectToString JSON_parse JSON_stringify.

Definition summarizePrefs : list (string * string) -> string := summarizePrefs SUMMARY.

Definition callN8n :=
  callN8n NumberToString ObjectToString JSON_parse JSON_stringify N8N_CHAT_URL
          searchParams nat https_get.

Definition api_chat : list (string * json) -> server nat -> chat_reply * server nat :=
  api_chat NumberToString ObjectToString JSON_parse JSON_stringify SAVED SUMMARY
           N8N_CHAT_URL searchParams nat https_get.

(** A server that has seen [count] requests to the workflow and holds no
    preferences. *)
Definition fresh (count : nat) : server nat :=
  {| PREFS_STORE := []; outside := count; exchanges := [] |}.

(** [?question=Any villas?&sessionId=s1&prefs[community]= Marina ] *)
Definition asks : list (string * json) :=
  [ ("question"%string, JStr "Any villas?"); ("sessionId"%string, JStr "s1");
    ("prefs[community]"%string, JStr " Marina ") ].

(** The exchange that [asks] leads to when the workflow answers with
    status 500. *)
Definition failing : exchange :=
  {| target := N8N_CHAT_URL;
     query :=
       [ ("question", "Any villas?"); ("sessionId", "s1");
         ("prefs_json",
          JSON_stringify (object_of [("community", "Marina"); ("locations", "Marina")]));
         ("community", "Marina"); ("locations", "Marina") ]%string;
     ended := Transported (Some 500) "Internal error" |}.

(** [?question=__GET_PREFS__&sessionId=s1] *)
Definition reads : list (string * json) :=
  [ ("question"%string, JStr "__GET_PREFS__"); ("sessionId"%string, JStr "s1") ].

(** [?question=hello&sessionId=s1&prefs_json=...] *)
Definition sends (text : string) : list (string * json) :=
  [ ("question"%string, JStr "hello"); ("sessionId"%string, JStr "s1");
    ("prefs_json"%string, JStr text) ].

End ChatStub.

(** * Properties of JavaScript numbers *)

Module JSNumFacts.

Local Open Scope Z_scope.

Lemma digits2_pos_bounds (p : positive) :
  2 ^ (Zpos (digits2_pos p) - 1) <= Zpos p < 2 ^ Zpos (digits2_pos p).
Proof.
  induction p as [p IH|p IH|]; simpl digits2_pos.
  - rewrite Pos2Z.inj_succ.
    replace (Z.succ (Zpos (digits2_pos p)) - 1)
      with (Z.succ (Zpos (digits2_pos p) - 1)) by lia.
    rewrite !Z.pow_succ_r by lia. lia.
  - rewrite Pos2Z.inj_succ.
    replace (Z.succ (Zpos (digits2_pos p)) - 1)
      with (Z.succ (Zpos (digits2_pos p) - 1)) by lia.
    rewrite !Z.pow_succ_r by lia. lia.
  - simpl. lia.
Qed.

Lemma valid_finite_inv (s : bool) (m : positive) (e : Z) :
  valid_binary (S754_finite s m e) = true ->
  Zpos (digits2_pos m) <= 53 /\ -1074 <= e <= 971 /\
  (Zpos (digits2_pos m) = 53 \/ e = -1074).
Proof.
  unfold SpecFloat.valid_binary, bounded, canonical_mantissa, fexp, SpecFloat.emin, prec, emax.
  intros H. apply andb_true_iff in H as [H1 H2].
  apply Z.eqb_eq in H1. apply Z.leb_le in H2. lia.
Qed.

Lemma pow2_pos (k : Z) : 0 <= k -> 0 < 2 ^ k.
Proof. intros. apply Z.pow_pos_nonneg; lia. Qed.

Lemma pow2_split (a b : Z) : 0 <= a -> 0 <= b -> 2 ^ (a + b) = 2 ^ a * 2 ^ b.
Proof. intros. apply Z.pow_add_r; lia. Qed.

(** Magnitudes of valid doubles are ordered by exponent first. *)
Lemma magnitude_lt (s1 s2 : bool) (m1 m2 : positive) (e1 e2 : Z) :
  valid_binary (S754_finite s1 m1 e1) = true ->
  valid_binary (S754_finite s2 m2 e2) = true ->
  e1 < e2 ->
  Zpos m1 * 2 ^ (e1 + 1074) < Zpos m2 * 2 ^ (e2 + 1074).
Proof.
  intros V1 V2 Hlt.
  apply valid_finite_inv in V1 as (D1 & E1 & _).
  apply valid_finite_inv in V2 as (D2 & E2 & [D2'|]); [|lia].
  pose proof (digits2_pos_bounds m1) as [_ B1].
  pose proof (digits2_pos_bounds m2) as [B2 _].
  rewrite D2' in B2. change (2 ^ (53 - 1)) with 4503599627370496 in B2.
  assert (Zpos m1 < 9007199254740992).
  { eapply Z.lt_le_trans; [exact B1|].
    change 9007199254740992 with (2 ^ 53). apply Z.pow_le_mono_r; lia. }
  replace (e2 + 1074) with ((e1 + 1074) + (e2 - e1)) by lia.
  rewrite (pow2_split (e1 + 1074) (e2 - e1)) by lia.
  pose proof (pow2_pos (e1 + 1074)) as PA.
  assert (2 <= 2 ^ (e2 - e1)).
  { change 2 with (2 ^ 1) at 1. apply Z.pow_le_mono_r; lia. }
  set (A := 2 ^ (e1 + 1074)) in *. set (B := 2 ^ (e2 - e1)) in *.
  assert (HB : 9007199254740992 <= Zpos m2 * B).
  { change 9007199254740992 with (4503599627370496 * 2).
    apply Z.mul_le_mono_nonneg; lia. }
  replace (Zpos m2 * (A * B)) with (Zpos m2 * B * A) by ring.
  apply Z.lt_le_trans with (9007199254740992 * A).
  - apply Z.mul_lt_mono_pos_r; lia.
  - apply Z.mul_le_mono_nonneg_r; lia.
Qed.

Lemma magnitude_pos (m : positive) (e : Z) :
  -1074 <= e -> 0 < Zpos m * 2 ^ (e + 1074).
Proof. intros. pose proof (pow2_pos (e + 1074)). nia. Qed.

Lemma sf_compare_units (x y : spec_float) :
  valid_binary x = true -> valid_binary y = true ->
  JSNum.sf_finite x = true -> JSNum.sf_finite y = true ->
  SFcompare x y = Some (JSNum.sf_units x ?= JSNum.sf_units y).
Proof.
  intros Vx Vy Fx Fy.
  destruct x as [sx|sx| |sx mx ex], y as [sy|sy| |sy my ey]; try discriminate;
    cbn [SFcompare JSNum.sf_units].
  - reflexivity.
  - pose proof (valid_finite_inv _ _ _ Vy) as (_ & E & _).
    pose proof (magnitude_pos my ey ltac:(lia)).
    destruct sy; cbn [cond_Zopp]; f_equal; symmetry;
      [apply Z.compare_gt_iff | apply Z.compare_lt_iff]; lia.
  - pose proof (valid_finite_inv _ _ _ Vx) as (_ & E & _).
    pose proof (magnitude_pos mx ex ltac:(lia)).
    destruct sx; cbn [cond_Zopp]; f_equal; symmetry;
      [apply Z.compare_lt_iff | apply Z.compare_gt_iff]; lia.
  - pose proof (valid_finite_inv _ _ _ Vx) as (_ & Ex & _).
    pose proof (valid_finite_inv _ _ _ Vy) as (_ & Ey & _).
    pose proof (magnitude_pos mx ex ltac:(lia)).
    pose proof (magnitude_pos my ey ltac:(lia)).
    assert (Hcmp : match ex ?= ey with
                   | Eq => Pos.compare_cont Eq mx my
                   | Lt => Lt
                   | Gt => Gt
                   end = (Zpos mx * 2 ^ (ex + 1074) ?= Zpos my * 2 ^ (ey + 1074))).
    { destruct (Z.compare_spec ex ey) as [->|Hl|Hg].
      - rewrite <- Zmult_compare_compat_r by lia. reflexivity.
      - symmetry. apply Z.compare_lt_iff.
        eapply magnitude_lt; eauto.
      - symmetry. apply Z.compare_gt_iff.
        eapply magnitude_lt; eauto. }
    destruct sx, sy; cbn [cond_Zopp]; f_equal.
    + rewrite Z.compare_opp,
        (Z.compare_antisym (Zpos mx * 2 ^ (ex + 1074)) (Zpos my * 2 ^ (ey + 1074))),
        <- Hcmp.
      destruct (ex ?= ey); reflexivity.
    + symmetry. apply Z.compare_lt_iff. lia.
    + symmetry. apply Z.compare_gt_iff. lia.
    + exact Hcmp.
Qed.

Lemma Prim2SF_infinity : Prim2SF infinity = S754_infinity false.
Proof. reflexivity. Qed.

Lemma Prim2SF_zero : Prim2SF 0%float = S754_zero false.
Proof. reflexivity. Qed.

Lemma isFinite_spec (x : float) : JSNum.isFinite x = JSNum.sf_finite (Prim2SF x).
Proof.
  unfold JSNum.isFinite, is_finite, is_nan, is_infinity.
  rewrite !FloatAxioms.eqb_spec, FloatAxioms.abs_spec, Prim2SF_infinity.
  destruct (Prim2SF x) as [s|s| |s m e]; unfold SFeqb; cbn [SFabs SFcompare JSNum.sf_finite].
  - destruct s; reflexivity.
  - destruct s; reflexivity.
  - reflexivity.
  - destruct s; rewrite Z.compare_refl, Pos.compare_cont_refl; reflexivity.
Qed.

Section Order.
Variables x y : float.
Hypothesis Fx : JSNum.isFinite x = true.
Hypothesis Fy : JSNum.isFinite y = true.

Lemma compare_units : SFcompare (Prim2SF x) (Prim2SF y) = Some (JSNum.units x ?= JSNum.units y).
Proof.
  rewrite isFinite_spec in Fx, Fy.
  apply sf_compare_units; auto using Prim2SF_valid.
Qed.

Lemma leb_units : (x <=? y)%float = (JSNum.units x <=? JSNum.units y).
Proof.
  rewrite FloatAxioms.leb_spec. unfold SFleb, Z.leb. rewrite compare_units.
  destruct (JSNum.units x ?= JSNum.units y); reflexivity.
Qed.

Lemma ltb_units : (x <? y)%float = (JSNum.units x <? JSNum.units y).
Proof.
  rewrite FloatAxioms.ltb_spec. unfold SFltb, Z.ltb. rewrite compare_units.
  destruct (JSNum.units x ?= JSNum.units y); reflexivity.
Qed.
End Order.

(** *** Rounding keeps the sign of a non-zero exact value *)

Lemma shr_m_of_loc (m : Z) (l : location) : shr_m (shr_record_of_loc m l) = m.
Proof. destruct l as [|[]]; reflexivity. Qed.

Lemma shr_1_div2 (r : shr_record) :
  0 <= shr_m r -> shr_m (shr_1 r) = shr_m r / 2.
Proof.
  intros H. rewrite <- Z.div2_div.
  destruct r as [[|[p|p|]|p] b c]; cbn in H; try lia; reflexivity.
Qed.

Lemma iter_shr_1 (q : positive) (r : shr_record) :
  0 <= shr_m r -> shr_m (SpecFloat.iter_pos shr_1 q r) = shr_m r / 2 ^ Zpos q.
Proof.
  revert r. induction q as [q IH|q IH|]; intros r Hr; cbn [SpecFloat.iter_pos].
  - assert (H1 : 0 <= shr_m (shr_1 r)).
    { rewrite shr_1_div2 by exact Hr. apply Z.div_pos; lia. }
    assert (H2 : 0 <= shr_m (SpecFloat.iter_pos shr_1 q (shr_1 r))).
    { rewrite IH by exact H1. apply Z.div_pos; [lia|apply pow2_pos; lia]. }
    rewrite IH by exact H2. rewrite IH by exact H1.
    rewrite shr_1_div2 by exact Hr.
    pose proof (pow2_pos (Zpos q) ltac:(lia)).
    assert (HP : 2 ^ Zpos q~1 = 2 * (2 ^ Zpos q * 2 ^ Zpos q)).
    { replace (Zpos q~1) with (1 + (Zpos q + Zpos q)) by lia.
      rewrite !pow2_split by lia. reflexivity. }
    rewrite HP, !Z.div_div by lia. reflexivity.
  - assert (H1 : 0 <= shr_m (SpecFloat.iter_pos shr_1 q r)).
    { rewrite IH by exact Hr. apply Z.div_pos; [lia|apply pow2_pos; lia]. }
    rewrite IH by exact H1. rewrite IH by exact Hr.
    pose proof (pow2_pos (Zpos q) ltac:(lia)).
    assert (HP : 2 ^ Zpos q~0 = 2 ^ Zpos q * 2 ^ Zpos q).
    { replace (Zpos q~0) with (Zpos q + Zpos q) by lia.
      apply pow2_split; lia. }
    rewrite HP, Z.div_div by lia. reflexivity.
  - rewrite shr_1_div2 by exact Hr. reflexivity.
Qed.

Lemma shr_fexp_pos (m e : Z) (l : location) :
  0 < m -> -1074 <= e ->
  0 < shr_m (fst (shr_fexp prec emax m e l)) /\ -1074 <= snd (shr_fexp prec emax m e l).
Proof.
  intros Hm He. destruct m as [|p|p]; try lia.
  unfold shr_fexp, shr. cbn [Zdigits2].
  pose proof (digits2_pos_bounds p) as [B _].
  destruct (fexp prec emax (Zpos (digits2_pos p) + e) - e) as [|q|q] eqn:Hn;
    cbn [fst snd]; rewrite ?shr_m_of_loc; try (split; lia).
  unfold fexp, SpecFloat.emin, prec, emax in Hn.
  assert (Hq : Zpos (digits2_pos p) - 1 = Zpos q + 52) by lia.
  rewrite Hq, pow2_split in B by lia.
  split; [|lia].
  rewrite iter_shr_1 by (rewrite shr_m_of_loc; lia).
  rewrite shr_m_of_loc.
  apply Z.lt_le_trans with (2 ^ 52); [reflexivity|].
  apply Z.div_le_lower_bound; [apply pow2_pos; lia|exact B].
Qed.

Lemma round_nearest_even_pos (m : Z) (l : location) :
  0 < m -> 0 < round_nearest_even m l.
Proof. intros. destruct l as [|[]]; cbn; try destruct (Z.even m); lia. Qed.

Lemma binary_round_aux_signed (s : bool) (m e : Z) (l : location) :
  0 < m -> -1074 <= e ->
  JSNum.sf_signed s (binary_round_aux prec emax s m e l) = true.
Proof.
  intros Hm He. unfold binary_round_aux.
  pose proof (shr_fexp_pos m e l Hm He) as [P1 E1].
  destruct (shr_fexp prec emax m e l) as [r1 e1]. cbn [fst snd] in P1, E1.
  pose proof (shr_fexp_pos _ e1 loc_Exact
                (round_nearest_even_pos _ (loc_of_shr_record r1) P1) E1) as [P2 _].
  destruct (shr_fexp prec emax _ e1 loc_Exact) as [r2 e2]. cbn [fst] in P2.
  destruct (shr_m r2) as [|p|p]; try lia.
  destruct (e2 <=? emax - prec); cbn; apply eqb_reflx.
Qed.

Lemma iter_xO (m d : positive) : Zpos (Pos.iter xO m d) = Zpos m * 2 ^ Zpos d.
Proof.
  induction d as [|d IH] using Pos.peano_ind.
  - cbn. lia.
  - rewrite Pos.iter_succ, Pos2Z.inj_succ, Z.pow_succ_r by lia.
    replace (Zpos (Pos.iter xO m d)~0) with (2 * Zpos (Pos.iter xO m d)) by lia.
    rewrite IH. ring.
Qed.

Lemma shl_align_units (m : positive) (e ez : Z) :
  -1074 <= ez -> ez <= e ->
  Zpos (fst (shl_align m e ez)) * 2 ^ (ez + 1074) = Zpos m * 2 ^ (e + 1074).
Proof.
  intros Hz He. unfold shl_align.
  destruct (ez - e) as [|d|d] eqn:Hd; cbn [fst].
  - replace e with ez by lia. reflexivity.
  - lia.
  - rewrite iter_xO. replace (e + 1074) with (Zpos d + (ez + 1074)) by lia.
    rewrite (pow2_split (Zpos d) (ez + 1074)) by lia. ring.
Qed.

Lemma binary_round_signed (s : bool) (m : positive) (e : Z) :
  -1074 <= e -> JSNum.sf_signed s (binary_round prec emax s m e) = true.
Proof.
  intros He. unfold binary_round, shl_align.
  destruct (fexp prec emax (Zpos (digits2_pos m) + e) - e) as [|d|d] eqn:Hd.
  - apply binary_round_aux_signed; lia.
  - apply binary_round_aux_signed; lia.
  - apply binary_round_aux_signed; [lia|].
    unfold fexp, SpecFloat.emin, prec, emax in *. lia.
Qed.

Lemma sf_signed_ltb_zero (s : bool) (r : spec_float) :
  JSNum.sf_signed s r = true -> SFltb (S754_zero false) r = negb s.
Proof.
  destruct r as [s'|s'| |s' m e]; cbn; try discriminate;
    intros H; apply eqb_prop in H; subst s'; destruct s; reflexivity.
Qed.

(** The sign of a difference of finite doubles is the sign of the exact
    difference: the subtraction neither cancels to zero nor changes sign. *)
Lemma sf_sub_sign (x y : spec_float) :
  valid_binary x = true -> valid_binary y = true ->
  JSNum.sf_finite x = true -> JSNum.sf_finite y = true ->
  SFltb (S754_zero false) (SF64sub y x) = (JSNum.sf_units x <? JSNum.sf_units y).
Proof.
  intros Vx Vy Fx Fy.
  destruct x as [sx|sx| |sx mx ex], y as [sy|sy| |sy my ey]; try discriminate;
    unfold SF64sub; cbn [SFsub JSNum.sf_units].
  - destruct sx, sy; reflexivity.
  - pose proof (valid_finite_inv _ _ _ Vy) as (_ & E & _).
    pose proof (magnitude_pos my ey ltac:(lia)).
    destruct sy; cbn [cond_Zopp]; [change (false = (0 <? - (Zpos my * 2 ^ (ey + 1074))))
                                  |change (true = (0 <? Zpos my * 2 ^ (ey + 1074)))];
      symmetry; [apply Z.ltb_ge | apply Z.ltb_lt]; lia.
  - pose proof (valid_finite_inv _ _ _ Vx) as (_ & E & _).
    pose proof (magnitude_pos mx ex ltac:(lia)).
    destruct sx; cbn [cond_Zopp negb];
      [change (true = (- (Zpos mx * 2 ^ (ex + 1074)) <? 0))
      |change (false = (Zpos mx * 2 ^ (ex + 1074) <? 0))];
      symmetry; [apply Z.ltb_lt | apply Z.ltb_ge]; lia.
  - pose proof (valid_finite_inv _ _ _ Vx) as (_ & Ex & _).
    pose proof (valid_finite_inv _ _ _ Vy) as (_ & Ey & _).
    set (ez := Z.min ey ex).
    pose proof (shl_align_units my ey ez ltac:(lia) ltac:(lia)) as Ay.
    pose proof (shl_align_units mx ex ez ltac:(lia) ltac:(lia)) as Ax.
    pose proof (pow2_pos (ez + 1074) ltac:(lia)) as Hp.
    set (ny := fst (shl_align my ey ez)) in *.
    set (nx := fst (shl_align mx ex ez)) in *.
    assert (HM : (cond_Zopp sy (Zpos ny) - cond_Zopp sx (Zpos nx)) * 2 ^ (ez + 1074)
                 = cond_Zopp sy (Zpos my * 2 ^ (ey + 1074))
                   - cond_Zopp sx (Zpos mx * 2 ^ (ex + 1074))).
    { rewrite <- Ay, <- Ax. destruct sx, sy; cbn [cond_Zopp]; ring. }
    set (uy := cond_Zopp sy (Zpos my * 2 ^ (ey + 1074))) in *.
    set (ux := cond_Zopp sx (Zpos mx * 2 ^ (ex + 1074))) in *.
    destruct (cond_Zopp sy (Zpos ny) - cond_Zopp sx (Zpos nx)) as [|p|p] eqn:HD;
      cbn [binary_normalize].
    + symmetry. apply Z.ltb_ge. lia.
    + rewrite (sf_signed_ltb_zero false) by (apply binary_round_signed; lia).
      symmetry. apply Z.ltb_lt. nia.
    + rewrite (sf_signed_ltb_zero true) by (apply binary_round_signed; lia).
      symmetry. apply Z.ltb_ge. nia.
Qed.

Lemma sub_sign (x y : float) :
  JSNum.isFinite x = true -> JSNum.isFinite y = true ->
  (0 <? y - x)%float = (JSNum.units x <? JSNum.units y).
Proof.
  intros Fx Fy. rewrite isFinite_spec in Fx, Fy.
  rewrite FloatAxioms.ltb_spec, sub_spec, Prim2SF_zero.
  apply sf_sub_sign; auto using Prim2SF_valid.
Qed.

End JSNumFacts.

(** * Properties of the resolver *)

(** ** Sorting: the first element of the sorted array *)

Section SortFacts.
Context {A : Type}.
Variable compareFn : A -> A -> float.
Variable good : A -> Prop.

Definition sorts_after (a b : A) : bool := (0 <? compareFn a b)%float.

(** The comparator is consistent on the elements that are sorted. *)
Hypothesis after_asym :
  forall a b, good a -> good b -> sorts_after a b = true -> sorts_after b a = false.
Hypothesis after_negtrans :
  forall a b c, good a -> good b -> good c ->
    sorts_after a b = false -> sorts_after b c = false -> sorts_after a c = false.

Lemma sort_insert_In (x y : A) (l : list A) :
  In y (sort_insert compareFn x l) <-> y = x \/ In y l.
Proof.
  induction l as [|z l IH]; cbn [sort_insert].
  - cbn. intuition.
  - destruct (0 <? compareFn x z)%float; cbn [In]; [rewrite IH|]; intuition.
Qed.

Lemma sort_In (y : A) (l : list A) : In y (sort compareFn l) <-> In y l.
Proof.
  induction l as [|x l IH]; cbn [sort]; [reflexivity|].
  rewrite sort_insert_In, IH. cbn. intuition.
Qed.

Lemma sort_insert_Permutation (x : A) (l : list A) :
  Permutation (sort_insert compareFn x l) (x :: l).
Proof.
  induction l as [|y l IH]; cbn [sort_insert]; [reflexivity|].
  destruct (0 <? compareFn x y)%float; [|reflexivity].
  rewrite IH. apply perm_swap.
Qed.

Lemma sort_Permutation (l : list A) : Permutation (sort compareFn l) l.
Proof.
  induction l as [|x l IH]; cbn [sort]; [reflexivity|].
  rewrite sort_insert_Permutation, IH. reflexivity.
Qed.

Lemma after_irrefl (a : A) : good a -> sorts_after a a = false.
Proof.
  intros G. destruct (sorts_after a a) eqn:E; [|reflexivity].
  rewrite <- E. apply after_asym; assumption.
Qed.

Lemma sort_head (l : list A) (h : A) (t : list A) :
  Forall good l -> sort compareFn l = h :: t ->
  forall c, In c l -> sorts_after h c = false.
Proof.
  revert h t. induction l as [|x l IH]; intros h t G E c Hc; [destruct Hc|].
  apply List.Forall_cons_iff in G as [Gx Gl].
  assert (Gc : good c).
  { destruct Hc as [<-|Hc]; [exact Gx|].
    rewrite List.Forall_forall in Gl. auto. }
  cbn [sort] in E. destruct (sort compareFn l) as [|h' t'] eqn:El.
  - cbn in E. injection E as <- <-.
    destruct l as [|z l]; [|exfalso].
    + destruct Hc as [<-|[]]. apply after_irrefl; exact Gx.
    + assert (Hz : In z (sort compareFn (z :: l))) by (apply sort_In; left; reflexivity).
      rewrite El in Hz. destruct Hz.
  - assert (Gh' : good h').
    { rewrite List.Forall_forall in Gl. apply Gl. apply sort_In. rewrite El. left. reflexivity. }
    cbn [sort_insert] in E.
    destruct (0 <? compareFn x h')%float eqn:Ex.
    + injection E as <- <-. destruct Hc as [<-|Hc].
      * apply after_asym; assumption.
      * eapply IH; eauto.
    + injection E as <- <-. destruct Hc as [<-|Hc].
      * apply after_irrefl; exact Gx.
      * apply after_negtrans with h'; auto. eapply IH; eauto.
Qed.

Lemma sort_nonempty (x : A) (l : list A) : sort compareFn (x :: l) <> [].
Proof.
  intros E. assert (H : In x (sort compareFn (x :: l))) by (apply sort_In; left; reflexivity).
  rewrite E in H. destruct H.
Qed.
End SortFacts.

(** ** The comparators are consistent on finite values *)

Definition finite_value (c : cand) : bool := JSNum.isFinite (n c).

Definition per_sqm (c : cand) : bool := includes "per_sqm" (rule c).

(** [best] is not behind [c] in the order of the plausible candidates: a
    [per_sqm] rule goes first, then the larger value. *)
Definition preferred (best c : cand) : Prop :=
  (per_sqm c = true -> per_sqm best = true) /\
  (per_sqm c = per_sqm best -> (n c <=? n best)%float = true).

Lemma by_value_after (a b : cand) :
  finite_value a = true -> finite_value b = true ->
  sorts_after by_value a b = (JSNum.units (n a) <? JSNum.units (n b))%Z.
Proof. intros Fa Fb. apply JSNumFacts.sub_sign; assumption. Qed.

Lemma by_bonus_after (a b : cand) :
  finite_value a = true -> finite_value b = true ->
  sorts_after by_bonus_then_value a b =
  match per_sqm a, per_sqm b with
  | true, false => false
  | false, true => true
  | _, _ => (JSNum.units (n a) <? JSNum.units (n b))%Z
  end.
Proof.
  intros Fa Fb. unfold sorts_after, by_bonus_then_value, per_sqm_bonus, per_sqm.
  destruct (includes "per_sqm" (rule a)), (includes "per_sqm" (rule b)).
  - change (negb (1 =? 1)%float) with false. cbv iota. apply JSNumFacts.sub_sign; assumption.
  - reflexivity.
  - reflexivity.
  - change (negb (0 =? 0)%float) with false. cbv iota. apply JSNumFacts.sub_sign; assumption.
Qed.

Lemma sort_by_value_head (l : list cand) (h : cand) (t : list cand) :
  Forall (fun c => finite_value c = true) l ->
  sort by_value l = h :: t ->
  forall c, In c l -> (n c <=? n h)%float = true.
Proof.
  intros G E c Hc.
  assert (Gc : finite_value c = true) by (rewrite List.Forall_forall in G; auto).
  assert (Gh : finite_value h = true).
  { rewrite List.Forall_forall in G. apply G.
    apply (sort_In by_value). rewrite E. left. reflexivity. }
  pose proof (sort_head by_value (fun c => finite_value c = true)) as H.
  specialize (H ltac:(intros a b Fa Fb; rewrite !by_value_after by assumption; lia)).
  specialize (H ltac:(intros a b d Fa Fb Fd; rewrite !by_value_after by assumption; lia)).
  specialize (H l h t G E c Hc).
  rewrite by_value_after in H by assumption.
  rewrite JSNumFacts.leb_units by assumption. lia.
Qed.

Lemma sort_by_bonus_head (l : list cand) (h : cand) (t : list cand) :
  Forall (fun c => finite_value c = true) l ->
  sort by_bonus_then_value l = h :: t ->
  forall c, In c l -> preferred h c.
Proof.
  intros G E c Hc.
  assert (Gc : finite_value c = true) by (rewrite List.Forall_forall in G; auto).
  assert (Gh : finite_value h = true).
  { rewrite List.Forall_forall in G. apply G.
    apply (sort_In by_bonus_then_value). rewrite E. left. reflexivity. }
  pose proof (sort_head by_bonus_then_value (fun c => finite_value c = true)) as H.
  specialize (H ltac:(intros a b Fa Fb; rewrite !by_bonus_after by assumption;
                      destruct (per_sqm a), (per_sqm b); try discriminate; lia)).
  specialize (H ltac:(intros a b d Fa Fb Fd; rewrite !by_bonus_after by assumption;
                      destruct (per_sqm a), (per_sqm b), (per_sqm d);
                      try discriminate; try reflexivity; lia)).
  specialize (H l h t G E c Hc).
  rewrite by_bonus_after in H by assumption.
  unfold preferred. rewrite JSNumFacts.leb_units by assumption.
  destruct (per_sqm h), (per_sqm c); try discriminate; split; intros; try discriminate;
    try reflexivity; lia.
Qed.

(** A value in the plausible range is a finite number. *)
Lemma in_range_finite (c : cand) : in_range c = true -> finite_value c = true.
Proof.
  unfold in_range, finite_value. rewrite !FloatAxioms.leb_spec, JSNumFacts.isFinite_spec.
  change (Prim2SF PL_MIN) with (S754_finite false 6871947673600000 (-37)).
  change (Prim2SF PL_MAX) with (S754_finite false 8388608000000000 (-22)).
  destruct (Prim2SF (n c)) as [s|[|]| |s m e];
    try (intros _; reflexivity); cbn; intros H; discriminate.
Qed.

Lemma filter_filter_weaker {A : Type} (p q : A -> bool) (l : list A) :
  (forall x, p x = true -> q x = true) ->
  List.filter p (List.filter q l) = List.filter p l.
Proof.
  intros Hpq. induction l as [|x l IH]; cbn; [reflexivity|].
  destruct (q x) eqn:Hq; cbn; rewrite IH; [reflexivity|].
  destruct (p x) eqn:Hp; [|reflexivity].
  apply Hpq in Hp. congruence.
Qed.

(** ** What the resolver returns *)

Section ResolverFacts.
Variable Math_exp : float -> float.
Variable Math_pow : float -> float -> float.
Variable StringToNumber : string -> float.
Variable ObjectToNumber : json -> float.

Local Abbreviation candidates_of :=
  (candidates Math_exp Math_pow StringToNumber ObjectToNumber).
Local Abbreviation generated_by :=
  (generated Math_exp Math_pow StringToNumber ObjectToNumber).
Local Abbreviation choose :=
  (choosePlausibleTotal Math_exp Math_pow StringToNumber ObjectToNumber).

(** [push] drops the non-finite values: [cands] holds the generated
    candidates with a finite value, in the order of generation. *)
Lemma candidates_generated (rawNumber : float) (features : json) :
  candidates_of rawNumber features
  = List.filter finite_value (generated_by rawNumber features).
Proof.
  unfold candidates, generated, push, finite_value.
  destruct (0 <? area_of StringToNumber ObjectToNumber features)%float;
    cbn [List.filter app n];
    repeat match goal with
           | |- context [JSNum.isFinite ?v] => destruct (JSNum.isFinite v)
           end; reflexivity.
Qed.

Lemma plausible_generated (rawNumber : float) (features : json) :
  List.filter in_range (candidates_of rawNumber features)
  = List.filter in_range (generated_by rawNumber features).
Proof.
  rewrite candidates_generated. apply filter_filter_weaker, in_range_finite.
Qed.

Lemma candidates_finite (rawNumber : float) (features : json) :
  Forall (fun c => finite_value c = true) (candidates_of rawNumber features).
Proof.
  rewrite candidates_generated. apply List.Forall_forall.
  intros c Hc. apply filter_In in Hc. tauto.
Qed.

Lemma candidates_raw (rawNumber : float) (features : json) :
  JSNum.isFinite rawNumber = true ->
  exists rest, candidates_of rawNumber features
               = {| n := rawNumber; rule := "raw" |} :: rest.
Proof.
  intros F. rewrite candidates_generated. unfold generated.
  cbn [app List.filter]. unfold finite_value at 1. cbn [n]. rewrite F. eauto.
Qed.

(** The two branches of [choosePlausibleTotal]. *)
Lemma choose_plausible (rawNumber : float) (features : json) :
  List.filter in_range (generated_by rawNumber features) <> [] ->
  In (choose rawNumber features) (List.filter in_range (generated_by rawNumber features)) /\
  forall c, In c (List.filter in_range (generated_by rawNumber features)) ->
            preferred (choose rawNumber features) c.
Proof.
  intros NE. unfold choosePlausibleTotal. rewrite plausible_generated.
  set (P := List.filter in_range (generated_by rawNumber features)) in *.
  destruct P as [|p ps] eqn:EP; [congruence|]. rewrite <- EP.
  assert (G : Forall (fun c => finite_value c = true) P).
  { apply List.Forall_forall. intros c Hc. apply in_range_finite.
    unfold P in Hc. apply filter_In in Hc. tauto. }
  destruct (sort by_bonus_then_value P) as [|h t] eqn:ES.
  - rewrite EP in ES. destruct (sort_nonempty _ _ _ ES).
  - cbn [hd]. split.
    + apply (sort_In by_bonus_then_value). rewrite ES. left. reflexivity.
    + intros c Hc. eapply sort_by_bonus_head; eauto.
Qed.

Lemma choose_fallback (rawNumber : float) (features : json) :
  JSNum.isFinite rawNumber = true ->
  List.filter in_range (generated_by rawNumber features) = [] ->
  In (choose rawNumber features) (candidates_of rawNumber features) /\
  forall c, In c (candidates_of rawNumber features) ->
            (n c <=? n (choose rawNumber features))%float = true.
Proof.
  intros F E. unfold choosePlausibleTotal. rewrite plausible_generated, E.
  destruct (candidates_raw rawNumber features F) as [rest ER].
  destruct (sort by_value (candidates_of rawNumber features)) as [|h t] eqn:ES.
  - rewrite ER in ES. destruct (sort_nonempty _ _ _ ES).
  - split.
    + apply (sort_In by_value). rewrite ES. left. reflexivity.
    + intros c Hc. eapply sort_by_value_head; eauto using candidates_finite.
Qed.

Lemma choose_finite (rawNumber : float) (features : json) :
  JSNum.isFinite rawNumber = true ->
  finite_value (choose rawNumber features) = true.
Proof.
  intros F.
  destruct (List.filter in_range (generated_by rawNumber features)) as [|p ps] eqn:EP.
  - destruct (choose_fallback rawNumber features F EP) as [H _].
    pose proof (candidates_finite rawNumber features) as G.
    rewrite List.Forall_forall in G. auto.
  - destruct (choose_plausible rawNumber features) as [H _]; [congruence|].
    apply in_range_finite. apply filter_In in H. tauto.
Qed.

(** C1 (amended): the plausible candidates are exactly the generated ones
    with a value in [[PL_MIN, PL_MAX]]; when there are some, the resolver
    returns one of them, a [per_sqm] rule before any other and the largest
    value among equally preferred ones; when there is none, it returns a
    generated candidate whose value is finite, and no generated candidate
    with a finite value has a larger one. *)
Theorem choosePlausibleTotal_selects (rawNumber : float) (features : json) :
  JSNum.isFinite rawNumber = true ->
  let plausible := List.filter in_range (generated_by rawNumber features) in
  let chosen := choose rawNumber features in
  List.filter in_range (candidates_of rawNumber features) = plausible /\
  (plausible <> [] ->
     In chosen plausible /\ forall c, In c plausible -> preferred chosen c) /\
  (plausible = [] ->
     In chosen (generated_by rawNumber features) /\
     JSNum.isFinite (n chosen) = true /\
     forall c, In c (generated_by rawNumber features) ->
               JSNum.isFinite (n c) = true -> (n c <=? n chosen)%float = true).
Proof.
  intros F plausible chosen. split; [apply plausible_generated|]. split.
  - apply choose_plausible.
  - intros E. destruct (choose_fallback rawNumber features F E) as [H1 H2].
    rewrite candidates_generated in H1, H2. split; [|split].
    + apply filter_In in H1. tauto.
    + apply (choose_finite rawNumber features F).
    + intros c Hc Fc. apply H2. apply filter_In. tauto.
Qed.

(** C9: for a finite raw number the array [cands] holds only the generated
    candidates with a finite value, so the returned value is finite, and
    the fallback returns the largest of the finite-valued candidates. *)
Theorem choosePlausibleTotal_finite_only (rawNumber : float) (features : json) :
  JSNum.isFinite rawNumber = true ->
  let chosen := choose rawNumber features in
  candidates_of rawNumber features
    = List.filter finite_value (generated_by rawNumber features) /\
  JSNum.isFinite (n chosen) = true /\
  In chosen (candidates_of rawNumber features) /\
  (List.filter in_range (candidates_of rawNumber features) = [] ->
     forall c, In c (generated_by rawNumber features) ->
               finite_value c = true -> (n c <=? n chosen)%float = true).
Proof.
  intros F chosen. split; [apply candidates_generated|].
  split; [apply (choose_finite rawNumber features F)|]. split.
  - destruct (List.filter in_range (generated_by rawNumber features)) as [|p ps] eqn:EP.
    + apply (choose_fallback rawNumber features F EP).
    + destruct (choose_plausible rawNumber features) as [H _]; [congruence|].
      rewrite <- plausible_generated in H. apply filter_In in H. tauto.
  - rewrite plausible_generated. intros E c Hc Fc.
    destruct (choose_fallback rawNumber features F E) as [_ H2].
    apply H2. rewrite candidates_generated. apply filter_In. tauto.
Qed.
End ResolverFacts.

(** ** The two worked examples of the specification *)

Lemma mul_not_finite (x y : float) :
  JSNum.isFinite x = false -> JSNum.isFinite (x * y)%float = false.
Proof.
  rewrite (JSNumFacts.isFinite_spec x), (JSNumFacts.isFinite_spec (x * y)), mul_spec.
  unfold SF64mul.
  destruct (Prim2SF x) as [s|s| |s m e], (Prim2SF y) as [s'|s'| |s' m' e'];
    cbn [SpecFloat.SFmul JSNum.sf_finite]; intros H; try discriminate; reflexivity.
Qed.

Lemma not_finite_not_in_range (c : cand) : finite_value c = false -> in_range c = false.
Proof.
  intros H. destruct (in_range c) eqn:E; [|reflexivity].
  apply in_range_finite in E. congruence.
Qed.

Section Examples.
Variable Math_exp : float -> float.
Variable Math_pow : float -> float -> float.
Variable StringToNumber : string -> float.
Variable ObjectToNumber : json -> float.

Local Abbreviation generated_by :=
  (generated Math_exp Math_pow StringToNumber ObjectToNumber).
Local Abbreviation choose :=
  (choosePlausibleTotal Math_exp Math_pow StringToNumber ObjectToNumber).

(** C6: on an engine where [e^800] and [10^800] overflow, raw number 800
    with [procedure_area] 1200 resolves to rule [per_sqm], value 960000. *)
Theorem choosePlausibleTotal_800_1200 :
  JSNum.isFinite (Math_exp 800) = false ->
  JSNum.isFinite (Math_pow 10 800) = false ->
  choose 800%float area_1200 = {| n := 960000; rule := "per_sqm" |}.
Proof.
  intros He Hp.
  assert (HP : In {| n := 960000; rule := "per_sqm" |}
                  (List.filter in_range (generated_by 800%float area_1200))).
  { apply filter_In. split; [|reflexivity]. right. left. reflexivity. }
  destruct (choose_plausible Math_exp Math_pow StringToNumber ObjectToNumber
              800%float area_1200) as [Hin Hpref].
  { intros E. rewrite E in HP. destruct HP. }
  destruct (Hpref _ HP) as [Hsqm _]. specialize (Hsqm eq_refl).
  apply filter_In in Hin as [Hin Hr].
  cbn in Hin.
  destruct Hin as [E|[E|[E|[E|[E|[E|[E|[]]]]]]]]; rewrite <- E in Hr, Hsqm |- *;
    try discriminate Hsqm; try reflexivity.
  - rewrite not_finite_not_in_range in Hr; [discriminate|].
    apply mul_not_finite, He.
  - rewrite not_finite_not_in_range in Hr; [discriminate|].
    apply mul_not_finite, Hp.
Qed.

(** C5 (amended): raw number 12.5 with [procedure_area] 1000. On an engine
    where [e^12.5 * 1000] (about 268,337,286) is in the plausible range and
    [10^12.5 * 1000] is not, the resolver does not fall back: it returns
    the [exp_per_sqm] candidate, which is plausible. *)
Theorem choosePlausibleTotal_12_5_1000 :
  let exp_per_sqm := {| n := (Math_exp 12.5 * 1000)%float; rule := "exp_per_sqm" |} in
  let pow10_per_sqm := {| n := (Math_pow 10 12.5 * 1000)%float; rule := "pow10_per_sqm" |} in
  in_range exp_per_sqm = true ->
  in_range pow10_per_sqm = false ->
  In exp_per_sqm (List.filter in_range (generated_by 12.5%float area_1000)) /\
  choose 12.5%float area_1000 = exp_per_sqm.
Proof.
  intros e p He Hp.
  assert (HP : In e (List.filter in_range (generated_by 12.5%float area_1000))).
  { apply filter_In. split; [|exact He]. right. right. left. reflexivity. }
  split; [exact HP|].
  destruct (choose_plausible Math_exp Math_pow StringToNumber ObjectToNumber
              12.5%float area_1000) as [Hin Hpref].
  { intros E. rewrite E in HP. destruct HP. }
  destruct (Hpref _ HP) as [Hsqm _]. specialize (Hsqm eq_refl).
  apply filter_In in Hin as [Hin Hr].
  cbn in Hin.
  destruct Hin as [E|[E|[E|[E|[E|[E|[E|[]]]]]]]]; rewrite <- E in Hr, Hsqm |- *;
    try discriminate Hsqm; try discriminate Hr; try reflexivity.
  fold p in Hr. congruence.
Qed.
End Examples.

(** ** The resolver on the reference engine *)

Lemma choosePlausibleTotal_selects_witness :
  JSNum.isFinite 1e10 = true /\
  List.filter in_range (ref_generated 1e10%float (JObj [])) = [] /\
  let plausible := List.filter in_range (ref_generated 1e10%float (JObj [])) in
  let chosen := ref_choosePlausibleTotal 1e10%float (JObj []) in
  List.filter in_range (ref_candidates 1e10%float (JObj [])) = plausible /\
  (plausible <> [] ->
     In chosen plausible /\ forall c, In c plausible -> preferred chosen c) /\
  (plausible = [] ->
     In chosen (ref_generated 1e10%float (JObj [])) /\
     JSNum.isFinite (n chosen) = true /\
     forall c, In c (ref_generated 1e10%float (JObj [])) ->
               JSNum.isFinite (n c) = true -> (n c <=? n chosen)%float = true).
Proof.
  split; [reflexivity|]. split; [vm_compute; reflexivity|].
  exact (choosePlausibleTotal_selects
           Reference.Math_exp Reference.Math_pow
           Reference.StringToNumber Reference.ObjectToNumber
           1e10%float (JObj []) eq_refl).
Defined.

(** C1 as stated fails in its last clause: for raw number [10^10] and no
    area nothing is plausible, the generated [exp] candidate is [+Infinity],
    and the resolver returns [x1000], which is smaller. *)
Lemma choosePlausibleTotal_largest_counterexample :
  JSNum.isFinite 1e10 = true /\
  List.filter in_range (ref_generated 1e10%float (JObj [])) = [] /\
  exists c, In c (ref_generated 1e10%float (JObj [])) /\
            (n c <=? n (ref_choosePlausibleTotal 1e10%float (JObj [])))%float = false.
Proof.
  split; [reflexivity|]. split; [vm_compute; reflexivity|].
  exists {| n := infinity; rule := "exp" |}. split.
  - right. left. vm_compute. reflexivity.
  - vm_compute. reflexivity.
Qed.

Lemma choosePlausibleTotal_finite_only_witness :
  JSNum.isFinite 1e10 = true /\
  let chosen := ref_choosePlausibleTotal 1e10%float (JObj []) in
  ref_candidates 1e10%float (JObj [])
    = List.filter finite_value (ref_generated 1e10%float (JObj [])) /\
  JSNum.isFinite (n chosen) = true /\
  In chosen (ref_candidates 1e10%float (JObj [])) /\
  (List.filter in_range (ref_candidates 1e10%float (JObj [])) = [] ->
     forall c, In c (ref_generated 1e10%float (JObj [])) ->
               finite_value c = true -> (n c <=? n chosen)%float = true).
Proof.
  split; [reflexivity|].
  exact (choosePlausibleTotal_finite_only
           Reference.Math_exp Reference.Math_pow
           Reference.StringToNumber Reference.ObjectToNumber
           1e10%float (JObj []) eq_refl).
Defined.

Lemma choosePlausibleTotal_800_1200_witness :
  JSNum.isFinite (Reference.Math_exp 800) = false /\
  JSNum.isFinite (Reference.Math_pow 10 800) = false /\
  ref_choosePlausibleTotal 800%float area_1200 = {| n := 960000; rule := "per_sqm" |}.
Proof.
  split; [reflexivity|]. split; [reflexivity|].
  exact (choosePlausibleTotal_800_1200
           Reference.Math_exp Reference.Math_pow
           Reference.StringToNumber Reference.ObjectToNumber eq_refl eq_refl).
Defined.

(** C5 as stated fails: for raw number 12.5 and area 1000 two generated
    candidates are plausible, [exp_per_sqm] and [exp]; the resolver returns
    [exp_per_sqm], which is not the largest generated candidate. *)
Lemma choosePlausibleTotal_12_5_counterexample :
  map rule (List.filter in_range (ref_generated 12.5%float area_1000))
    = ["exp_per_sqm"; "exp"]%string /\
  rule (ref_choosePlausibleTotal 12.5%float area_1000) = "exp_per_sqm"%string /\
  exists c, In c (ref_generated 12.5%float area_1000) /\
            (n c <=? n (ref_choosePlausibleTotal 12.5%float area_1000))%float = false.
Proof.
  split; [vm_compute; reflexivity|]. split; [vm_compute; reflexivity|].
  exists {| n := (Reference.Math_pow 10 12.5 * 1000)%float; rule := "pow10_per_sqm" |}.
  split.
  - right. right. right. left. reflexivity.
  - vm_compute. reflexivity.
Qed.

Lemma choosePlausibleTotal_12_5_1000_witness :
  let exp_per_sqm :=
    {| n := (Reference.Math_exp 12.5 * 1000)%float; rule := "exp_per_sqm" |} in
  let pow10_per_sqm :=
    {| n := (Reference.Math_pow 10 12.5 * 1000)%float; rule := "pow10_per_sqm" |} in
  in_range exp_per_sqm = true /\
  in_range pow10_per_sqm = false /\
  In exp_per_sqm (List.filter in_range (ref_generated 12.5%float area_1000)) /\
  ref_choosePlausibleTotal 12.5%float area_1000 = exp_per_sqm.
Proof.
  cbv zeta.
  split; [vm_compute; reflexivity|]. split; [vm_compute; reflexivity|].
  exact (choosePlausibleTotal_12_5_1000
           Reference.Math_exp Reference.Math_pow
           Reference.StringToNumber Reference.ObjectToNumber
           ltac:(vm_compute; reflexivity) ltac:(vm_compute; reflexivity)).
Defined.

(** * Properties of the numeric extractor *)

(** The numeric values as the specification words them: a finite number,
    or a string that is a plain decimal once commas and whitespace are
    stripped. *)
Definition whitespace (c : ascii) : bool :=
  let k := nat_of_ascii c in
  Nat.eqb k 32 || ((9 <=? k)%nat && (k <=? 13)%nat).

Fixpoint strip_commas_and_whitespace (s : string) : string :=
  match s with
  | EmptyString => EmptyString
  | String c s' =>
      if Ascii.eqb c "," || whitespace c then strip_commas_and_whitespace s'
      else String c (strip_commas_and_whitespace s')
  end.

Definition numeric_as_specified (v : value) : bool :=
  match v with
  | VNum x => JSNum.isFinite x
  | VStr s => matches false decimal_pattern (strip_commas_and_whitespace s)
  | _ => false
  end.

(** The references among the values of an object, in entry order. *)
Fixpoint refs (entries : object) : list value :=
  match entries with
  | [] => []
  | (_, VRef l) :: rest => VRef l :: refs rest
  | _ :: rest => refs rest
  end.

(** The objects a document holds: its root and, from an object, the
    objects among its entry values. *)
Inductive reachable (h : gmap loc object) (root : value) : loc -> Prop :=
| reachable_root (l : loc) : root = VRef l -> reachable h root l
| reachable_entry (l m : loc) (k : string) :
    reachable h root l -> In (k, VRef m) (h !!! l) -> reachable h root m.

Section ExtractorFacts.
Variable StringToNumber : string -> float.

Local Abbreviation numeric_of := (numeric StringToNumber).
Local Abbreviation scan_of := (scan StringToNumber).
Local Abbreviation loop_of := (loop StringToNumber).

(** An entry with a hit key and a numeric value [x]. *)
Definition hit_in (entries : object) (x : float) : Prop :=
  exists k v, In (k, v) entries /\ keyHit k = true /\ numeric_of v = Some x.

(** Some object of the document has a numeric value [x] under a hit key. *)
Definition hit_value (doc : document) (x : float) : Prop :=
  exists l, reachable (doc_heap doc) (doc_root doc) l /\
            hit_in (doc_heap doc !!! l) x.

Lemma hit_in_cons (k : string) (v : value) (rest : object) (x : float) :
  hit_in ((k, v) :: rest) x <->
  (keyHit k = true /\ numeric_of v = Some x) \/ hit_in rest x.
Proof.
  unfold hit_in. split.
  - intros (k' & v' & [E|H] & Hk & Hv).
    + injection E as <- <-. left. auto.
    + right. eauto.
  - intros [[Hk Hv]|(k' & v' & H & Hk & Hv)].
    + exists k, v. cbn. auto.
    + exists k', v'. cbn. auto.
Qed.

Lemma scan_Hit (entries : object) (stack : list value) (best : option float) (x : float) :
  scan_of entries stack best = Hit x -> hit_in entries x.
Proof.
  revert stack best. induction entries as [|[k v] rest IH]; intros stack best; cbn [scan].
  - discriminate.
  - rewrite hit_in_cons.
    destruct v as [| |b|y|s|l]; cbn [numeric];
      try (intros H; right; eapply IH; exact H).
    + destruct (JSNum.isFinite y); [destruct (keyHit k)|].
      * intros [= ->]. left. auto.
      * intros H. right. eapply IH; exact H.
      * intros H. right. eapply IH; exact H.
    + destruct (matches false decimal_pattern (strip_separators s));
        [destruct (JSNum.isFinite (StringToNumber (strip_separators s)));
         [destruct (keyHit k)|]|].
      * intros [= ->]. left. auto.
      * intros H. right. eapply IH; exact H.
      * intros H. right. eapply IH; exact H.
      * intros H. right. eapply IH; exact H.
Qed.

Lemma scan_Scanned (entries : object) (stack : list value) (best : option float)
  (stack' : list value) (best' : option float) :
  scan_of entries stack best = Scanned stack' best' ->
  stack' = rev (refs entries) ++ stack /\ forall x, ~ hit_in entries x.
Proof.
  revert stack best. induction entries as [|[k v] rest IH]; intros stack best; cbn [scan].
  - intros [= <- <-]. split; [reflexivity|]. intros x (k & v & [] & _).
  - setoid_rewrite hit_in_cons.
    destruct v as [| |b|y|s|l]; cbn [numeric refs].
    + intros H. apply IH in H as [-> H]. split; [reflexivity|].
      intros x [[_ ?]|?]; [discriminate|]. eapply H; eauto.
    + intros H. apply IH in H as [-> H]. split; [reflexivity|].
      intros x [[_ ?]|?]; [discriminate|]. eapply H; eauto.
    + intros H. apply IH in H as [-> H]. split; [reflexivity|].
      intros x [[_ ?]|?]; [discriminate|]. eapply H; eauto.
    + destruct (JSNum.isFinite y); [destruct (keyHit k); [discriminate|]|];
        intros H; apply IH in H as [-> H]; (split; [reflexivity|]);
        intros x [[? ?]|?]; try discriminate; eapply H; eauto.
    + destruct (matches false decimal_pattern (strip_separators s));
        [destruct (JSNum.isFinite (StringToNumber (strip_separators s)));
         [destruct (keyHit k); [discriminate|]|]|];
        intros H; apply IH in H as [-> H]; (split; [reflexivity|]);
        intros x [[? ?]|?]; try discriminate; eapply H; eauto.
    + intros H. apply IH in H as [-> H]. split.
      * cbn [rev]. rewrite <- app_assoc. reflexivity.
      * intros x [[_ ?]|?]; [discriminate|]. eapply H; eauto.
Qed.

Lemma refs_length (entries : object) : length (refs entries) <= length entries.
Proof.
  induction entries as [|[k v] rest IH]; cbn [refs length]; [lia|].
  destruct v; cbn [length]; lia.
Qed.

Lemma refs_In (entries : object) (v : value) :
  In v (refs entries) <-> exists l k, v = VRef l /\ In (k, VRef l) entries.
Proof.
  induction entries as [|[k w] rest IH]; cbn [refs].
  - split; [intros []|intros (l & k & _ & [])].
  - assert (Hskip : (forall m, w <> VRef m) ->
                    (In v (refs rest) <->
                     exists l k', v = VRef l /\ In (k', VRef l) ((k, w) :: rest))).
    { intros Hw. rewrite IH. split.
      - intros (l & k' & -> & H). exists l, k'. cbn. auto.
      - intros (l & k' & -> & [H|H]); [|eauto].
        injection H as -> ->. destruct (Hw l eq_refl). }
    destruct w as [| |b|y|s|m]; try (apply Hskip; discriminate).
    cbn [In]. rewrite IH. split.
    + intros [<-|(l & k' & -> & H)]; [exists m, k; auto|exists l, k'; auto].
    + intros (l & k' & -> & [H|H]); [injection H as -> ->; left; reflexivity|].
      right. exists l, k'. auto.
Qed.

(** *** Termination *)

Lemma entries_count_delete (m : gmap loc object) (l : loc) (o : object) :
  m !! l = Some o -> entries_count m = length o + entries_count (delete l m).
Proof.
  intros H. unfold entries_count.
  apply (map_fold_delete_L (fun _ o acc => length o + acc)); [intros; lia|exact H].
Qed.

(** [rest] is the part of the heap that is not visited yet. *)
Definition unvisited (h : gmap loc object) (visited : gset loc)
  (rest : gmap loc object) : Prop :=
  forall l, rest !! l = if decide (l ∈ visited) then None else h !! l.

Lemma unvisited_visit (h : gmap loc object) (visited : gset loc)
  (rest : gmap loc object) (l : loc) :
  unvisited h visited rest -> l ∉ visited ->
  unvisited h ({[l]} ∪ visited) (delete l rest) /\
  entries_count rest = length (h !!! l) + entries_count (delete l rest).
Proof.
  intros R Hl. split.
  - intros m. rewrite lookup_delete. destruct (decide (l = m)) as [->|Hne].
    + rewrite decide_True by set_solver. reflexivity.
    + rewrite R. destruct (decide (m ∈ visited)).
      * rewrite decide_True by (apply elem_of_union_r; assumption). reflexivity.
      * rewrite decide_False; [reflexivity|].
        rewrite elem_of_union, elem_of_singleton. intuition congruence.
  - specialize (R l). rewrite decide_False in R by exact Hl.
    destruct (h !! l) as [o|] eqn:E.
    + rewrite (lookup_total_correct _ _ _ E). apply entries_count_delete. exact R.
    + rewrite lookup_total_alt, E. cbn. rewrite delete_id by exact R. reflexivity.
Qed.

Lemma loop_terminates (h : gmap loc object) (fuel : nat) :
  forall visited stack best scanned rest,
    unvisited h visited rest ->
    length stack + entries_count rest < fuel ->
    exists r t, loop_of fuel h visited stack best scanned = Return r t.
Proof.
  induction fuel as [|fuel IH]; intros visited stack best scanned rest R Hf; [lia|].
  destruct stack as [|cur stack]; cbn [loop]; [eauto|]. cbn [length] in Hf.
  destruct cur as [| | | | |l]; try (eapply IH; [exact R|lia]).
  destruct (decide (l ∈ visited)) as [Hl|Hl]; [eapply IH; [exact R|lia]|].
  destruct (unvisited_visit h visited rest l R Hl) as [R' E].
  destruct (scan_of (h !!! l) stack best) as [x|stack' best'] eqn:Es; [eauto|].
  apply scan_Scanned in Es as [-> _].
  eapply IH; [exact R'|].
  rewrite length_app, length_rev. pose proof (refs_length (h !!! l)). lia.
Qed.

Lemma loop_more_fuel (h : gmap loc object) (fuel : nat) :
  forall fuel' visited stack best scanned r t,
    loop_of fuel h visited stack best scanned = Return r t ->
    fuel <= fuel' ->
    loop_of fuel' h visited stack best scanned = Return r t.
Proof.
  induction fuel as [|fuel IH]; intros fuel' visited stack best scanned r t H Hle;
    destruct stack as [|cur stack]; cbn [loop] in H;
    try discriminate; try (destruct fuel'; exact H).
  destruct fuel' as [|fuel']; [lia|]. cbn [loop].
  destruct cur as [| | | | |l]; try (apply IH; [exact H|lia]).
  destruct (decide (l ∈ visited)); [apply IH; [exact H|lia]|].
  destruct (scan_of (h !!! l) stack best); [exact H|].
  apply IH; [exact H|lia].
Qed.

(** *** Every object is scanned at most once *)

Lemma loop_scanned_once (h : gmap loc object) (fuel : nat) :
  forall visited stack best scanned r t,
    loop_of fuel h visited stack best scanned = Return r t ->
    List.NoDup scanned -> (forall l, In l scanned -> l ∈ visited) ->
    List.NoDup t.
Proof.
  induction fuel as [|fuel IH]; intros visited stack best scanned r t H ND Hv;
    destruct stack as [|cur stack]; cbn [loop] in H; try discriminate;
    try (injection H as <- <-; exact ND).
  destruct cur as [| | | | |l]; try (eapply IH; eauto; fail).
  destruct (decide (l ∈ visited)) as [Hl|Hl]; [eapply IH; eauto|].
  assert (ND' : List.NoDup (l :: scanned)).
  { constructor; [|exact ND]. intros Hin. apply Hl, Hv, Hin. }
  destruct (scan_of (h !!! l) stack best); [injection H as <- <-; exact ND'|].
  eapply IH; [exact H|exact ND'|].
  intros m [<-|Hm]; [set_solver|]. apply Hv in Hm. set_solver.
Qed.

(** *** The search is exhaustive *)

Lemma loop_sound (h : gmap loc object) (root : value) (fuel : nat) :
  forall visited stack best scanned r t,
    loop_of fuel h visited stack best scanned = Return r t ->
    (forall l, In (VRef l) stack -> reachable h root l) ->
    (forall l, l ∈ visited -> forall x, ~ hit_in (h !!! l) x) ->
    (forall l m k, l ∈ visited -> In (k, VRef m) (h !!! l) ->
                   m ∈ visited \/ In (VRef m) stack) ->
    (exists x l, r = Some x /\ reachable h root l /\ hit_in (h !!! l) x) \/
    (exists visited' : gset loc,
        (forall l, l ∈ visited -> l ∈ visited') /\
        (forall l, In (VRef l) stack -> l ∈ visited') /\
        (forall l, l ∈ visited' -> forall x, ~ hit_in (h !!! l) x) /\
        (forall l m k, l ∈ visited' -> In (k, VRef m) (h !!! l) -> m ∈ visited')).
Proof.
  induction fuel as [|fuel IH]; intros visited stack best scanned r t H Hreach Hclean Hclosed;
    destruct stack as [|cur stack]; cbn [loop] in H; try discriminate.
  - right. exists visited. split; [auto|]. split; [intros l []|]. split; [exact Hclean|].
    intros l m k Hl Hk. destruct (Hclosed l m k Hl Hk) as [?|[]]. assumption.
  - right. exists visited. split; [auto|]. split; [intros l []|]. split; [exact Hclean|].
    intros l m k Hl Hk. destruct (Hclosed l m k Hl Hk) as [?|[]]. assumption.
  - assert (Hskip : (forall l, cur <> VRef l \/ l ∈ visited) ->
              loop_of fuel h visited stack best scanned = Return r t ->
              (exists x l, r = Some x /\ reachable h root l /\ hit_in (h !!! l) x) \/
              (exists visited' : gset loc,
                  (forall l, l ∈ visited -> l ∈ visited') /\
                  (forall l, In (VRef l) (cur :: stack) -> l ∈ visited') /\
                  (forall l, l ∈ visited' -> forall x, ~ hit_in (h !!! l) x) /\
                  (forall l m k, l ∈ visited' -> In (k, VRef m) (h !!! l) -> m ∈ visited'))).
    { intros Hcur H'.
      destruct (IH visited stack best scanned r t H') as [?|(V & HV1 & HV2 & HV3 & HV4)].
      - intros l Hl. apply Hreach. right. exact Hl.
      - exact Hclean.
      - intros l m k Hl Hk. destruct (Hclosed l m k Hl Hk) as [?|[E|?]]; auto.
        destruct (Hcur m) as [Hne|?]; [destruct (Hne E)|auto].
      - left. assumption.
      - right. exists V. split; [exact HV1|]. split; [|split; assumption].
        intros l [E|Hl]; [|auto].
        destruct (Hcur l) as [Hne|?]; [destruct (Hne E)|auto]. }
    destruct cur as [| | | | |l]; try (apply Hskip; [intros; left; discriminate|exact H]).
    destruct (decide (l ∈ visited)) as [Hl|Hl].
    { apply Hskip; [|exact H]. intros m. destruct (decide (m = l)) as [->|Hne]; [auto|].
      left. congruence. }
    assert (Rl : reachable h root l) by (apply Hreach; left; reflexivity).
    destruct (scan_of (h !!! l) stack best) as [x|stack' best'] eqn:Es.
    + injection H as <- <-. left. exists x, l. split; [reflexivity|].
      split; [exact Rl|]. eapply scan_Hit. exact Es.
    + apply scan_Scanned in Es as [-> Hno].
      destruct (IH _ _ _ _ r t H) as [?|(V & HV1 & HV2 & HV3 & HV4)].
      * intros m Hm. apply in_app_iff in Hm as [Hm|Hm].
        -- apply in_rev, refs_In in Hm as (m' & k & [= ->] & Hk).
           eapply reachable_entry; eauto.
        -- apply Hreach. right. exact Hm.
      * intros m Hm. apply elem_of_union in Hm as [Hm|Hm]; [|auto].
        apply elem_of_singleton in Hm as ->. exact Hno.
      * intros m m' k Hm Hk. apply elem_of_union in Hm as [Hm|Hm].
        -- apply elem_of_singleton in Hm as ->. right.
           apply in_app_iff. left. apply in_rev. rewrite rev_involutive.
           apply refs_In. eauto.
        -- destruct (Hclosed m m' k Hm Hk) as [?|[E|?]].
           ++ left. set_solver.
           ++ injection E as ->. left. set_solver.
           ++ right. apply in_app_iff. auto.
      * left. assumption.
      * right. exists V. split; [intros m Hm; apply HV1; set_solver|].
        split; [|split; assumption].
        intros m [E|Hm]; [injection E as ->; apply HV1; set_solver|].
        apply HV2. apply in_app_iff. auto.
Qed.

(** The run of [deepFindNumber] on [enough_fuel]. *)
Lemma run_returns (doc : document) :
  exists r t,
    deepFindNumber_run StringToNumber (enough_fuel (doc_heap doc)) doc = Return r t /\
    deepFindNumber StringToNumber doc = r /\
    List.NoDup t.
Proof.
  destruct (loop_terminates (doc_heap doc) (enough_fuel (doc_heap doc))
              ∅ [doc_root doc] None [] (doc_heap doc)) as (r & t & H).
  { intros l. rewrite decide_False by apply not_elem_of_empty. reflexivity. }
  { unfold enough_fuel. cbn [length]. lia. }
  exists r, t. unfold deepFindNumber, deepFindNumber_run. rewrite H.
  split; [reflexivity|]. split; [reflexivity|].
  eapply loop_scanned_once; [exact H|constructor|intros l []].
Qed.

(** C3 (amended): when some object of the document has, under a hit key,
    a value that the loop takes as numeric (a finite number, or a string
    that is a plain decimal once commas and spaces are removed and whose
    value is finite), [deepFindNumber] returns such a value, whatever
    non-hit numeric values the traversal met before; it is that value when
    all hit keys carry the same one. *)
Theorem deepFindNumber_hit (doc : document) (x0 : float) :
  hit_value doc x0 ->
  (exists x, deepFindNumber StringToNumber doc = Some x /\ hit_value doc x) /\
  ((forall x, hit_value doc x -> x = x0) ->
   deepFindNumber StringToNumber doc = Some x0).
Proof.
  intros (l0 & Hr0 & Hh0).
  assert (Hex : exists x, deepFindNumber StringToNumber doc = Some x /\ hit_value doc x).
  { destruct (run_returns doc) as (r & t & H & -> & _).
    unfold deepFindNumber_run in H.
    destruct (loop_sound (doc_heap doc) (doc_root doc) _ _ _ _ _ r t H)
      as [(x & l & -> & Hr & Hh)|(V & _ & HV2 & HV3 & HV4)].
    - intros l [E|[]]. apply reachable_root. exact E.
    - intros l Hl. destruct (not_elem_of_empty (C:=gset loc) l Hl).
    - intros l m k Hl. destruct (not_elem_of_empty (C:=gset loc) l Hl).
    - exists x. split; [reflexivity|]. exists l. auto.
    - exfalso. assert (HV : forall l, reachable (doc_heap doc) (doc_root doc) l -> l ∈ V).
      { intros l Hl. induction Hl as [l E|l m k _ IH Hk].
        - apply HV2. left. exact E.
        - eapply HV4; eauto. }
      eapply HV3; [apply HV, Hr0|exact Hh0]. }
  split; [exact Hex|].
  intros Huniq. destruct Hex as (x & -> & Hx). f_equal. apply Huniq, Hx.
Qed.

(** C10: a root that is not an object yields [null], numeric or not. *)
Theorem deepFindNumber_root_not_object (h : gmap loc object) :
  deepFindNumber StringToNumber {| doc_heap := h; doc_root := VUndefined |} = None /\
  deepFindNumber StringToNumber {| doc_heap := h; doc_root := VNull |} = None /\
  (forall b, deepFindNumber StringToNumber {| doc_heap := h; doc_root := VBool b |} = None) /\
  (forall x, deepFindNumber StringToNumber {| doc_heap := h; doc_root := VNum x |} = None) /\
  (forall s, deepFindNumber StringToNumber {| doc_heap := h; doc_root := VStr s |} = None).
Proof.
  unfold deepFindNumber, deepFindNumber_run, enough_fuel. cbn.
  repeat split; intros; destruct (entries_count h); reflexivity.
Qed.
End ExtractorFacts.

(** * Properties of the dispatcher *)

Definition request_of (a : attempt) : string * json := (url a, sent a).

(** The exchange did not end with a response: the request failed, or the
    response never ended. *)
Definition failed (a : attempt) : bool :=
  match received a with
  | TransportError _ => true
  | Transported _ _ => false
  | Unsettled => true
  end.

Section DispatcherFacts.
Variable Math_exp : float -> float.
Variable Math_pow : float -> float -> float.
Variable StringToNumber : string -> float.
Variable ObjectToNumber : json -> float.
Variable JSON_parse : string -> option document.
Variable upstream : Type.
Variable https_request : upstream -> string -> json -> transport * upstream.
Variable MODEL_BASE : string.

Local Abbreviation world_of := (world upstream).
Local Abbreviation response := (response_of JSON_parse).
Local Abbreviation post :=
  (postJson JSON_parse upstream https_request).
Local Abbreviation shapes_loop :=
  (for_shapes Math_exp Math_pow StringToNumber ObjectToNumber JSON_parse
              upstream https_request MODEL_BASE).
Local Abbreviation paths_loop :=
  (for_paths Math_exp Math_pow StringToNumber ObjectToNumber JSON_parse
             upstream https_request MODEL_BASE).
Local Abbreviation dispatch :=
  (tryAllShapes Math_exp Math_pow StringToNumber ObjectToNumber JSON_parse
                upstream https_request MODEL_BASE).
Local Abbreviation choose :=
  (choosePlausibleTotal Math_exp Math_pow StringToNumber ObjectToNumber).

(** The response of the exchange holds a finite raw number. *)
Definition yields_number (a : attempt) : bool :=
  match response (received a) with
  | Some (inr (_, json)) => isFinite_or_NaN (deepFindNumber StringToNumber json)
  | _ => false
  end.

(** An exchange after which the dispatcher goes on to the next one. *)
Definition quiet (a : attempt) : Prop :=
  yields_number a = false /\ failed a = false.

(** [r] is the result made from the raw number of exchange [a]. *)
Definition answered (body : json) (a : attempt) (r : proxy_result) : Prop :=
  exists st json x,
    response (received a) = Some (inr (st, json)) /\
    deepFindNumber StringToNumber json = Some x /\
    JSNum.isFinite x = true /\
    unconvertible_area body = false /\
    r = {| status := st; raw := json;
           predicted_price_raw := Some x;
           predicted_price := Some (n (choose x body));
           used_rule := Some (rule (choose x body)) |}.

(** The exception [err] comes from exchange [a]: the request failed with
    it, or the response held a raw number and the conversion of
    [procedure_area] threw. *)
Definition raised (body : json) (a : attempt) (err : js_error) : Prop :=
  received a = TransportError err \/
  (yields_number a = true /\ failed a = false /\
   unconvertible_area body = true /\ err = conversion_error).

(** How a loop over the planned requests [reqs] ended, given the exchanges
    [made]: all of them quiet, or stopped at the last one. *)
Definition exit_ok (body : json) (made : list attempt) (ex : loop_exit)
  (planned : nat) : Prop :=
  match ex with
  | Completed => length made = planned /\ Forall quiet made
  | Thrown err =>
      exists init a, made = init ++ [a] /\ Forall quiet init /\ raised body a err
  | Returned r =>
      exists init a, made = init ++ [a] /\ Forall quiet init /\ answered body a r
  | Pending =>
      exists init a, made = init ++ [a] /\ Forall quiet init /\ received a = Unsettled
  end.

Definition run_ok (body : json) (reqs : list (string * json)) (w : world_of)
  (out : loop_exit * world_of) : Prop :=
  exists made,
    attempts upstream (snd out) = attempts upstream w ++ made /\
    map request_of made = take (length made) reqs /\
    exit_ok body made (fst out) (length reqs).

Lemma response_inl (t : transport) (err : js_error) :
  response t = Some (inl err) -> t = TransportError err.
Proof.
  destruct t as [e|code data|]; cbn.
  - intros [= ->]. reflexivity.
  - destruct (JSON_parse _); discriminate.
  - discriminate.
Qed.

Lemma response_None (t : transport) : response t = None -> t = Unsettled.
Proof.
  destruct t as [e|code data|]; cbn.
  - discriminate.
  - destruct (JSON_parse _); discriminate.
  - reflexivity.
Qed.

Lemma response_inr_not_failed (a : attempt) (st : nat) (json : document) :
  response (received a) = Some (inr (st, json)) -> failed a = false.
Proof.
  unfold failed. destruct (received a); [discriminate|reflexivity|discriminate].
Qed.

Lemma for_shapes_ok (body : json) (p : string) (shapes : list json) :
  forall w,
    run_ok body (map (fun s => ((MODEL_BASE ++ p)%string, or_empty_object s)) shapes) w
           (shapes_loop body p shapes w).
Proof.
  induction shapes as [|shape shapes IH]; intros w; cbn [for_shapes map].
  - exists []. cbn. rewrite app_nil_r. repeat split; constructor.
  - unfold postJson.
    destruct (https_request (outside upstream w) (MODEL_BASE ++ p)%string
                (or_empty_object shape)) as [t out] eqn:E.
    set (a := {| url := (MODEL_BASE ++ p)%string; sent := or_empty_object shape;
                 received := t |}).
    set (w1 := {| outside := out; attempts := attempts upstream w ++ [a] |}).
    assert (Hgo : quiet a ->
                  run_ok body
                    (((MODEL_BASE ++ p)%string, or_empty_object shape)
                       :: map (fun s => ((MODEL_BASE ++ p)%string, or_empty_object s)) shapes)
                    w (shapes_loop body p shapes w1)).
    { intros Hq. destruct (IH w1) as (made & H1 & H2 & H3).
      exists (a :: made). split; [|split].
      - rewrite H1. cbn. rewrite <- app_assoc. reflexivity.
      - cbn. rewrite H2. reflexivity.
      - destruct (fst (shapes_loop body p shapes w1)) as [err|r| |]; cbn in H3 |- *.
        + destruct H3 as (init & b & -> & Hi & Hb).
          exists (a :: init), b. split; [reflexivity|]. split; [constructor|]; assumption.
        + destruct H3 as (init & b & -> & Hi & Hb).
          exists (a :: init), b. split; [reflexivity|]. split; [constructor|]; assumption.
        + rewrite length_map in *. destruct H3 as [-> Hall]. split; [reflexivity|].
          constructor; assumption.
        + destruct H3 as (init & b & -> & Hi & Hb).
          exists (a :: init), b. split; [reflexivity|]. split; [constructor|]; assumption. }
    destruct (response t) as [[err|[st json]]|] eqn:ER.
    + exists [a]. cbn. split; [reflexivity|]. split; [reflexivity|].
      exists [], a. split; [reflexivity|]. split; [constructor|].
      left. apply response_inl. exact ER.
    + destruct (deepFindNumber StringToNumber json) as [x|] eqn:EN;
        [destruct (JSNum.isFinite x) eqn:EF|].
      * assert (Hy : yields_number a = true).
        { unfold yields_number. cbn. rewrite ER, EN. exact EF. }
        unfold chosen_total. destruct (unconvertible_area body) eqn:EU.
        -- exists [a]. cbn. split; [reflexivity|]. split; [reflexivity|].
           exists [], a. split; [reflexivity|]. split; [constructor|].
           right. split; [exact Hy|]. split; [|auto].
           eapply response_inr_not_failed; exact ER.
        -- exists [a]. cbn. split; [reflexivity|]. split; [reflexivity|].
           exists [], a. split; [reflexivity|]. split; [constructor|].
           exists st, json, x. auto.
      * apply Hgo. split; [|eapply response_inr_not_failed; exact ER].
        unfold yields_number. cbn. rewrite ER, EN. exact EF.
      * apply Hgo. split; [|eapply response_inr_not_failed; exact ER].
        unfold yields_number. cbn. rewrite ER, EN. reflexivity.
    + exists [a]. cbn. split; [reflexivity|]. split; [reflexivity|].
      exists [], a. split; [reflexivity|]. split; [constructor|].
      apply response_None. exact ER.
Qed.

Lemma run_ok_length (body : json) (reqs : list (string * json)) (w : world_of)
  (out : loop_exit * world_of) (made : list attempt) :
  map request_of made = take (length made) reqs -> length made <= length reqs.
Proof.
  intros H. apply (f_equal (@length _)) in H.
  rewrite length_map, length_take in H. lia.
Qed.

Lemma run_ok_continue (body : json) (reqs1 reqs2 : list (string * json))
  (w w1 : world_of) (out : loop_exit * world_of) :
  run_ok body reqs1 w (Completed, w1) -> run_ok body reqs2 w1 out ->
  run_ok body (reqs1 ++ reqs2) w out.
Proof.
  intros (made1 & A1 & M1 & [L1 Q1]) (made2 & A2 & M2 & X2). cbn [fst snd] in *.
  exists (made1 ++ made2). split; [|split].
  - rewrite A2, A1, <- app_assoc. reflexivity.
  - rewrite map_app, M1, M2, length_app, L1.
    rewrite take_ge by lia. rewrite take_app_add'; reflexivity.
  - destruct (fst out) as [err|r| |]; cbn in X2 |- *.
    + destruct X2 as (init & a & -> & Hi & Ha).
      exists (made1 ++ init), a. rewrite app_assoc. split; [reflexivity|].
      split; [apply Forall_app; auto|exact Ha].
    + destruct X2 as (init & a & -> & Hi & Ha).
      exists (made1 ++ init), a. rewrite app_assoc. split; [reflexivity|].
      split; [apply Forall_app; auto|exact Ha].
    + destruct X2 as [L2 Q2]. rewrite !length_app. split; [lia|].
      apply Forall_app. auto.
    + destruct X2 as (init & a & -> & Hi & Ha).
      exists (made1 ++ init), a. rewrite app_assoc. split; [reflexivity|].
      split; [apply Forall_app; auto|exact Ha].
Qed.

Lemma run_ok_stop (body : json) (reqs1 reqs2 : list (string * json))
  (w : world_of) (out : loop_exit * world_of) :
  run_ok body reqs1 w out -> fst out <> Completed ->
  run_ok body (reqs1 ++ reqs2) w out.
Proof.
  intros (made & A & M & X) Hne. exists made. split; [exact A|]. split.
  - rewrite take_app_le; [exact M|]. eapply run_ok_length; eauto.
  - destruct (fst out); [exact X|exact X|congruence|exact X].
Qed.

Lemma for_paths_ok (body : json) (paths : list string) (shapes : list json) :
  forall w,
    run_ok body
      (flat_map (fun p => map (fun s => ((MODEL_BASE ++ p)%string, or_empty_object s)) shapes)
                paths)
      w (paths_loop body paths shapes w).
Proof.
  induction paths as [|p paths IH]; intros w; cbn [for_paths flat_map].
  - exists []. cbn. rewrite app_nil_r. repeat split; constructor.
  - pose proof (for_shapes_ok body p shapes w) as H.
    destruct (shapes_loop body p shapes w) as [[err|r| |] w1].
    + apply run_ok_stop; [exact H|discriminate].
    + apply run_ok_stop; [exact H|discriminate].
    + eapply run_ok_continue; [exact H|apply IH].
    + apply run_ok_stop; [exact H|discriminate].
Qed.

(** The fixed plan of the dispatcher: two paths by three shapes, then
    [/predict] with the unwrapped body once more. The body written to the
    wire is [bodyObj || {}]. *)
Definition schedule (body : json) : list (string * json) :=
  let unwrapped := or_empty_object body in
  let wrapped := JObj [("data"%string, body)] in
  let wrapped_seq := JObj [("data"%string, JArr [body])] in
  [ ((MODEL_BASE ++ "/predict")%string, unwrapped);
    ((MODEL_BASE ++ "/predict")%string, wrapped);
    ((MODEL_BASE ++ "/predict")%string, wrapped_seq);
    ((MODEL_BASE ++ "/")%string, unwrapped);
    ((MODEL_BASE ++ "/")%string, wrapped);
    ((MODEL_BASE ++ "/")%string, wrapped_seq);
    ((MODEL_BASE ++ "/predict")%string, unwrapped) ].

Lemma schedule_split (body : json) :
  schedule body
  = flat_map (fun p => map (fun s => ((MODEL_BASE ++ p)%string, or_empty_object s))
                         [body; JObj [("data"%string, body)];
                          JObj [("data"%string, JArr [body])]])
             ["/predict"; "/"]%string
    ++ [((MODEL_BASE ++ "/predict")%string, or_empty_object body)].
Proof. reflexivity. Qed.

(** [r] is the all-null result made from the last exchange [a]. *)
Definition exhausted (a : attempt) (r : proxy_result) : Prop :=
  exists st json,
    response (received a) = Some (inr (st, json)) /\
    r = {| status := st; raw := json;
           predicted_price_raw := None;
           predicted_price := None;
           used_rule := None |}.

(** One run of [tryAllShapes]: the exchanges it made and how it ended. *)
Lemma tryAllShapes_run (body : json) (w : world_of) :
  exists init a,
    attempts upstream (snd (dispatch body w)) = attempts upstream w ++ init ++ [a] /\
    map request_of (init ++ [a]) = take (length (init ++ [a])) (schedule body) /\
    Forall quiet init /\
    match fst (dispatch body w) with
    | Some (inl err) => raised body a err
    | Some (inr r) => answered body a r \/ (length init = 6 /\ quiet a /\ exhausted a r)
    | None => received a = Unsettled
    end.
Proof.
  unfold tryAllShapes. rewrite schedule_split.
  pose proof (for_paths_ok body ["/predict"; "/"]%string
                [body; JObj [("data"%string, body)]; JObj [("data"%string, JArr [body])]] w)
    as (made & A & M & X).
  set (probes := flat_map _ _) in *.
  assert (LP : length probes = 6) by reflexivity.
  assert (Hstop : forall init a,
             made = init ++ [a] ->
             map request_of (init ++ [a])
             = take (length (init ++ [a])) (probes ++ [((MODEL_BASE ++ "/predict")%string,
                                                         or_empty_object body)])).
  { intros init a ->.
    pose proof (run_ok_length body _ w (Completed, w) _ M) as L.
    rewrite M, take_app_le by exact L. reflexivity. }
  destruct (paths_loop body _ _ w) as [[err|r| |] w1]; cbn [fst snd] in A, X |- *.
  - destruct X as (init & a & E & Hi & Ha). exists init, a. subst made.
    split; [exact A|]. split; [apply Hstop; reflexivity|]. split; assumption.
  - destruct X as (init & a & E & Hi & Ha). exists init, a. subst made.
    split; [exact A|]. split; [apply Hstop; reflexivity|]. split; [assumption|].
    left. exact Ha.
  - destruct X as [L Q]. rewrite L, take_ge in M by lia.
    unfold postJson.
    destruct (https_request (outside upstream w1) (MODEL_BASE ++ "/predict")%string
                (or_empty_object body)) as [t out] eqn:E.
    set (a := {| url := (MODEL_BASE ++ "/predict")%string; sent := or_empty_object body;
                 received := t |}).
    exists made, a.
    assert (HM : map request_of (made ++ [a])
                 = take (length (made ++ [a])) (schedule body)).
    { rewrite map_app, M, length_app, L, schedule_split. symmetry. apply take_ge.
      rewrite length_app. cbn [length map]. lia. }
    destruct (response t) as [[err|[st json]]|] eqn:ER; cbn [fst snd attempts].
    + split; [rewrite A, <- app_assoc; reflexivity|]. split; [exact HM|].
      split; [exact Q|]. left. apply response_inl. exact ER.
    + destruct (deepFindNumber StringToNumber json) as [x|] eqn:EN;
        [destruct (JSNum.isFinite x) eqn:EF|]; cbn [isFinite_or_NaN fst snd].
      * assert (Hy : yields_number a = true).
        { unfold yields_number. cbn. rewrite ER, EN. exact EF. }
        unfold chosen_total. destruct (unconvertible_area body) eqn:EU;
          cbn [fst snd attempts].
        -- split; [rewrite A, <- app_assoc; reflexivity|]. split; [exact HM|].
           split; [exact Q|]. right. split; [exact Hy|]. split; [|auto].
           eapply response_inr_not_failed; exact ER.
        -- split; [rewrite A, <- app_assoc; reflexivity|]. split; [exact HM|].
           split; [exact Q|].
           left. exists st, json, x. repeat split; auto.
           rewrite EF.
           pose proof (choose_finite Math_exp Math_pow StringToNumber ObjectToNumber
                         x body EF) as HF.
           unfold finite_value in HF. cbn [isFinite_or_NaN]. rewrite HF. reflexivity.
      * split; [rewrite A, <- app_assoc; reflexivity|]. split; [exact HM|].
        split; [exact Q|].
        right. split; [exact L|]. rewrite EF. split.
        -- split; [|eapply response_inr_not_failed; exact ER].
           unfold yields_number. cbn. rewrite ER, EN. exact EF.
        -- exists st, json. auto.
      * split; [rewrite A, <- app_assoc; reflexivity|]. split; [exact HM|].
        split; [exact Q|].
        right. split; [exact L|]. split.
        -- split; [|eapply response_inr_not_failed; exact ER].
           unfold yields_number. cbn. rewrite ER, EN. reflexivity.
        -- exists st, json. auto.
    + split; [rewrite A, <- app_assoc; reflexivity|]. split; [exact HM|].
      split; [exact Q|]. apply response_None. exact ER.
  - destruct X as (init & a & E & Hi & Ha). exists init, a. subst made.
    split; [exact A|]. split; [apply Hstop; reflexivity|]. split; assumption.
Qed.

Lemma answered_yields (body : json) (a : attempt) (r : proxy_result) :
  answered body a r -> yields_number a = true /\ failed a = false.
Proof.
  intros (st & json & x & ER & EN & EF & _). split.
  - unfold yields_number. rewrite ER, EN. exact EF.
  - eapply response_inr_not_failed; exact ER.
Qed.

Lemma schedule_length (body : json) : length (schedule body) = 7.
Proof. reflexivity. Qed.


(** C7: in every result that [tryAllShapes] returns, from inside the loops
    or after the last attempt, [used_rule] is null exactly when
    [predicted_price] is null. *)
Theorem tryAllShapes_rule_iff_price (body : json) (w : world_of) (r : proxy_result) :
  fst (dispatch body w) = Some (inr r) ->
  (used_rule r = None <-> predicted_price r = None).
Proof.
  intros E. destruct (tryAllShapes_run body w) as (init & a & _ & _ & _ & X).
  rewrite E in X.
  destruct X as [(st & json & x & _ & _ & _ & _ & ->)|(_ & _ & st & json & _ & ->)];
    cbn; split; intros; congruence.
Qed.

Definition error_text (err : js_error) : string :=
  if String.eqb (message err) EmptyString then description err else message err.

Local Abbreviation handler :=
  (api_predict Math_exp Math_pow StringToNumber ObjectToNumber JSON_parse
               upstream https_request MODEL_BASE).

End DispatcherFacts.

(** * The model at work *)

(** The hit pattern matches anywhere in a key and ignores case; array
    indices and the key [raw] of an unparsable body are no hits. *)
Example keyHit_examples :
  map keyHit ["price"; "Predicted_Price"; "prediction"; "totalAmount"; "VALUE";
              "pred"; "0"; "raw"]%string
  = [true; true; true; true; true; false; false; false].
Proof. vm_compute. reflexivity. Qed.

(** Commas and spaces are removed before the decimal pattern is tried. *)
Example decimal_examples :
  map (fun s => matches false decimal_pattern (strip_separators s))
      ["1,250,000"; "-12.5"; " 42 "; "12."; ".5"; "1e5"; Stub.tabbed]%string
  = [true; true; true; false; false; false; false].
Proof. vm_compute. reflexivity. Qed.

(** The stub answers the fourth combination: four requests go out, in the
    order of the plan, and the result comes from the fourth response. *)
Example tryAllShapes_fourth_combination :
  fst (Stub.tryAllShapes area_1200 Stub.start) = Some (inr Stub.fourth_result) /\
  map request_of (attempts nat (snd (Stub.tryAllShapes area_1200 Stub.start)))
  = [ ("https://model.example/predict"%string, area_1200);
      ("https://model.example/predict"%string, JObj [("data"%string, area_1200)]);
      ("https://model.example/predict"%string, JObj [("data"%string, JArr [area_1200])]);
      ("https://model.example/"%string, area_1200) ].
Proof. split; vm_compute; reflexivity. Qed.

(** On the cyclic document the loop ends after scanning each object once
    and returns the value under [price], not the earlier value under [a]. *)
Example deepFindNumber_cyclic :
  deepFindNumber_run Reference.StringToNumber 9 Stub.cyclic
  = Return (Some 2500.5%float) [1; 0].
Proof. vm_compute. reflexivity. Qed.

Lemma deepFindNumber_hit_witness :
  hit_value Reference.StringToNumber Stub.cyclic 2500.5 /\
  (exists x, deepFindNumber Reference.StringToNumber Stub.cyclic = Some x /\
             hit_value Reference.StringToNumber Stub.cyclic x) /\
  ((forall x, hit_value Reference.StringToNumber Stub.cyclic x -> x = 2500.5%float) ->
   deepFindNumber Reference.StringToNumber Stub.cyclic = Some 2500.5%float).
Proof.
  assert (H : hit_value Reference.StringToNumber Stub.cyclic 2500.5).
  { exists 1. split.
    - apply (reachable_entry _ _ 0 1 "first"); [apply reachable_root; reflexivity|].
      vm_compute. auto.
    - exists "price"%string, (VStr "2 500.5"). split; [vm_compute; auto|].
      split; vm_compute; reflexivity. }
  split; [exact H|].
  exact (deepFindNumber_hit Reference.StringToNumber Stub.cyclic 2500.5 H).
Defined.

(** C3 as stated fails. Under the hit key [price], the string 12 followed
    by a tab is a plain decimal once whitespace is stripped, and so is the
    digit 1 followed by 400 zeros, yet [deepFindNumber] returns [null] on
    both: it strips commas and spaces only, and it wants a finite value.
    And with the two hit keys [price: 1] and [value: 2] it returns 1, not
    the value under [value]. *)
Lemma deepFindNumber_hit_counterexample :
  keyHit "price" = true /\
  (numeric_as_specified (VStr Stub.tabbed) = true /\
   deepFindNumber Reference.StringToNumber (Stub.priced (VStr Stub.tabbed)) = None) /\
  (numeric_as_specified (VStr Stub.huge) = true /\
   deepFindNumber Reference.StringToNumber (Stub.priced (VStr Stub.huge)) = None) /\
  (keyHit "value" = true /\ numeric_as_specified (VNum 2) = true /\
   deepFindNumber Reference.StringToNumber Stub.two_hits = Some 1%float).
Proof. repeat split; vm_compute; reflexivity. Qed.

Lemma tryAllShapes_rule_iff_price_witness :
  fst (Stub.tryAllShapes area_1200 Stub.start) = Some (inr Stub.fourth_result) /\
  (used_rule Stub.fourth_result = None <-> predicted_price Stub.fourth_result = None).
Proof.
  assert (H : fst (Stub.tryAllShapes area_1200 Stub.start) = Some (inr Stub.fourth_result))
    by (vm_compute; reflexivity).
  split; [exact H|].
  exact (tryAllShapes_rule_iff_price
           Reference.Math_exp Reference.Math_pow
           Reference.StringToNumber Reference.ObjectToNumber
           Stub.JSON_parse nat Stub.https_request Stub.MODEL_BASE
           area_1200 Stub.start Stub.fourth_result H).
Defined.


(** The same body without a number in any response: nothing is converted,
    and the caller gets the result with the three null fields after seven
    exchanges. *)
Example api_predict_area_object_not_converted :
  exists code rawdoc,
    fst (Stub.api_predict (Some Stub.area_object) {| outside := 4; attempts := [] |})
    = ReplyOk code None None None rawdoc /\
    length (attempts nat (snd (Stub.api_predict (Some Stub.area_object)
                                 {| outside := 4; attempts := [] |}))) = 7.
Proof. do 2 eexists. split; vm_compute; reflexivity. Qed.

(** * Further properties of the numeric extractor *)

Section ExtractorResults.
Variable StringToNumber : string -> float.

Local Abbreviation numeric_of := (numeric StringToNumber).
Local Abbreviation scan_of := (scan StringToNumber).
Local Abbreviation loop_of := (loop StringToNumber).
Local Abbreviation hit_in_of := (hit_in StringToNumber).

(** The first value of an object that the loop takes as numeric. *)
Fixpoint first_numeric (entries : object) : option float :=
  match entries with
  | [] => None
  | (_, v) :: rest =>
      match numeric_of v with
      | Some x => Some x
      | None => first_numeric rest
      end
  end.

(** What scanning the objects [order] in turn returns, each one scanned
    once by the loop body: the value under the first hit key, else the
    first numeric value met. *)
Fixpoint single_pass (h : gmap loc object) (order : list loc) (best : option float)
  : option float :=
  match order with
  | [] => best
  | l :: rest =>
      match scan_of (h !!! l) [] best with
      | Hit x => Some x
      | Scanned _ best' => single_pass h rest best'
      end
  end.

(** An entry with a numeric value [x], whatever its key. *)
Definition numeric_in (entries : object) (x : float) : Prop :=
  exists k v, In (k, v) entries /\ numeric_of v = Some x.

(** Some object of the document has an entry with the numeric value [x]. *)
Definition numeric_value (doc : document) (x : float) : Prop :=
  exists l, reachable (doc_heap doc) (doc_root doc) l /\
            numeric_in (doc_heap doc !!! l) x.

Lemma numeric_finite (v : value) (x : float) :
  numeric_of v = Some x -> JSNum.isFinite x = true.
Proof.
  destruct v as [| |b|y|s|l]; cbn [numeric]; try discriminate.
  - destruct (JSNum.isFinite y) eqn:E; [intros [= <-]; exact E|discriminate].
  - destruct (matches false decimal_pattern (strip_separators s)); [|discriminate].
    destruct (JSNum.isFinite (StringToNumber (strip_separators s))) eqn:E;
      [intros [= <-]; exact E|discriminate].
Qed.

Lemma hit_in_numeric_in (entries : object) (x : float) :
  hit_in_of entries x -> numeric_in entries x.
Proof. intros (k & v & H & _ & Hv). exists k, v. auto. Qed.

Lemma first_numeric_in (entries : object) (x : float) :
  first_numeric entries = Some x -> numeric_in entries x.
Proof.
  induction entries as [|[k v] rest IH]; cbn [first_numeric]; [discriminate|].
  destruct (numeric_of v) as [y|] eqn:E.
  - intros [= <-]. exists k, v. cbn. auto.
  - intros H. destruct (IH H) as (k' & v' & Hin & Hv). exists k', v'. cbn. auto.
Qed.

Lemma first_numeric_None (entries : object) :
  first_numeric entries = None -> forall x, ~ numeric_in entries x.
Proof.
  induction entries as [|[k v] rest IH]; cbn [first_numeric].
  - intros _ x (k & v & [] & _).
  - destruct (numeric_of v) as [y|] eqn:E; [discriminate|].
    intros H x (k' & v' & [[= <- <-]|Hin] & Hv); [congruence|].
    eapply IH; [exact H|]. exists k', v'. eauto.
Qed.

(** After a scan without a hit, [best] is what it was, or the first numeric
    value of the object when it was [null]. *)
Lemma scan_best (entries : object) (stack : list value) (best : option float)
  (stack' : list value) (best' : option float) :
  scan_of entries stack best = Scanned stack' best' ->
  best' = match best with
          | Some b => Some b
          | None => first_numeric entries
          end.
Proof.
  revert stack best. induction entries as [|[k v] rest IH]; intros stack best;
    cbn [scan first_numeric].
  - intros [= <- <-]. destruct best; reflexivity.
  - destruct v as [| |b|y|s|l]; cbn [numeric]; try (intros H; apply IH in H; exact H).
    + destruct (JSNum.isFinite y); [destruct (keyHit k); [discriminate|]|];
        intros H; apply IH in H; rewrite H; destruct best; reflexivity.
    + destruct (matches false decimal_pattern (strip_separators s));
        [destruct (JSNum.isFinite (StringToNumber (strip_separators s)));
         [destruct (keyHit k); [discriminate|]|]|];
        intros H; apply IH in H; rewrite H; destruct best; reflexivity.
Qed.

(** A proof rule for the [while] loop: an invariant of its state that the
    two kinds of iteration keep gives the property of what it returns. *)
Lemma loop_invariant (h : gmap loc object)
  (I : gset loc -> list value -> option float -> list loc -> Prop)
  (Q : option float -> list loc -> Prop) :
  (forall visited best scanned, I visited [] best scanned -> Q best scanned) ->
  (forall visited cur stack best scanned,
      I visited (cur :: stack) best scanned ->
      (forall l, cur = VRef l -> l ∈ visited) ->
      I visited stack best scanned) ->
  (forall visited l stack best scanned x,
      I visited (VRef l :: stack) best scanned -> l ∉ visited ->
      scan_of (h !!! l) stack best = Hit x ->
      Q (Some x) (l :: scanned)) ->
  (forall visited l stack best scanned stack' best',
      I visited (VRef l :: stack) best scanned -> l ∉ visited ->
      scan_of (h !!! l) stack best = Scanned stack' best' ->
      I ({[l]} ∪ visited) stack' best' (l :: scanned)) ->
  forall fuel visited stack best scanned r t,
    loop_of fuel h visited stack best scanned = Return r t ->
    I visited stack best scanned -> Q r t.
Proof.
  intros Hend Hskip Hhit Hscan.
  induction fuel as [|fuel IH]; intros visited stack best scanned r t H HI;
    destruct stack as [|cur stack]; cbn [loop] in H; try discriminate;
    try (injection H as <- <-; eapply Hend; exact HI).
  assert (Hs : (forall l, cur = VRef l -> l ∈ visited) ->
               loop_of fuel h visited stack best scanned = Return r t -> Q r t).
  { intros Hcur H'. eapply IH; [exact H'|]. eapply Hskip; eauto. }
  destruct cur as [| | | | |l]; try (apply Hs; [intros; discriminate|exact H]).
  destruct (decide (l ∈ visited)) as [Hl|Hl].
  { apply Hs; [|exact H]. intros m [= <-]. exact Hl. }
  destruct (scan_of (h !!! l) stack best) as [x|stack' best'] eqn:Es.
  - injection H as <- <-. eapply Hhit; eauto.
  - eapply IH; [exact H|]. eapply Hscan; eauto.
Qed.

Lemma scanned_stack_reachable (h : gmap loc object) (root : value) (l : loc)
  (stack : list value) :
  reachable h root l ->
  (forall m, In (VRef m) stack -> reachable h root m) ->
  forall m, In (VRef m) (rev (refs (h !!! l)) ++ stack) -> reachable h root m.
Proof.
  intros Rl Hs m Hm. apply in_app_iff in Hm as [Hm|Hm]; [|auto].
  apply in_rev, refs_In in Hm as (m' & k & [= ->] & Hk).
  eapply reachable_entry; eauto.
Qed.

(** Every entry value of a visited object that is a reference is visited
    or waits on the stack. *)
Definition closed_under_entries (h : gmap loc object) (visited : gset loc)
  (stack : list value) : Prop :=
  forall l m k, l ∈ visited -> In (k, VRef m) (h !!! l) ->
                m ∈ visited \/ In (VRef m) stack.

Definition root_seen (root : value) (visited : gset loc) (stack : list value) : Prop :=
  forall l, root = VRef l -> l ∈ visited \/ In (VRef l) stack.

Lemma closed_skip (h : gmap loc object) (visited : gset loc) (cur : value)
  (stack : list value) :
  closed_under_entries h visited (cur :: stack) ->
  (forall l, cur = VRef l -> l ∈ visited) ->
  closed_under_entries h visited stack.
Proof.
  intros Hc Hcur l m k Hl Hk. destruct (Hc l m k Hl Hk) as [?|[E|?]]; auto.
Qed.

Lemma closed_scan (h : gmap loc object) (visited : gset loc) (l : loc)
  (stack : list value) :
  closed_under_entries h visited (VRef l :: stack) ->
  closed_under_entries h ({[l]} ∪ visited) (rev (refs (h !!! l)) ++ stack).
Proof.
  intros Hc m m' k Hm Hk. apply elem_of_union in Hm as [Hm|Hm].
  - apply elem_of_singleton in Hm as ->. right.
    apply in_app_iff. left. apply in_rev. rewrite rev_involutive.
    apply refs_In. eauto.
  - destruct (Hc m m' k Hm Hk) as [?|[E|?]].
    + left. apply elem_of_union_r. assumption.
    + injection E as ->. left. apply elem_of_union_l, elem_of_singleton. reflexivity.
    + right. apply in_app_iff. auto.
Qed.

Lemma root_seen_skip (root cur : value) (visited : gset loc) (stack : list value) :
  root_seen root visited (cur :: stack) ->
  (forall l, cur = VRef l -> l ∈ visited) ->
  root_seen root visited stack.
Proof.
  intros Hr Hcur l E. destruct (Hr l E) as [?|[E'|?]]; auto.
Qed.

Lemma root_seen_scan (root : value) (visited : gset loc) (l : loc)
  (stack pushed : list value) :
  root_seen root visited (VRef l :: stack) ->
  root_seen root ({[l]} ∪ visited) (pushed ++ stack).
Proof.
  intros Hr m E. destruct (Hr m E) as [?|[E'|?]].
  - left. apply elem_of_union_r. assumption.
  - injection E' as ->. left. apply elem_of_union_l, elem_of_singleton. reflexivity.
  - right. apply in_app_iff. auto.
Qed.

Lemma closed_reachable (h : gmap loc object) (root : value) (visited : gset loc) :
  closed_under_entries h visited [] -> root_seen root visited [] ->
  forall l, reachable h root l -> l ∈ visited.
Proof.
  intros Hc Hr l Hl. induction Hl as [l E|l m k _ IH Hk].
  - destruct (Hr l E) as [?|[]]. assumption.
  - destruct (Hc l m k IH Hk) as [?|[]]. assumption.
Qed.

Lemma found_numeric (doc : document) (x : float) :
  deepFindNumber StringToNumber doc = Some x ->
  JSNum.isFinite x = true /\ numeric_value doc x.
Proof.
  intros E.
  destruct (run_returns StringToNumber doc) as (r & t & H & Er & _).
  rewrite E in Er. subst r. unfold deepFindNumber_run in H.
  assert (Hv : numeric_value doc x).
  { refine (loop_invariant (doc_heap doc)
              (fun visited stack best scanned =>
                 (forall l, In (VRef l) stack ->
                            reachable (doc_heap doc) (doc_root doc) l) /\
                 (forall b, best = Some b -> numeric_value doc b))
              (fun r t => forall y, r = Some y -> numeric_value doc y)
              _ _ _ _ _ _ _ _ _ _ _ H _ x eq_refl).
    - intros visited best scanned [_ Hb]. exact Hb.
    - intros visited cur stack best scanned [Hs Hb] _. split; [|exact Hb].
      intros l Hl. apply Hs. right. exact Hl.
    - intros visited l stack best scanned y [Hs _] _ Es z [= <-].
      exists l. split; [apply Hs; left; reflexivity|].
      apply hit_in_numeric_in. eapply scan_Hit. exact Es.
    - intros visited l stack best scanned stack' best' [Hs Hb] _ Es.
      assert (Rl : reachable (doc_heap doc) (doc_root doc) l)
        by (apply Hs; left; reflexivity).
      pose proof (scan_best _ _ _ _ _ Es) as Eb.
      apply scan_Scanned in Es as [-> _]. split.
      + apply scanned_stack_reachable; [exact Rl|].
        intros m Hm. apply Hs. right. exact Hm.
      + intros b Eb'. rewrite Eb in Eb'. destruct best as [b0|]; [apply Hb; exact Eb'|].
        exists l. split; [exact Rl|]. apply first_numeric_in. exact Eb'.
    - split; [|discriminate].
      intros l [El|[]]. apply reachable_root. exact El. }
  split; [|exact Hv].
  destruct Hv as (l & _ & k & v & _ & Hn). eapply numeric_finite. exact Hn.
Qed.

(** X1: what [deepFindNumber] returns is a finite number, and it is the
    numeric value of an entry of some object of the document. *)
Theorem deepFindNumber_sound (doc : document) (x : float) :
  deepFindNumber StringToNumber doc = Some x ->
  JSNum.isFinite x = true /\ numeric_value doc x.
Proof. apply found_numeric. Qed.

Lemma deepFindNumber_none_clean (doc : document) :
  deepFindNumber StringToNumber doc = None ->
  forall l, reachable (doc_heap doc) (doc_root doc) l ->
            first_numeric (doc_heap doc !!! l) = None.
Proof.
  intros E.
  destruct (run_returns StringToNumber doc) as (r & t & H & Er & _).
  rewrite E in Er. subst r. unfold deepFindNumber_run in H.
  refine (loop_invariant (doc_heap doc)
            (fun visited stack best scanned =>
               closed_under_entries (doc_heap doc) visited stack /\
               root_seen (doc_root doc) visited stack /\
               (best = None ->
                forall l, l ∈ visited -> first_numeric (doc_heap doc !!! l) = None))
            (fun r t => r = None ->
               forall l, reachable (doc_heap doc) (doc_root doc) l ->
                         first_numeric (doc_heap doc !!! l) = None)
            _ _ _ _ _ _ _ _ _ _ _ H _ eq_refl).
  - intros visited best scanned (Hc & Hr & Hb) En l Hl.
    apply Hb; [exact En|]. eapply closed_reachable; eauto.
  - intros visited cur stack best scanned (Hc & Hr & Hb) Hcur.
    split; [eapply closed_skip; eauto|]. split; [eapply root_seen_skip; eauto|exact Hb].
  - intros; discriminate.
  - intros visited l stack best scanned stack' best' (Hc & Hr & Hb) _ Es.
    pose proof (scan_best _ _ _ _ _ Es) as Eb.
    apply scan_Scanned in Es as [-> _].
    split; [apply closed_scan; exact Hc|]. split; [eapply root_seen_scan; exact Hr|].
    intros En m Hm. rewrite Eb in En. destruct best as [b|]; [discriminate|].
    apply elem_of_union in Hm as [Hm|Hm]; [|apply Hb; auto].
    apply elem_of_singleton in Hm as ->. exact En.
  - split; [|split].
    + intros l m k Hl. destruct (not_elem_of_empty (C:=gset loc) l Hl).
    + intros l El. right. left. exact El.
    + intros _ l Hl. destruct (not_elem_of_empty (C:=gset loc) l Hl).
Qed.

Lemma deepFindNumber_none_numeric (doc : document) :
  deepFindNumber StringToNumber doc = None -> forall x, ~ numeric_value doc x.
Proof.
  intros E x (l & Hl & Hn).
  eapply first_numeric_None; [|exact Hn].
  apply deepFindNumber_none_clean; assumption.
Qed.

(** X2: [deepFindNumber] returns [null] exactly when no object of the
    document has an entry with a numeric value. *)
Theorem deepFindNumber_null_iff (doc : document) :
  deepFindNumber StringToNumber doc = None <-> forall x, ~ numeric_value doc x.
Proof.
  split.
  - apply deepFindNumber_none_numeric.
  - intros Hno. destruct (deepFindNumber StringToNumber doc) as [x|] eqn:E; [|reflexivity].
    destruct (Hno x). apply found_numeric. exact E.
Qed.

(** X3: when no hit key of the document carries a numeric value, a numeric
    value of the root object wins over every nested one: the result is the
    first numeric value among the entries of the root. *)
Theorem deepFindNumber_root_first (doc : document) (l0 : loc) (b : float) :
  doc_root doc = VRef l0 ->
  (forall x, ~ hit_value StringToNumber doc x) ->
  first_numeric (doc_heap doc !!! l0) = Some b ->
  deepFindNumber StringToNumber doc = Some b.
Proof.
  intros Eroot Hno Eb.
  destruct (run_returns StringToNumber doc) as (r & t & H & Er & _).
  rewrite Er. clear Er. unfold deepFindNumber_run in H.
  assert (Hr : r = Some b \/ exists x, r = Some x /\ hit_value StringToNumber doc x).
  { refine (loop_invariant (doc_heap doc)
              (fun visited stack best scanned =>
                 (forall l, In (VRef l) stack ->
                            reachable (doc_heap doc) (doc_root doc) l) /\
                 (best = Some b \/
                  (best = None /\ (l0 ∉ visited) /\ stack = [VRef l0])))
              (fun r t => r = Some b \/
                          exists x, r = Some x /\ hit_value StringToNumber doc x)
              _ _ _ _ _ _ _ _ _ _ _ H _).
    - intros visited best scanned [_ [E|(_ & _ & E)]]; [left; exact E|discriminate].
    - intros visited cur stack best scanned [Hs Hb] Hcur. split.
      + intros l Hl. apply Hs. right. exact Hl.
      + destruct Hb as [E|(_ & Hn & E)]; [left; exact E|].
        injection E as -> ->. destruct Hn. apply Hcur. reflexivity.
    - intros visited l stack best scanned x [Hs _] _ Es. right. exists x.
      split; [reflexivity|]. exists l. split; [apply Hs; left; reflexivity|].
      eapply scan_Hit. exact Es.
    - intros visited l stack best scanned stack' best' [Hs Hb] _ Es.
      pose proof (scan_best _ _ _ _ _ Es) as Eb'.
      apply scan_Scanned in Es as [-> _]. split.
      + apply scanned_stack_reachable; [apply Hs; left; reflexivity|].
        intros m Hm. apply Hs. right. exact Hm.
      + left. destruct Hb as [->|(-> & _ & E)]; [exact Eb'|].
        injection E as -> ->. rewrite Eb'. exact Eb.
    - split.
      + intros l [El|[]]. apply reachable_root. exact El.
      + right. split; [reflexivity|]. split; [apply not_elem_of_empty|].
        rewrite Eroot. reflexivity. }
  destruct Hr as [E|(x & _ & Hx)]; [exact E|]. destruct (Hno x Hx).
Qed.

(** The scanned objects are objects of the document, and all of them
    when no hit key carries a numeric value. *)
Lemma scanned_reachable (doc : document) (fuel : nat) (r : option float) (t : list loc) :
  deepFindNumber_run StringToNumber fuel doc = Return r t ->
  (forall l, In l t -> reachable (doc_heap doc) (doc_root doc) l) /\
  ((forall x, ~ hit_value StringToNumber doc x) ->
   forall l, reachable (doc_heap doc) (doc_root doc) l -> In l t).
Proof.
  intros H. unfold deepFindNumber_run in H.
  refine (loop_invariant (doc_heap doc)
            (fun visited stack best scanned =>
               (forall l, In l scanned <-> l ∈ visited) /\
               (forall l, In (VRef l) stack ->
                          reachable (doc_heap doc) (doc_root doc) l) /\
               (forall l, In l scanned -> reachable (doc_heap doc) (doc_root doc) l) /\
               closed_under_entries (doc_heap doc) visited stack /\
               root_seen (doc_root doc) visited stack)
            (fun r t =>
               (forall l, In l t -> reachable (doc_heap doc) (doc_root doc) l) /\
               ((forall x, ~ hit_value StringToNumber doc x) ->
                forall l, reachable (doc_heap doc) (doc_root doc) l -> In l t))
            _ _ _ _ _ _ _ _ _ _ _ H _).
  - intros visited best scanned (Hsv & _ & Hsr & Hc & Hr). split; [exact Hsr|].
    intros _ l Hl. apply Hsv. eapply closed_reachable; eauto.
  - intros visited cur stack best scanned (Hsv & Hs & Hsr & Hc & Hr) Hcur.
    split; [exact Hsv|]. split; [intros l Hl; apply Hs; right; exact Hl|].
    split; [exact Hsr|]. split; [eapply closed_skip; eauto|eapply root_seen_skip; eauto].
  - intros visited l stack best scanned x (Hsv & Hs & Hsr & _) _ Es.
    assert (Rl : reachable (doc_heap doc) (doc_root doc) l)
      by (apply Hs; left; reflexivity).
    split.
    + intros m [<-|Hm]; auto.
    + intros Hno. destruct (Hno x). exists l. split; [exact Rl|].
      eapply scan_Hit. exact Es.
  - intros visited l stack best scanned stack' best' (Hsv & Hs & Hsr & Hc & Hr) _ Es.
    assert (Rl : reachable (doc_heap doc) (doc_root doc) l)
      by (apply Hs; left; reflexivity).
    apply scan_Scanned in Es as [-> _].
    split; [|split; [|split; [|split]]].
    + intros m. cbn [In]. rewrite elem_of_union, elem_of_singleton, Hsv.
      intuition congruence.
    + apply scanned_stack_reachable; [exact Rl|].
      intros m Hm. apply Hs. right. exact Hm.
    + intros m [<-|Hm]; auto.
    + apply closed_scan. exact Hc.
    + eapply root_seen_scan. exact Hr.
  - split; [|split; [|split; [|split]]].
    + intros l. split; [intros []|intros Hl; destruct (not_elem_of_empty (C:=gset loc) l Hl)].
    + intros l [El|[]]. apply reachable_root. exact El.
    + intros l [].
    + intros l m k Hl. destruct (not_elem_of_empty (C:=gset loc) l Hl).
    + intros l El. right. left. exact El.
Qed.

(** X4: the objects that [deepFindNumber] scans are objects of the
    document, each scanned once; when no hit key carries a numeric value
    the search is exhaustive: every object of the document is scanned. *)
Theorem deepFindNumber_scans (doc : document) :
  exists r t,
    deepFindNumber_run StringToNumber (enough_fuel (doc_heap doc)) doc = Return r t /\
    List.NoDup t /\
    (forall l, In l t -> reachable (doc_heap doc) (doc_root doc) l) /\
    ((forall x, ~ hit_value StringToNumber doc x) ->
     forall l, reachable (doc_heap doc) (doc_root doc) l -> In l t).
Proof.
  destruct (run_returns StringToNumber doc) as (r & t & H & _ & ND).
  exists r, t. split; [exact H|]. split; [exact ND|].
  eapply scanned_reachable. exact H.
Qed.

(** The loop body gives the same hit, or the same [best], whatever the
    stack holds. *)
Lemma scan_any_stack (entries : object) (stack stack' : list value)
  (best : option float) :
  match scan_of entries stack best with
  | Hit x => scan_of entries stack' best = Hit x
  | Scanned _ best' => exists s, scan_of entries stack' best = Scanned s best'
  end.
Proof.
  revert stack stack' best.
  induction entries as [|[k v] rest IH]; intros stack stack' best; cbn [scan].
  - eauto.
  - destruct v as [| |b|y|s|l]; try apply IH.
    + destruct (JSNum.isFinite y); [destruct (keyHit k); [reflexivity|]|]; apply IH.
    + destruct (matches false decimal_pattern (strip_separators s)); [|apply IH].
      destruct (JSNum.isFinite (StringToNumber (strip_separators s))); [|apply IH].
      destruct (keyHit k); [reflexivity|apply IH].
Qed.

(** The loop returns what one pass over the scanned objects returns. *)
Lemma loop_single_pass (doc : document) (fuel : nat) (r : option float) (t : list loc) :
  deepFindNumber_run StringToNumber fuel doc = Return r t ->
  r = single_pass (doc_heap doc) (rev t) None.
Proof.
  intros H. unfold deepFindNumber_run in H. symmetry.
  refine (loop_invariant (doc_heap doc)
            (fun visited stack best scanned =>
               forall rest, single_pass (doc_heap doc) (rev scanned ++ rest) None
                            = single_pass (doc_heap doc) rest best)
            (fun r t => single_pass (doc_heap doc) (rev t) None = r)
            _ _ _ _ _ _ _ _ _ _ _ H _).
  - intros visited best scanned HI.
    specialize (HI []). rewrite app_nil_r in HI. exact HI.
  - intros visited cur stack best scanned HI _. exact HI.
  - intros visited l stack best scanned x HI _ Es.
    cbn [rev]. rewrite HI. cbn [single_pass].
    pose proof (scan_any_stack (doc_heap doc !!! l) stack [] best) as S.
    rewrite Es in S. rewrite S. reflexivity.
  - intros visited l stack best scanned stack' best' HI _ Es rest.
    cbn [rev]. rewrite <- app_assoc. cbn [app]. rewrite HI. cbn [single_pass].
    pose proof (scan_any_stack (doc_heap doc !!! l) stack [] best) as S.
    rewrite Es in S. destruct S as [s0 ->]. reflexivity.
  - intros rest. reflexivity.
Qed.

(** C4: on every document, with cycles and shared objects or not, the
    loop of [deepFindNumber] ends within [enough_fuel] iterations and more
    fuel changes nothing; the objects it scans are objects of the document
    and none is scanned twice; the value it returns is the one that a
    single pass over the scanned objects gives, each taken once in the
    order of the scan: a finite numeric value of the document, or [null]
    after every object of the document has been scanned and none holds a
    numeric value. *)
Theorem deepFindNumber_terminates (doc : document) :
  exists r t,
    deepFindNumber_run StringToNumber (enough_fuel (doc_heap doc)) doc = Return r t /\
    (forall fuel, enough_fuel (doc_heap doc) <= fuel ->
                  deepFindNumber_run StringToNumber fuel doc = Return r t) /\
    deepFindNumber StringToNumber doc = r /\
    List.NoDup t /\
    (forall l, In l t -> reachable (doc_heap doc) (doc_root doc) l) /\
    r = single_pass (doc_heap doc) (rev t) None /\
    (forall x, r = Some x -> JSNum.isFinite x = true /\ numeric_value doc x) /\
    (r = None ->
     forall l, reachable (doc_heap doc) (doc_root doc) l ->
               In l t /\ forall x, ~ numeric_in (doc_heap doc !!! l) x).
Proof.
  destruct (run_returns StringToNumber doc) as (r & t & H & Er & ND).
  exists r, t. split; [exact H|].
  split; [intros fuel Hle; eapply loop_more_fuel; eauto|].
  split; [exact Er|]. split; [exact ND|].
  destruct (scanned_reachable doc _ r t H) as [Hin Hall].
  split; [exact Hin|]. split; [eapply loop_single_pass; exact H|].
  split.
  - intros x Ex. apply found_numeric. rewrite Er. exact Ex.
  - intros En l Hl.
    assert (Hno : forall x, ~ numeric_value doc x).
    { apply deepFindNumber_none_numeric. rewrite Er. exact En. }
    split.
    + apply Hall; [|exact Hl]. intros x (m & Hm & Hh).
      apply (Hno x). exists m. split; [exact Hm|].
      apply hit_in_numeric_in. exact Hh.
    + intros x Hx. apply (Hno x). exists l. auto.
Qed.

(** A heap none of whose keys is a hit key holds no hit value. *)
Definition hit_free (h : gmap loc object) : Prop :=
  map_Forall (fun _ o => forallb (fun kv => negb (keyHit (fst kv))) o = true) h.

Lemma hit_free_no_hit (doc : document) :
  hit_free (doc_heap doc) -> forall x, ~ hit_value StringToNumber doc x.
Proof.
  intros Hf x (l & _ & k & v & Hin & Hk & _).
  rewrite lookup_total_alt in Hin.
  destruct (doc_heap doc !! l) as [o|] eqn:El; cbn in Hin; [|destruct Hin].
  specialize (Hf l o El). cbv beta in Hf. rewrite forallb_forall in Hf.
  specialize (Hf (k, v) Hin). change (negb (keyHit k) = true) in Hf.
  rewrite Hk in Hf. discriminate.
Qed.

Lemma loop_step (fuel : nat) (h : gmap loc object) (visited : gset loc) (l : loc)
  (stack : list value) (best : option float) (scanned : list loc) :
  l ∉ visited ->
  loop_of (S fuel) h visited (VRef l :: stack) best scanned
  = match scan_of (h !!! l) stack best with
    | Hit v => Return (Some v) (l :: scanned)
    | Scanned stack' best' => loop_of fuel h ({[l]} ∪ visited) stack' best' (l :: scanned)
    end.
Proof.
  intros Hl. cbn [loop]. destruct (decide (l ∈ visited)); [contradiction|reflexivity].
Qed.

(** X5: when the upstream body is not JSON the proxy keeps it as
    [{ raw: data }], and the extractor then reads the body text itself: the
    result is its number when the text is a plain decimal once commas and
    spaces are removed, and [null] otherwise. *)
Theorem deepFindNumber_raw_text (JSON_parse : string -> option document)
  (statusCode : option nat) (data : string) :
  JSON_parse (if String.eqb data EmptyString then "{}"%string else data) = None ->
  exists status,
    response_of JSON_parse (Transported statusCode data)
    = Some (inr (status, raw_document data)) /\
    deepFindNumber StringToNumber (raw_document data) = numeric_of (VStr data).
Proof.
  intros E. cbn [response_of]. rewrite E. eexists. split; [reflexivity|].
  unfold deepFindNumber, deepFindNumber_run, enough_fuel, raw_document.
  cbn [doc_heap doc_root]. set (h := ({[ 0 := _ ]} : gmap nat object)).
  change (2 + entries_count h) with (S (S (entries_count h))).
  rewrite loop_step by apply not_elem_of_empty.
  unfold h. rewrite lookup_total_singleton_eq. cbn [scan numeric loop].
  change (keyHit "raw") with false.
  destruct (matches false decimal_pattern (strip_separators data)); [|reflexivity].
  destruct (JSNum.isFinite (StringToNumber (strip_separators data))); reflexivity.
Qed.
End ExtractorResults.

(** * Further properties of the resolver *)

Section ResolverResults.
Variable Math_exp : float -> float.
Variable Math_pow : float -> float -> float.
Variable StringToNumber : string -> float.
Variable ObjectToNumber : json -> float.

Local Abbreviation candidates_of :=
  (candidates Math_exp Math_pow StringToNumber ObjectToNumber).
Local Abbreviation generated_by :=
  (generated Math_exp Math_pow StringToNumber ObjectToNumber).
Local Abbreviation choose :=
  (choosePlausibleTotal Math_exp Math_pow StringToNumber ObjectToNumber).

Lemma candidates_In_generated (rawNumber : float) (features : json) (c : cand) :
  In c (candidates_of rawNumber features) -> In c (generated_by rawNumber features).
Proof. rewrite candidates_generated. intros H. apply filter_In in H. tauto. Qed.

Lemma choose_generated (rawNumber : float) (features : json) :
  In (choose rawNumber features) (generated_by rawNumber features).
Proof.
  unfold choosePlausibleTotal.
  destruct (List.filter in_range (candidates_of rawNumber features)) as [|p ps] eqn:EP.
  - destruct (sort by_value (candidates_of rawNumber features)) as [|h t] eqn:ES.
    + left. reflexivity.
    + apply candidates_In_generated. apply (sort_In by_value). rewrite ES.
      left. reflexivity.
  - destruct (sort by_bonus_then_value (p :: ps)) as [|h t] eqn:ES.
    + destruct (sort_nonempty _ _ _ ES).
    + cbn [hd]. apply candidates_In_generated.
      assert (H : In h (p :: ps)).
      { apply (sort_In by_bonus_then_value). rewrite ES. left. reflexivity. }
      rewrite <- EP in H. apply filter_In in H. tauto.
Qed.

(** X6: whatever the raw number, also a non-finite one, the resolver
    returns one of the generated candidates: the value it reports is the
    one that the reported rule makes of the raw number. *)
Theorem choosePlausibleTotal_generated (rawNumber : float) (features : json) :
  In (choose rawNumber features) (generated_by rawNumber features).
Proof. apply choose_generated. Qed.

(** X7: the value the resolver returns lies in the plausible range exactly
    when the value of some generated candidate does: the fallback is taken
    only when no transform gives a plausible total. *)
Theorem choosePlausibleTotal_plausible_iff (rawNumber : float) (features : json) :
  in_range (choose rawNumber features) = true <->
  exists c, In c (generated_by rawNumber features) /\ in_range c = true.
Proof.
  split.
  - intros H. exists (choose rawNumber features). split; [apply choose_generated|exact H].
  - intros (c & Hc & Hr).
    destruct (choose_plausible Math_exp Math_pow StringToNumber ObjectToNumber
                rawNumber features) as [H _].
    + intros E. assert (Hin : In c (List.filter in_range (generated_by rawNumber features)))
        by (apply filter_In; auto).
      rewrite E in Hin. destruct Hin.
    + apply filter_In in H. tauto.
Qed.

(** X8: without a positive [procedure_area] among the features (missing,
    zero, negative or not a number) no per-square-metre rule is applied:
    the result is the raw number, its exponential, its power of ten or its
    thousandfold. *)
Theorem choosePlausibleTotal_without_area (rawNumber : float) (features : json) :
  (0 <? area_of StringToNumber ObjectToNumber features)%float = false ->
  In (choose rawNumber features)
     [ {| n := rawNumber; rule := "raw" |};
       {| n := Math_exp rawNumber; rule := "exp" |};
       {| n := Math_pow 10 rawNumber; rule := "pow10" |};
       {| n := (rawNumber * 1000)%float; rule := "x1000" |} ] /\
  per_sqm (choose rawNumber features) = false.
Proof.
  intros E. pose proof (choose_generated rawNumber features) as H.
  unfold generated in H. rewrite E in H. cbn [app] in H. split; [exact H|].
  destruct H as [<-|[<-|[<-|[<-|[]]]]]; reflexivity.
Qed.
End ResolverResults.

(** * Further properties of the dispatcher *)

Section DispatcherResults.
Variable Math_exp : float -> float.
Variable Math_pow : float -> float -> float.
Variable StringToNumber : string -> float.
Variable ObjectToNumber : json -> float.
Variable JSON_parse : string -> option document.
Variable upstream : Type.
Variable https_request : upstream -> string -> json -> transport * upstream.
Variable MODEL_BASE : string.

Local Abbreviation world_of := (world upstream).
Local Abbreviation response := (response_of JSON_parse).
Local Abbreviation dispatch :=
  (tryAllShapes Math_exp Math_pow StringToNumber ObjectToNumber JSON_parse
                upstream https_request MODEL_BASE).
Local Abbreviation handler :=
  (api_predict Math_exp Math_pow StringToNumber ObjectToNumber JSON_parse
               upstream https_request MODEL_BASE).
Local Abbreviation choose :=
  (choosePlausibleTotal Math_exp Math_pow StringToNumber ObjectToNumber).
Local Abbreviation quiet_exchange := (quiet StringToNumber JSON_parse).

(** An exchange is passed over only when its response holds no numeric
    value at all. *)
Lemma quiet_no_numeric (a : attempt) :
  quiet_exchange a ->
  exists st doc, response (received a) = Some (inr (st, doc)) /\
                 deepFindNumber StringToNumber doc = None /\
                 forall x, ~ numeric_value StringToNumber doc x.
Proof.
  intros [Hy Hf]. unfold yields_number in Hy.
  destruct (response (received a)) as [[err|[st doc]]|] eqn:ER.
  - apply response_inl in ER. unfold failed in Hf. rewrite ER in Hf. discriminate.
  - exists st, doc. split; [reflexivity|].
    assert (E : deepFindNumber StringToNumber doc = None).
    { destruct (deepFindNumber StringToNumber doc) as [x|] eqn:EN; [|reflexivity].
      apply found_numeric in EN as [F _]. cbn in Hy. congruence. }
    split; [exact E|]. apply deepFindNumber_none_numeric. exact E.
  - apply response_None in ER. unfold failed in Hf. rewrite ER in Hf. discriminate.
Qed.

Lemma last_exchange (w w' : world_of) (init : list attempt) (a : attempt) :
  attempts upstream w' = attempts upstream w ++ init ++ [a] ->
  last (attempts upstream w') = Some a.
Proof. intros ->. rewrite !app_assoc. apply last_snoc. Qed.

(** X9: a result of [tryAllShapes] reports the last exchange made: its
    status, its response document, the number the extractor finds in that
    document, and the resolver's choice for that number, whose value is
    finite; without a number in the document the three fields are null. *)
Theorem tryAllShapes_reports_last (body : json) (w : world_of) (r : proxy_result) :
  fst (dispatch body w) = Some (inr r) ->
  exists a,
    last (attempts upstream (snd (dispatch body w))) = Some a /\
    response (received a) = Some (inr (status r, raw r)) /\
    predicted_price_raw r = deepFindNumber StringToNumber (raw r) /\
    match deepFindNumber StringToNumber (raw r) with
    | Some x =>
        predicted_price r = Some (n (choose x body)) /\
        used_rule r = Some (rule (choose x body)) /\
        JSNum.isFinite (n (choose x body)) = true
    | None => predicted_price r = None /\ used_rule r = None
    end.
Proof.
  intros E. destruct (tryAllShapes_run Math_exp Math_pow StringToNumber ObjectToNumber
                        JSON_parse upstream https_request MODEL_BASE body w)
    as (init & a & A & _ & _ & X).
  rewrite E in X. exists a. split; [eapply last_exchange; exact A|].
  destruct X as [(st & doc & x & ER & EN & EF & _ & ->)|(_ & Hq & st & doc & ER & ->)];
    cbn [status raw predicted_price_raw predicted_price used_rule].
  - split; [exact ER|]. rewrite EN. split; [reflexivity|].
    split; [reflexivity|]. split; [reflexivity|].
    apply (choose_finite Math_exp Math_pow StringToNumber ObjectToNumber x body EF).
  - split; [exact ER|].
    destruct (quiet_no_numeric a Hq) as (st' & doc' & ER' & EN & _).
    rewrite ER in ER'. injection ER' as <- <-. rewrite EN. auto.
Qed.

(** X10: [tryAllShapes] passes over an exchange only when no object of its
    response has a numeric entry value, under whatever key; a result
    without a price means that this held for all seven exchanges. *)
Theorem tryAllShapes_skips_empty (body : json) (w : world_of) :
  exists init a,
    attempts upstream (snd (dispatch body w)) = attempts upstream w ++ init ++ [a] /\
    (forall b, In b init ->
       exists st doc, response (received b) = Some (inr (st, doc)) /\
                      forall x, ~ numeric_value StringToNumber doc x) /\
    (forall r, fst (dispatch body w) = Some (inr r) -> predicted_price r = None ->
       length init = 6 /\ forall x, ~ numeric_value StringToNumber (raw r) x).
Proof.
  destruct (tryAllShapes_run Math_exp Math_pow StringToNumber ObjectToNumber
              JSON_parse upstream https_request MODEL_BASE body w)
    as (init & a & A & _ & Q & X).
  exists init, a. split; [exact A|]. split.
  - intros b Hb. rewrite List.Forall_forall in Q.
    destruct (quiet_no_numeric b (Q b Hb)) as (st & doc & ER & _ & Hno). eauto.
  - intros r E Hp. rewrite E in X.
    destruct X as [(st & doc & x & _ & _ & _ & _ & ->)|(L & Hq & st & doc & ER & ->)];
      [discriminate|].
    split; [exact L|]. cbn [raw].
    destruct (quiet_no_numeric a Hq) as (st' & doc' & ER' & _ & Hno).
    rewrite ER in ER'. injection ER' as <- <-. exact Hno.
Qed.

(** The status that [postJson] resolves with: [res.statusCode || 200]. *)
Definition status_or_200 (statusCode : option nat) : nat :=
  match statusCode with
  | Some (S k) => S k
  | _ => 200
  end.

End DispatcherResults.

(** * The recommendation proxy *)

Section RecommenderResults.
Variable JSON_parse : string -> option document.
Variable upstream : Type.
Variable https_request : upstream -> string -> json -> transport * upstream.
Variable RECOMMENDER_URL : string.

Local Abbreviation recommend :=
  (api_recommend JSON_parse upstream https_request RECOMMENDER_URL).

Lemma or_empty_object_idempotent (v : json) :
  or_empty_object (or_empty_object v) = or_empty_object v.
Proof. unfold or_empty_object. destruct (truthy v) eqn:E; [rewrite E|]; reflexivity. Qed.

End RecommenderResults.

(** * Regular expressions: what the matcher decides *)

Module RegexFacts.

Local Open Scope string_scope.
Local Arguments String.append : simpl nomatch.

Lemma append_nil_r (s : string) : s ++ EmptyString = s.
Proof. induction s as [|c s IH]; cbn; [reflexivity|]. rewrite IH. reflexivity. Qed.

Lemma append_assoc (s t u : string) : (s ++ t) ++ u = s ++ t ++ u.
Proof. induction s as [|c s IH]; cbn; [reflexivity|]. rewrite IH. reflexivity. Qed.

Lemma append_empty (s t : string) :
  s ++ t = EmptyString -> s = EmptyString /\ t = EmptyString.
Proof. destruct s; cbn; [auto|discriminate]. Qed.

Lemma append_cons (s t : string) (a : ascii) (u : string) :
  s ++ t = String a u ->
  (s = EmptyString /\ t = String a u) \/ exists s', s = String a s' /\ u = s' ++ t.
Proof.
  destruct s as [|c s]; cbn; [auto|].
  intros [= -> <-]. right. eauto.
Qed.

(** The strings a pattern stands for. *)
Inductive lang (ignoreCase : bool) : regex -> string -> Prop :=
| lang_eps : lang ignoreCase Eps EmptyString
| lang_chr (c a : ascii) :
    chr_eqb ignoreCase c a = true -> lang ignoreCase (Chr c) (String a EmptyString)
| lang_class (p : ascii -> bool) (a : ascii) :
    p a = true -> lang ignoreCase (Class p) (String a EmptyString)
| lang_seq (r1 r2 : regex) (s1 s2 : string) :
    lang ignoreCase r1 s1 -> lang ignoreCase r2 s2 ->
    lang ignoreCase (Seq r1 r2) (s1 ++ s2)
| lang_alt_l (r1 r2 : regex) (s : string) :
    lang ignoreCase r1 s -> lang ignoreCase (Alt r1 r2) s
| lang_alt_r (r1 r2 : regex) (s : string) :
    lang ignoreCase r2 s -> lang ignoreCase (Alt r1 r2) s
| lang_opt_none (r : regex) : lang ignoreCase (Opt r) EmptyString
| lang_opt_some (r : regex) (s : string) :
    lang ignoreCase r s -> lang ignoreCase (Opt r) s
| lang_plus_one (r : regex) (s : string) :
    lang ignoreCase r s -> lang ignoreCase (Plus r) s
| lang_plus_more (r : regex) (s1 s2 : string) :
    lang ignoreCase r s1 -> lang ignoreCase (Plus r) s2 ->
    lang ignoreCase (Plus r) (s1 ++ s2).

Section Matcher.
Variable ignoreCase : bool.

Local Abbreviation L := (lang ignoreCase).

Lemma lang_empty_nullable (r : regex) (s : string) :
  L r s -> s = EmptyString -> nullable r = true.
Proof.
  induction 1 as [|c a H|p a H|r1 r2 s1 s2 _ IH1 _ IH2|r1 r2 s _ IH|r1 r2 s _ IH
                 | |r s _ IH|r s _ IH|r s1 s2 _ IH1 _ IH2]; intros E; cbn;
    try discriminate; try reflexivity.
  - apply append_empty in E as [-> ->]. rewrite IH1, IH2; reflexivity.
  - rewrite IH by assumption. reflexivity.
  - rewrite IH by assumption. apply orb_true_r.
  - auto.
  - apply append_empty in E as [-> ->]. auto.
Qed.

Lemma nullable_lang (r : regex) : nullable r = true <-> L r EmptyString.
Proof.
  split; [|intros H; eapply lang_empty_nullable; eauto].
  induction r as [| |c|p|r1 IH1 r2 IH2|r1 IH1 r2 IH2|r IH|r IH]; cbn;
    try discriminate; intros H.
  - constructor.
  - apply andb_true_iff in H as [H1 H2].
    change EmptyString with (EmptyString ++ EmptyString). constructor; auto.
  - apply orb_true_iff in H as [H|H]; [apply lang_alt_l|apply lang_alt_r]; auto.
  - constructor.
  - apply lang_plus_one. auto.
Qed.

(** A non-empty match of [r+] starts with a non-empty match of [r], or
    with an empty one that can be left out. *)
Lemma lang_plus_cons (r : regex) (s : string) :
  L (Plus r) s ->
  forall a u, s = String a u ->
    exists s1 s2, u = s1 ++ s2 /\ L r (String a s1) /\ L (Opt (Plus r)) s2.
Proof.
  intros H. remember (Plus r) as q eqn:Eq.
  induction H as [|c b H|p b H|r1 r2 s1 s2 _ _ _ _|r1 r2 s _ _|r1 r2 s _ _
                 | |r' s _ _|r' s H _|r' s1 s2 H1 _ H2 IH2]; try discriminate.
  - injection Eq as ->. intros a u ->. exists u, EmptyString.
    rewrite append_nil_r. repeat split; [assumption|constructor].
  - injection Eq as ->. intros a u E.
    apply append_cons in E as [[-> ->]|(s' & -> & ->)].
    + apply IH2; reflexivity.
    + exists s', s2. repeat split; [assumption|]. apply lang_opt_some. assumption.
Qed.

Lemma deriv_lang (r : regex) :
  forall a s, L (deriv ignoreCase a r) s <-> L r (String a s).
Proof.
  induction r as [| |c|p|r1 IH1 r2 IH2|r1 IH1 r2 IH2|r IH|r IH]; intros a s;
    cbn [deriv].
  - split; intros H; inversion H.
  - split; intros H; inversion H.
  - destruct (chr_eqb ignoreCase c a) eqn:E; split; intros H.
    + inversion H; subst. constructor. assumption.
    + inversion H; subst. constructor.
    + inversion H.
    + inversion H; subst. congruence.
  - destruct (p a) eqn:E; split; intros H.
    + inversion H; subst. constructor. assumption.
    + inversion H; subst. constructor.
    + inversion H.
    + inversion H; subst. congruence.
  - assert (Hseq : L (Seq (deriv ignoreCase a r1) r2) s ->
                   L (Seq r1 r2) (String a s)).
    { intros H. inversion H as [| | |q1 q2 s1 s2 H1 H2| | | | | |]; subst.
      apply IH1 in H1. change (String a (s1 ++ s2)) with (String a s1 ++ s2).
      constructor; assumption. }
    assert (Hback : L (Seq r1 r2) (String a s) ->
                    L (Seq (deriv ignoreCase a r1) r2) s \/
                    (nullable r1 = true /\ L (deriv ignoreCase a r2) s)).
    { intros H. inversion H as [| | |q1 q2 s1 s2 H1 H2 E1 E2| | | | | |]; subst.
      apply append_cons in E2 as [[-> ->]|(s' & -> & ->)].
      - right. split; [apply nullable_lang; assumption|apply IH2; assumption].
      - left. constructor; [apply IH1; assumption|assumption]. }
    destruct (nullable r1) eqn:N; split; intros H.
    + inversion H; subst; [auto|].
      change (String a s) with (EmptyString ++ String a s).
      constructor; [apply nullable_lang; assumption|apply IH2; assumption].
    + destruct (Hback H) as [H'|[_ H']]; [apply lang_alt_l|apply lang_alt_r]; assumption.
    + auto.
    + destruct (Hback H) as [H'|[N' _]]; [assumption|discriminate].
  - split; intros H.
    + inversion H; subst; [apply lang_alt_l; apply IH1|apply lang_alt_r; apply IH2];
        assumption.
    + inversion H; subst; [apply lang_alt_l; apply IH1|apply lang_alt_r; apply IH2];
        assumption.
  - split; intros H.
    + apply lang_opt_some, IH. assumption.
    + inversion H; subst. apply IH. assumption.
  - split; intros H.
    + inversion H as [| | |q1 q2 s1 s2 H1 H2| | | | | |]; subst.
      apply IH in H1. inversion H2; subst.
      * rewrite append_nil_r. apply lang_plus_one. assumption.
      * change (String a (s1 ++ s2)) with (String a s1 ++ s2).
        apply lang_plus_more; assumption.
    + destruct (lang_plus_cons r _ H a s eq_refl) as (s1 & s2 & -> & H1 & H2).
      constructor; [apply IH; assumption|assumption].
Qed.

Lemma matches_lang (r : regex) (s : string) :
  matches ignoreCase r s = true <-> L r s.
Proof.
  revert r. induction s as [|a s IH]; intros r; cbn [matches].
  - apply nullable_lang.
  - rewrite IH. apply deriv_lang.
Qed.

Lemma matches_prefix_lang (r : regex) (s : string) :
  matches_prefix ignoreCase r s = true <-> exists p t, s = p ++ t /\ L r p.
Proof.
  revert r. induction s as [|a s IH]; intros r; cbn [matches_prefix].
  - rewrite orb_false_r, nullable_lang. split.
    + intros H. exists EmptyString, EmptyString. auto.
    + intros (p & t & E & H). symmetry in E. apply append_empty in E as [-> _].
      assumption.
  - rewrite orb_true_iff, nullable_lang, IH. split.
    + intros [H|(p & t & -> & H)].
      * exists EmptyString, (String a s). auto.
      * exists (String a p), t. split; [reflexivity|]. apply deriv_lang. assumption.
    + intros (p & t & E & H). symmetry in E.
      apply append_cons in E as [[-> _]|(p' & -> & ->)]; [auto|].
      right. exists p', t. split; [reflexivity|]. apply deriv_lang. assumption.
Qed.

Lemma test_lang (r : regex) (s : string) :
  test ignoreCase r s = true <-> exists u p t, s = u ++ p ++ t /\ L r p.
Proof.
  induction s as [|a s IH]; cbn [test].
  - rewrite orb_false_r, matches_prefix_lang. split.
    + intros (p & t & E & H). exists EmptyString, p, t. auto.
    + intros (u & p & t & E & H). symmetry in E.
      apply append_empty in E as [-> E]. eauto.
  - rewrite orb_true_iff, matches_prefix_lang, IH. split.
    + intros [(p & t & E & H)|(u & p & t & -> & H)].
      * exists EmptyString, p, t. auto.
      * exists (String a u), p, t. auto.
    + intros (u & p & t & E & H). symmetry in E.
      apply append_cons in E as [[-> E]|(u' & -> & ->)]; [left|right]; eauto.
Qed.
End Matcher.

(** [s.toLowerCase()] on ASCII: the canonical form under the [/i] flag. *)
Fixpoint lowercase (s : string) : string :=
  match s with
  | EmptyString => EmptyString
  | String c s' => String (lower c) (lowercase s')
  end.

Lemma lowercase_append (s t : string) :
  lowercase (s ++ t) = lowercase s ++ lowercase t.
Proof. induction s as [|c s IH]; cbn; [reflexivity|]. rewrite IH. reflexivity. Qed.

Lemma lowercase_split (s a b : string) :
  lowercase s = a ++ b ->
  exists a' b', s = a' ++ b' /\ lowercase a' = a /\ lowercase b' = b.
Proof.
  revert s. induction a as [|c a IH]; intros s E.
  - exists EmptyString, s. auto.
  - destruct s as [|d s]; [discriminate|]. cbn in E. injection E as Ec E.
    destruct (IH s E) as (a' & b' & -> & <- & <-).
    exists (String d a'), b'. cbn. rewrite Ec. auto.
Qed.

(** Under the [/i] flag a literal stands for the strings with its
    lower-case form. *)
Lemma lang_lit (w p : string) :
  lang true (lit w) p <-> lowercase p = lowercase w.
Proof.
  revert p. induction w as [|c w IH]; intros p; cbn [lit lowercase].
  - split.
    + intros H. inversion H. reflexivity.
    + destruct p; [constructor|discriminate].
  - split.
    + intros H. inversion H as [| | |q1 q2 s1 s2 H1 H2| | | | | |]; subst.
      inversion H1 as [|c' a Hc| | | | | | | |]; subst. cbn.
      apply IH in H2. rewrite H2. unfold chr_eqb in Hc.
      apply Ascii.eqb_eq in Hc. rewrite Hc. reflexivity.
    + destruct p as [|a p]; [discriminate|]. cbn. intros [= Ea E].
      change (String a p) with (String a EmptyString ++ p).
      constructor; [|apply IH; assumption].
      constructor. unfold chr_eqb. apply Ascii.eqb_eq. congruence.
Qed.

Lemma prefix_append (w s : string) :
  String.prefix w s = true <-> exists t, s = w ++ t.
Proof.
  revert s. induction w as [|c w IH]; intros s.
  - split; [intros _; exists s; reflexivity|]. intros _. destruct s; reflexivity.
  - destruct s as [|d s]; cbn.
    + split; [discriminate|]. intros [t E]. discriminate.
    + destruct (ascii_dec c d) as [->|N].
      * rewrite IH. split; intros [t E]; exists t; congruence.
      * split; [discriminate|]. intros [t E]. congruence.
Qed.

Lemma includes_append (w s : string) :
  includes w s = true <-> exists u t, s = u ++ w ++ t.
Proof.
  induction s as [|a s IH]; cbn [includes].
  - rewrite orb_false_r, prefix_append. split.
    + intros [t E]. exists EmptyString, t. exact E.
    + intros (u & t & E). symmetry in E. apply append_empty in E as [-> E]. eauto.
  - rewrite orb_true_iff, prefix_append, IH. split.
    + intros [[t E]|(u & t & ->)].
      * exists EmptyString, t. exact E.
      * exists (String a u), t. reflexivity.
    + intros (u & t & E). symmetry in E.
      apply append_cons in E as [[-> E]|(u' & -> & ->)]; [left|right]; eauto.
Qed.

(** A match of a literal somewhere in [s], case ignored, is an occurrence
    of the lower-case literal in the lower-case form of [s]. *)
Lemma test_lit (w s : string) :
  lowercase w = w ->
  test true (lit w) s = includes w (lowercase s).
Proof.
  intros Hw. apply eq_true_iff_eq. rewrite test_lang, includes_append. split.
  - intros (u & p & t & -> & H). apply lang_lit in H.
    exists (lowercase u), (lowercase t).
    rewrite !lowercase_append, H, Hw. reflexivity.
  - intros (u & t & E).
    apply lowercase_split in E as (u' & r & -> & _ & E).
    apply lowercase_split in E as (p & t' & -> & E & _).
    exists u', p, t'. split; [reflexivity|]. apply lang_lit. congruence.
Qed.

Lemma includes_middle (w u t : string) : includes w (u ++ w ++ t) = true.
Proof. apply includes_append. eauto. Qed.

Lemma lang_seq_inv (ignoreCase : bool) (r1 r2 : regex) (s : string) :
  lang ignoreCase (Seq r1 r2) s ->
  exists s1 s2, s = s1 ++ s2 /\ lang ignoreCase r1 s1 /\ lang ignoreCase r2 s2.
Proof. intros H. inversion H; subst. eauto. Qed.

Lemma lang_alt_inv (ignoreCase : bool) (r1 r2 : regex) (s : string) :
  lang ignoreCase (Alt r1 r2) s -> lang ignoreCase r1 s \/ lang ignoreCase r2 s.
Proof. intros H. inversion H; subst; auto. Qed.

(** What the hit pattern stands for: every alternative holds one of four
    words. *)
Lemma hit_pattern_word (p : string) :
  lang true hit_pattern p ->
  exists w, In w ["price"; "predict"; "value"; "amount"] /\
            includes w (lowercase p) = true.
Proof.
  unfold hit_pattern. intros H.
  apply lang_alt_inv in H as [H|H].
  - exists "price". split; [cbn; auto|].
    apply lang_seq_inv in H as (s1 & r1 & -> & _ & H).
    apply lang_seq_inv in H as (s2 & r2 & -> & _ & H).
    apply lang_seq_inv in H as (s3 & s4 & -> & _ & H).
    apply lang_lit in H. apply includes_append.
    exists (lowercase (s1 ++ s2 ++ s3)), EmptyString.
    rewrite !lowercase_append, H, !append_assoc. reflexivity.
  - apply lang_alt_inv in H as [H|H].
    { exists "price". split; [cbn; auto|]. apply lang_lit in H. rewrite H.
      reflexivity. }
    apply lang_alt_inv in H as [H|H].
    { exists "predict". split; [cbn; auto|].
      apply lang_seq_inv in H as (s1 & r1 & -> & Ha & H).
      apply lang_seq_inv in H as (s2 & s3 & -> & Hb & H).
      apply lang_lit in Ha, Hb. rewrite !lowercase_append, Ha, Hb.
      apply lang_alt_inv in H as [H|H]; apply lang_lit in H; rewrite H; reflexivity. }
    apply lang_alt_inv in H as [H|H]; apply lang_lit in H.
    + exists "value". split; [cbn; auto|]. rewrite H. reflexivity.
    + exists "amount". split; [cbn; auto|]. rewrite H. reflexivity.
Qed.

Lemma word_hit_pattern (w p : string) :
  In w ["price"; "predict"; "value"; "amount"] -> lowercase p = w ->
  lang true hit_pattern p.
Proof.
  intros Hw E. unfold hit_pattern.
  destruct Hw as [<-|[<-|[<-|[<-|[]]]]].
  - apply lang_alt_r, lang_alt_l. apply lang_lit. exact E.
  - apply lang_alt_r, lang_alt_r, lang_alt_l.
    change "predict" with ("pred" ++ "i" ++ "ct") in E.
    apply lowercase_split in E as (a & r & -> & Ea & E).
    apply lowercase_split in E as (b & c & -> & Eb & Ec).
    constructor; [apply lang_lit; exact Ea|].
    constructor; [apply lang_lit; exact Eb|].
    apply lang_alt_l. apply lang_lit. exact Ec.
  - apply lang_alt_r, lang_alt_r, lang_alt_r, lang_alt_l. apply lang_lit. exact E.
  - apply lang_alt_r, lang_alt_r, lang_alt_r, lang_alt_r. apply lang_lit. exact E.
Qed.


(** Without the [/i] flag a literal stands for itself. *)
Lemma lang_lit_exact (w p : string) : lang false (lit w) p <-> p = w.
Proof.
  revert p. induction w as [|c w IH]; intros p; cbn [lit].
  - split.
    + intros H. inversion H. reflexivity.
    + intros ->. constructor.
  - split.
    + intros H. apply lang_seq_inv in H as (s1 & s2 & -> & H1 & H2).
      inversion H1 as [|c' a Hc| | | | | | | |]; subst.
      apply IH in H2 as ->. unfold chr_eqb in Hc. apply Ascii.eqb_eq in Hc as ->.
      reflexivity.
    + intros ->. change (String c w) with (String c EmptyString ++ w).
      constructor; [|apply IH; reflexivity].
      constructor. unfold chr_eqb. apply Ascii.eqb_refl.
Qed.

(** All code units of [s] are in the class [p]. *)
Fixpoint all_units (p : ascii -> bool) (s : string) : bool :=
  match s with
  | EmptyString => true
  | String c s' => p c && all_units p s'
  end.

Lemma all_units_append (p : ascii -> bool) (s t : string) :
  all_units p (s ++ t) = all_units p s && all_units p t.
Proof.
  induction s as [|c s IH]; cbn; [reflexivity|]. rewrite IH. apply andb_assoc.
Qed.

Lemma lang_plus_class (ignoreCase : bool) (p : ascii -> bool) (s : string) :
  lang ignoreCase (Plus (Class p)) s <-> s <> EmptyString /\ all_units p s = true.
Proof.
  split.
  - intros H. remember (Plus (Class p)) as r eqn:Er.
    induction H as [|c b H|q b H|r1 r2 s1 s2 _ _ _ _|r1 r2 s _ _|r1 r2 s _ _
                   | |r' s _ _|r' s H _|r' s1 s2 H1 _ H2 IH2]; try discriminate.
    + injection Er as ->. inversion H as [| |q a Hq| | | | | | |]; subst. cbn.
      rewrite Hq. split; [discriminate|auto].
    + injection Er as ->. inversion H1 as [| |q a Hq| | | | | | |]; subst.
      destruct (IH2 eq_refl) as [_ IH].
      cbn. rewrite Hq, IH. split; [discriminate|auto].
  - intros [N H]. induction s as [|c s IH]; [congruence|].
    cbn in H. apply andb_true_iff in H as [Hc Hs].
    destruct s as [|d s].
    + apply lang_plus_one. constructor. exact Hc.
    + change (String c (String d s)) with (String c EmptyString ++ String d s).
      apply lang_plus_more; [constructor; exact Hc|]. apply IH; [discriminate|exact Hs].
Qed.

Lemma length_append (s t : string) :
  String.length (s ++ t) = String.length s + String.length t.
Proof. induction s as [|c s IH]; cbn; [reflexivity|]. rewrite IH. reflexivity. Qed.

Lemma substring_prefix (s t : string) : substring 0 (String.length s) (s ++ t) = s.
Proof.
  induction s as [|c s IH]; cbn.
  - destruct t; reflexivity.
  - rewrite IH. reflexivity.
Qed.

End RegexFacts.

(** X13: a key is a hit key exactly when it holds one of the words
    [price], [predict], [value] and [amount], in whatever case and wherever
    in the key. *)
Theorem keyHit_words (k : string) :
  keyHit k
  = includes "price" (RegexFacts.lowercase k)
    || includes "predict" (RegexFacts.lowercase k)
    || includes "value" (RegexFacts.lowercase k)
    || includes "amount" (RegexFacts.lowercase k).
Proof.
  apply eq_true_iff_eq. unfold keyHit.
  rewrite RegexFacts.test_lang, !orb_true_iff. split.
  - intros (u & p & t & -> & H).
    apply RegexFacts.hit_pattern_word in H as (w & Hw & Hi).
    apply RegexFacts.includes_append in Hi as (u' & t' & E).
    assert (Hin : includes w (RegexFacts.lowercase (u ++ p ++ t)) = true).
    { rewrite !RegexFacts.lowercase_append, E. apply RegexFacts.includes_append.
      exists (RegexFacts.lowercase u ++ u')%string, (t' ++ RegexFacts.lowercase t)%string.
      rewrite !RegexFacts.append_assoc. reflexivity. }
    destruct Hw as [<-|[<-|[<-|[<-|[]]]]]; auto.
  - intros H.
    assert (Hw : exists w, In w ["price"; "predict"; "value"; "amount"]%string /\
                           includes w (RegexFacts.lowercase k) = true).
    { destruct H as [[[H|H]|H]|H]; eexists; (split; [|exact H]); cbn; auto. }
    destruct Hw as (w & Hw & Hi).
    apply RegexFacts.includes_append in Hi as (u & t & E).
    apply RegexFacts.lowercase_split in E as (u' & r & -> & _ & E).
    apply RegexFacts.lowercase_split in E as (p & t' & -> & E & _).
    exists u', p, t'. split; [reflexivity|].
    eapply RegexFacts.word_hit_pattern; eauto.
Qed.

(** * Properties of the chat relay *)

Module ChatFacts.
Import Chat.

(** ** Strings *)

Lemma trimEnd_cons (c : ascii) (s : string) :
  trimEnd (String c s)
  = match trimEnd s with
    | EmptyString => if white c then EmptyString else String c EmptyString
    | t => String c t
    end.
Proof. reflexivity. Qed.

Lemma trimEnd_idempotent (s : string) : trimEnd (trimEnd s) = trimEnd s.
Proof.
  induction s as [|c s IH]; [reflexivity|]. rewrite trimEnd_cons.
  destruct (trimEnd s) as [|d t] eqn:E.
  - destruct (white c) eqn:W; [reflexivity|]. rewrite trimEnd_cons. cbn [trimEnd].
    rewrite W. reflexivity.
  - rewrite trimEnd_cons, IH. reflexivity.
Qed.

(** The first code unit of [s], if any, is no white space. *)
Definition starts_black (s : string) : Prop :=
  match s with
  | EmptyString => True
  | String c _ => white c = false
  end.

Lemma trimStart_black (s : string) : starts_black (trimStart s).
Proof.
  induction s as [|c s IH]; cbn [trimStart]; [exact I|].
  destruct (white c) eqn:W; [exact IH|exact W].
Qed.

Lemma trimStart_fixed (s : string) : starts_black s -> trimStart s = s.
Proof. destruct s as [|c s]; cbn; [reflexivity|]. intros ->. reflexivity. Qed.

Lemma trimEnd_black (s : string) : starts_black s -> starts_black (trimEnd s).
Proof.
  destruct s as [|c s]; [auto|]. rewrite trimEnd_cons. cbn [starts_black]. intros W.
  destruct (trimEnd s); [rewrite W|]; exact W.
Qed.

Lemma trim_black (s : string) : starts_black (trim s).
Proof. apply trimEnd_black, trimStart_black. Qed.

Lemma trim_idempotent (s : string) : trim (trim s) = trim s.
Proof.
  unfold trim. rewrite (trimStart_fixed (trimEnd (trimStart s))).
  - apply trimEnd_idempotent.
  - apply trimEnd_black, trimStart_black.
Qed.

Lemma nonempty_true (s : string) : nonempty s = true <-> s <> EmptyString.
Proof.
  unfold nonempty. rewrite negb_true_iff. apply String.eqb_neq.
Qed.

Lemma nonempty_false (s : string) : nonempty s = false <-> s = EmptyString.
Proof.
  unfold nonempty. rewrite negb_false_iff. apply String.eqb_eq.
Qed.

(** ** Objects *)

(** The keys of an object are distinct. *)
Definition distinct {V : Type} (o : list (string * V)) : Prop :=
  NoDup (map fst o).

Section Objects.
Context {V : Type}.
Implicit Types (o : list (string * V)) (k : string) (v : V).

Lemma own_In k v o : own k o = Some v -> In (k, v) o.
Proof.
  induction o as [|[k' v'] o IH]; cbn [own]; [discriminate|].
  destruct (String.eqb_spec k k') as [->|N].
  - intros [= ->]. left. reflexivity.
  - intros H. right. auto.
Qed.

Lemma own_None k o : own k o = None <-> ~ In k (map fst o).
Proof.
  induction o as [|[k' v'] o IH]; cbn [own map fst In]; [tauto|].
  destruct (String.eqb_spec k k') as [->|N].
  - split; [discriminate|]. intros H. destruct H. auto.
  - rewrite IH. split; [intros H [E|H']; [congruence|auto]|tauto].
Qed.

Lemma In_own k v o : distinct o -> In (k, v) o -> own k o = Some v.
Proof.
  unfold distinct. induction o as [|[k' v'] o IH]; cbn [own map fst]; [intros _ []|].
  intros ND [E|H].
  - injection E as -> ->. rewrite String.eqb_refl. reflexivity.
  - apply NoDup_cons in ND as [Hk ND].
    destruct (String.eqb_spec k k') as [->|N]; [|auto].
    destruct Hk. apply list_elem_of_In. apply (in_map fst) in H. exact H.
Qed.

Lemma own_define k k' v o :
  own k' (define k v o) = if String.eqb k' k then Some v else own k' o.
Proof.
  induction o as [|[k0 v0] o IH]; cbn [define own].
  - reflexivity.
  - destruct (String.eqb_spec k k0) as [->|N]; cbn [own].
    + destruct (String.eqb_spec k' k0); reflexivity.
    + rewrite IH. destruct (String.eqb_spec k' k0) as [->|N'];
        [|reflexivity].
      destruct (String.eqb_spec k0 k); [congruence|reflexivity].
Qed.

Lemma own_assign k k' v o :
  own k' (assign k v o)
  = if String.eqb k "__proto__" then own k' o
    else if String.eqb k' k then Some v else own k' o.
Proof.
  unfold assign. destruct (String.eqb k "__proto__"); [reflexivity|apply own_define].
Qed.

Lemma define_keys k v o :
  map fst (define k v o)
  = if own k o is Some _ then map fst o else map fst o ++ [k].
Proof.
  induction o as [|[k0 v0] o IH]; cbn [define own map fst]; [reflexivity|].
  destruct (String.eqb_spec k k0) as [->|N]; cbn [map fst]; [reflexivity|].
  rewrite IH. destruct (own k o); reflexivity.
Qed.

Lemma distinct_define k v o : distinct o -> distinct (define k v o).
Proof.
  unfold distinct. rewrite define_keys. destruct (own k o) eqn:E; [auto|].
  intros ND. apply NoDup_app. split; [exact ND|]. split.
  - intros x Hx [<-|[]]%list_elem_of_In. apply own_None in E. apply E.
    apply list_elem_of_In. exact Hx.
  - apply NoDup_singleton.
Qed.

Lemma distinct_assign k v o : distinct o -> distinct (assign k v o).
Proof. unfold assign. destruct (String.eqb k "__proto__"); auto using distinct_define. Qed.

Lemma define_In k v o k' v' :
  In (k', v') (define k v o) -> (k' = k /\ v' = v) \/ In (k', v') o.
Proof.
  induction o as [|[k0 v0] o IH]; cbn [define].
  - intros [[= <- <-]|[]]. auto.
  - destruct (String.eqb_spec k k0) as [->|N].
    + intros [[= <- <-]|H]; [auto|right; right; exact H].
    + intros [E|H]; [right; left; exact E|].
      destruct (IH H) as [?|?]; [auto|right; right; assumption].
Qed.

Lemma define_nonempty k v o : define k v o <> [].
Proof. destruct o as [|[k0 v0] o]; cbn; [discriminate|]. destruct (String.eqb k k0); discriminate. Qed.

(** [Object.entries] lists the properties, each once. *)
Lemma insert_index_Permutation (i : N) (kv : string * V) (l : list (N * (string * V))) :
  insert_index i kv l ≡ₚ (i, kv) :: l.
Proof.
  induction l as [|[j kv'] l IH]; cbn [insert_index]; [reflexivity|].
  destruct (i <? j)%N; [reflexivity|]. rewrite IH. apply Permutation_swap.
Qed.

Lemma Object_entries_Permutation o : Object_entries o ≡ₚ o.
Proof.
  unfold Object_entries. induction o as [|[k v] o IH]; [reflexivity|].
  cbn [index_properties List.filter]. unfold named at 1. cbn [fst].
  destruct (array_index k) as [i|].
  - rewrite insert_index_Permutation. cbn [map snd app]. rewrite IH. reflexivity.
  - rewrite <- Permutation_middle. rewrite IH. reflexivity.
Qed.

Lemma Object_entries_In o (kv : string * V) : In kv (Object_entries o) <-> In kv o.
Proof.
  rewrite <- !list_elem_of_In. rewrite (Object_entries_Permutation o). reflexivity.
Qed.

Lemma entries_member o (kv : string * V) : In kv o -> In kv (Object_entries o).
Proof. apply Object_entries_In. Qed.

Lemma member_entries o (kv : string * V) : In kv (Object_entries o) -> In kv o.
Proof. apply Object_entries_In. Qed.

Lemma Object_entries_distinct o : distinct o -> distinct (Object_entries o).
Proof.
  unfold distinct. intros ND.
  rewrite (fmap_Permutation fst _ _ (Object_entries_Permutation o)). exact ND.
Qed.

Lemma Object_entries_own k o : distinct o -> own k (Object_entries o) = own k o.
Proof.
  intros D. destruct (own k o) as [v|] eqn:E.
  - apply In_own; [apply Object_entries_distinct; exact D|].
    apply entries_member, own_In. exact E.
  - apply own_None. apply own_None in E. intros H. apply E.
    apply in_map_iff in H as (kv & <- & H). apply in_map, member_entries. exact H.
Qed.

Lemma Object_entries_nil o : Object_entries o = [] <-> o = [].
Proof.
  split; [|intros ->; reflexivity].
  intros E. pose proof (Object_entries_Permutation o) as P. rewrite E in P.
  apply Permutation_nil. exact P.
Qed.

(** A copy of properties one by one: later ones win. *)
Lemma fold_define_own (es : list (string * V)) :
  forall acc k, distinct es ->
    own k (fold_left (fun o kv => define (fst kv) (snd kv) o) es acc)
    = match own k es with
      | Some v => Some v
      | None => own k acc
      end.
Proof.
  unfold distinct. induction es as [|[k0 v0] es IH]; intros acc k ND; [reflexivity|].
  cbn [fold_left fst snd own map] in *. apply NoDup_cons in ND as [Hk ND].
  rewrite IH by exact ND. rewrite own_define.
  destruct (String.eqb_spec k k0) as [->|N]; [|reflexivity].
  assert (E : own k0 es = None)
    by (apply own_None; intros H; apply Hk, list_elem_of_In, H).
  rewrite E. reflexivity.
Qed.

Lemma fold_define_distinct (es : list (string * V)) :
  forall acc, distinct acc ->
    distinct (fold_left (fun o kv => define (fst kv) (snd kv) o) es acc).
Proof.
  induction es as [|[k0 v0] es IH]; intros acc D; cbn [fold_left]; [exact D|].
  apply IH, distinct_define, D.
Qed.

Lemma fold_define_In (es : list (string * V)) :
  forall acc kv,
    In kv (fold_left (fun o kv => define (fst kv) (snd kv) o) es acc) ->
    In kv es \/ In kv acc.
Proof.
  induction es as [|[k0 v0] es IH]; intros acc [k v] H; cbn [fold_left] in H; [auto|].
  apply IH in H as [H|H]; [left; right; exact H|].
  cbn [fst snd] in H. apply define_In in H as [[-> ->]|H]; [left; left; reflexivity|auto].
Qed.

Lemma distinct_nil : distinct (@nil (string * V)).
Proof. constructor. Qed.

(** [{ ...a, ...b }]: the properties of [b], and those of [a] that [b]
    does not have. *)
Lemma spread_own (a b : list (string * V)) k :
  distinct a -> distinct b ->
  own k (spread a b) = match own k b with
                       | Some v => Some v
                       | None => own k a
                       end.
Proof.
  intros Da Db. unfold spread. rewrite fold_left_app.
  rewrite fold_define_own by (apply Object_entries_distinct; exact Db).
  rewrite fold_define_own by (apply Object_entries_distinct; exact Da).
  rewrite !Object_entries_own by assumption.
  destruct (own k b); [reflexivity|]. destruct (own k a); reflexivity.
Qed.

Lemma spread_overrides (a b : list (string * V)) k v :
  distinct b -> own k b = Some v -> own k (spread a b) = Some v.
Proof.
  intros Db E. unfold spread. rewrite fold_left_app.
  rewrite fold_define_own by (apply Object_entries_distinct; exact Db).
  rewrite Object_entries_own by assumption. rewrite E. reflexivity.
Qed.

Lemma spread_distinct (a b : list (string * V)) : distinct (spread a b).
Proof. apply fold_define_distinct, distinct_nil. Qed.

Lemma spread_In (a b : list (string * V)) kv : In kv (spread a b) -> In kv a \/ In kv b.
Proof.
  intros H. apply fold_define_In in H as [H|[]].
  apply in_app_iff in H as [H|H]; apply member_entries in H; auto.
Qed.

Lemma fold_define_nonempty (es : list (string * V)) :
  forall acc, acc <> [] ->
    fold_left (fun o kv => define (fst kv) (snd kv) o) es acc <> [].
Proof.
  induction es as [|[k0 v0] es IH]; intros acc N; cbn [fold_left]; [exact N|].
  apply IH, define_nonempty.
Qed.

Lemma spread_nil (a b : list (string * V)) : spread a b = [] <-> a = [] /\ b = [].
Proof.
  split.
  - unfold spread. intros E.
    destruct (Object_entries a ++ Object_entries b) as [|[k v] es] eqn:Ees.
    + apply app_eq_nil in Ees as [Ea Eb]. split; apply Object_entries_nil; assumption.
    + exfalso. cbn [fold_left] in E. revert E. apply fold_define_nonempty, define_nonempty.
  - intros [-> ->]. reflexivity.
Qed.
End Objects.


(** ** [sanitize] *)

(** An object that [sanitize] leaves as it is: distinct keys other than
    [__proto__], values that are trimmed and not empty. *)
Definition clean (p : list (string * string)) : Prop :=
  distinct p /\
  forall k s, In (k, s) p ->
    nonempty s = true /\ trim s = s /\ k <> "__proto__"%string.

Definition strings (p : list (string * string)) : list (string * json) :=
  map (fun kv => (fst kv, JStr (snd kv))) p.

Lemma strings_own (p : list (string * string)) (k : string) :
  own k (strings p) = option_map JStr (own k p).
Proof.
  induction p as [|[k0 s0] p IH]; cbn [strings map own fst snd option_map]; [reflexivity|].
  destruct (String.eqb k k0); [reflexivity|exact IH].
Qed.

Lemma strings_keys (p : list (string * string)) : map fst (strings p) = map fst p.
Proof. unfold strings. rewrite map_map. reflexivity. Qed.

Lemma strings_distinct (p : list (string * string)) : distinct p -> distinct (strings p).
Proof. unfold distinct. rewrite strings_keys. auto. Qed.

Lemma strings_In (p : list (string * string)) (k : string) (v : json) :
  In (k, v) (strings p) -> exists s, v = JStr s /\ In (k, s) p.
Proof.
  unfold strings. intros H. apply in_map_iff in H as ([k0 s0] & [= <- <-] & H). eauto.
Qed.

Section Sanitize.
Variable NumberToString : float -> string.
Variable ObjectToString : json -> option string.

Local Abbreviation text_of := (toString NumberToString ObjectToString).
Local Abbreviation sanitize_loop := (sanitize_entries NumberToString ObjectToString).
Local Abbreviation sanitized := (sanitize NumberToString ObjectToString).

(** The entry [(k, v)] makes the property [k] with value [s]: [s] is the
    text of [v] without the white space around it, and is not empty; the
    key is not [__proto__]. *)
Definition kept (k : string) (v : json) (s : string) : Prop :=
  exists text, text_of v = Some text /\ s = trim text /\
               nonempty s = true /\ k <> "__proto__"%string.

Lemma sanitize_entries_sound (es : list (string * json)) :
  forall out out', sanitize_loop es out = Some out' ->
    forall k s, own k out' = Some s ->
      own k out = Some s \/ exists v, In (k, v) es /\ kept k v s.
Proof.
  induction es as [|[k0 v0] es IH]; intros out out'; cbn [sanitize_entries].
  - intros [= <-] k s H. auto.
  - destruct (text_of v0) as [text|] eqn:Et; [|discriminate].
    intros H k s Hs. destruct (IH _ _ H k s Hs) as [Ho|(v & Hin & Hk)].
    + destruct (nonempty (trim text)) eqn:Ne; [|auto].
      rewrite own_assign in Ho.
      destruct (String.eqb_spec k0 "__proto__") as [->|Np]; [auto|].
      destruct (String.eqb_spec k k0) as [->|N]; [|auto].
      injection Ho as <-. right. exists v0. split; [left; reflexivity|].
      exists text. auto.
    + right. exists v. split; [right; exact Hin|exact Hk].
Qed.

Lemma sanitize_entries_other (es : list (string * json)) (k : string) :
  ~ In k (map fst es) ->
  forall out out', sanitize_loop es out = Some out' -> own k out' = own k out.
Proof.
  induction es as [|[k0 v0] es IH]; intros Hk out out'; cbn [sanitize_entries].
  - intros [= <-]. reflexivity.
  - destruct (text_of v0) as [text|]; [|discriminate]. intros H.
    cbn [map fst In] in Hk. rewrite (IH ltac:(tauto) _ _ H).
    destruct (nonempty (trim text)); [|reflexivity].
    rewrite own_assign. destruct (String.eqb k0 "__proto__"); [reflexivity|].
    destruct (String.eqb_spec k k0) as [->|N]; [tauto|reflexivity].
Qed.

Lemma sanitize_entries_complete (es : list (string * json)) :
  distinct es ->
  forall out out', sanitize_loop es out = Some out' ->
    forall k v s, In (k, v) es -> kept k v s -> own k out' = Some s.
Proof.
  unfold distinct.
  induction es as [|[k0 v0] es IH]; intros ND out out'; cbn [sanitize_entries];
    [intros _ k v s []|].
  cbn [map fst] in ND. apply NoDup_cons in ND as [Hk0 ND].
  destruct (text_of v0) as [text|] eqn:Et; [|discriminate].
  intros H k v s [[= <- <-]|Hin] Hk.
  - destruct Hk as (text' & Et' & -> & Ne & Np). rewrite Et in Et'. injection Et' as <-.
    rewrite (sanitize_entries_other es k0) with (out := if nonempty (trim text)
                                                     then assign k0 (trim text) out
                                                     else out) (out' := out');
      [|intros Hc; apply Hk0, list_elem_of_In, Hc|exact H].
    rewrite Ne, own_assign.
    destruct (String.eqb_spec k0 "__proto__"); [contradiction|].
    rewrite String.eqb_refl. reflexivity.
  - eapply IH; eauto.
Qed.

(** The entry with key [k] makes no property: its text is blank, or its
    key is [__proto__]. *)
Lemma sanitize_entries_dropped (es : list (string * json)) :
  distinct es ->
  forall out out', sanitize_loop es out = Some out' ->
    forall k v text, In (k, v) es -> text_of v = Some text ->
      nonempty (trim text) = false \/ k = "__proto__"%string ->
      own k out' = own k out.
Proof.
  unfold distinct.
  induction es as [|[k0 v0] es IH]; intros ND out out'; cbn [sanitize_entries];
    [intros _ k v s []|].
  cbn [map fst] in ND. apply NoDup_cons in ND as [Hk0 ND].
  destruct (text_of v0) as [text|] eqn:Et; [|discriminate].
  intros H k v text' [[= <- <-]|Hin] Et' Hd.
  - rewrite Et in Et'. injection Et' as <-.
    rewrite (sanitize_entries_other es k0) with (out := if nonempty (trim text)
                                                     then assign k0 (trim text) out
                                                     else out) (out' := out');
      [|intros Hc; apply Hk0, list_elem_of_In, Hc|exact H].
    destruct Hd as [->| ->]; [reflexivity|].
    destruct (nonempty (trim text)); reflexivity.
  - rewrite (IH ND _ _ H k v text' Hin Et' Hd).
    destruct (nonempty (trim text)); [|reflexivity].
    rewrite own_assign. destruct (String.eqb k0 "__proto__"); [reflexivity|].
    destruct (String.eqb_spec k k0) as [->|N]; [|reflexivity].
    destruct Hk0. apply list_elem_of_In. apply (in_map fst) in Hin. exact Hin.
Qed.

Lemma sanitize_entries_distinct (es : list (string * json)) :
  forall out out', sanitize_loop es out = Some out' -> distinct out -> distinct out'.
Proof.
  induction es as [|[k0 v0] es IH]; intros out out'; cbn [sanitize_entries].
  - intros [= <-]. auto.
  - destruct (text_of v0) as [text|]; [|discriminate]. intros H D.
    apply (IH _ _ H). destruct (nonempty (trim text)); [apply distinct_assign|]; exact D.
Qed.

Lemma sanitize_entries_total (es : list (string * json)) :
  (forall k v, In (k, v) es -> text_of v <> None) ->
  forall out, exists out', sanitize_loop es out = Some out'.
Proof.
  induction es as [|[k0 v0] es IH]; intros Hes out; cbn [sanitize_entries]; [eauto|].
  destruct (text_of v0) as [text|] eqn:Et.
  - apply IH. intros k v H. apply (Hes k v). right. exact H.
  - destruct (Hes k0 v0 ltac:(left; reflexivity) Et).
Qed.

Lemma kept_value (k : string) (v : json) (s : string) :
  kept k v s -> nonempty s = true /\ trim s = s /\ k <> "__proto__"%string.
Proof.
  intros (text & _ & -> & Ne & Np). split; [exact Ne|].
  split; [apply trim_idempotent|exact Np].
Qed.

(** What [sanitize] returns is clean, and each of its properties comes
    from an entry of the object. *)
Lemma sanitize_sound (o : list (string * json)) (out : list (string * string)) :
  sanitized o = Some out ->
  clean out /\
  forall k s, own k out = Some s -> exists v, In (k, v) o /\ kept k v s.
Proof.
  unfold sanitize. intros H.
  assert (D : distinct out)
    by (eapply sanitize_entries_distinct; [exact H|apply distinct_nil]).
  assert (S : forall k s, own k out = Some s -> exists v, In (k, v) o /\ kept k v s).
  { intros k s Hs.
    destruct (sanitize_entries_sound _ _ _ H k s Hs) as [Ho|(v & Hin & Hk)];
      [discriminate|].
    exists v. split; [apply member_entries; exact Hin|exact Hk]. }
  split; [|exact S]. split; [exact D|].
  intros k s Hin. apply (In_own _ _ _ D) in Hin.
  destruct (S k s Hin) as (v & _ & Hk). eapply kept_value. exact Hk.
Qed.

Lemma sanitize_complete (o : list (string * json)) (out : list (string * string)) :
  distinct o -> sanitized o = Some out ->
  forall k v s, In (k, v) o -> kept k v s -> own k out = Some s.
Proof.
  unfold sanitize. intros D H k v s Hin Hk.
  eapply sanitize_entries_complete; [apply Object_entries_distinct; exact D|exact H| |exact Hk].
  apply entries_member. exact Hin.
Qed.

(** On a clean object [sanitize] returns an object with the same
    properties. *)
Lemma sanitize_clean (p : list (string * string)) :
  clean p ->
  exists out, sanitized (strings p) = Some out /\
              clean out /\ forall k, own k out = own k p.
Proof.
  intros [D C].
  destruct (sanitize_entries_total (Object_entries (strings p))
              ltac:(intros k v H; apply member_entries, strings_In in H as (s & -> & _);
                    discriminate) []) as [out H].
  exists out. fold (sanitized (strings p)) in H. split; [exact H|].
  destruct (sanitize_sound _ _ H) as [Cout S]. split; [exact Cout|].
  intros k. destruct (own k p) as [s|] eqn:E.
  - apply own_In in E. destruct (C k s E) as (Ne & Et & Np).
    eapply sanitize_complete; [apply strings_distinct; exact D|exact H| |].
    + unfold strings. apply in_map_iff. exists (k, s). split; [reflexivity|exact E].
    + exists s. cbn. rewrite Et. auto.
  - destruct (own k out) as [s|] eqn:Eo; [|reflexivity].
    destruct (S k s Eo) as (v & Hin & _). apply strings_In in Hin as (s' & _ & Hin).
    apply (In_own _ _ _ D) in Hin. congruence.
Qed.
End Sanitize.

Lemma clean_nil : clean [].
Proof. split; [constructor|intros k s []]. Qed.

Lemma clean_spread (a b : list (string * string)) :
  clean a -> clean b -> clean (spread a b).
Proof.
  intros [_ Ca] [_ Cb]. split; [apply spread_distinct|].
  intros k s H. apply spread_In in H as [H|H]; eauto.
Qed.


(** ** [gatherPrefsFromQuery] *)

Lemma append_unit_inj (s t : string) (c : ascii) :
  (s ++ String c EmptyString)%string = (t ++ String c EmptyString)%string -> s = t.
Proof.
  revert t. induction s as [|a s IH]; intros [|b t]; cbn; intros E.
  - reflexivity.
  - injection E as _ E. destruct t; discriminate.
  - injection E as _ E. destruct s; discriminate.
  - injection E as -> E. rewrite (IH t E). reflexivity.
Qed.

(** The keys that [prefs_pattern] matches, and the name it captures. *)
Lemma bracket_name_spec (k name : string) :
  bracket_name k = Some name <->
  k = ("prefs[" ++ name ++ "]")%string /\
  name <> EmptyString /\ RegexFacts.all_units dot name = true.
Proof.
  unfold bracket_name. destruct (matches false prefs_pattern k) eqn:M.
  - apply RegexFacts.matches_lang in M. unfold prefs_pattern in M.
    apply RegexFacts.lang_seq_inv in M as (s1 & r & -> & H1 & M).
    apply RegexFacts.lang_seq_inv in M as (s2 & s3 & -> & H2 & H3).
    apply RegexFacts.lang_lit_exact in H1 as ->.
    apply RegexFacts.lang_lit_exact in H3 as ->.
    apply RegexFacts.lang_plus_class in H2 as [N A].
    assert (E : substring 6 (String.length ("prefs[" ++ s2 ++ "]") - 7)
                          ("prefs[" ++ s2 ++ "]") = s2).
    { rewrite !RegexFacts.length_append. cbn [String.length].
      replace (6 + (String.length s2 + 1) - 7) with (String.length s2) by lia.
      change (substring 6 (String.length s2) ("prefs[" ++ s2 ++ "]"))
        with (substring 0 (String.length s2) (s2 ++ "]")).
      apply RegexFacts.substring_prefix. }
    rewrite E. split.
    + intros [= <-]. auto.
    + intros (Ek & _ & _). f_equal.
      apply (append_unit_inj _ _ "]"). injection Ek as Ek. exact Ek.
  - split; [discriminate|]. intros (-> & N & A). exfalso.
    assert (H : matches false prefs_pattern ("prefs[" ++ name ++ "]") = true);
      [|congruence].
    apply RegexFacts.matches_lang. unfold prefs_pattern.
    constructor; [apply RegexFacts.lang_lit_exact; reflexivity|].
    constructor; [|apply RegexFacts.lang_lit_exact; reflexivity].
    apply RegexFacts.lang_plus_class. auto.
Qed.

(** The entries that the first loop of [gatherPrefsFromQuery] assigns. *)
Definition bracket_entries (es : list (string * json)) : list (string * json) :=
  flat_map (fun kv => match bracket_name (fst kv) with
                      | Some name => [(name, snd kv)]
                      | None => []
                      end) es.

Lemma bracket_fold (es : list (string * json)) :
  forall acc,
    fold_left (fun prefs kv => match bracket_name (fst kv) with
                               | Some name => assign name (snd kv) prefs
                               | None => prefs
                               end) es acc
    = fold_left (fun o kv => assign (fst kv) (snd kv) o) (bracket_entries es) acc.
Proof.
  induction es as [|[k v] es IH]; intros acc; [reflexivity|].
  cbn [fold_left bracket_entries flat_map fst snd].
  destruct (bracket_name k) as [name|]; cbn [app fold_left fst snd]; apply IH.
Qed.

Lemma bracket_entries_In (es : list (string * json)) (name : string) (v : json) :
  In (name, v) (bracket_entries es) <->
  exists k, In (k, v) es /\ bracket_name k = Some name.
Proof.
  unfold bracket_entries. rewrite in_flat_map. split.
  - intros ([k v'] & Hin & H). cbn [fst snd] in H.
    destruct (bracket_name k) as [n|] eqn:E; [|destruct H].
    destruct H as [[= <- <-]|[]]. eauto.
  - intros (k & Hin & E). exists (k, v). split; [exact Hin|].
    cbn [fst snd]. rewrite E. left. reflexivity.
Qed.

Lemma bracket_entries_distinct (es : list (string * json)) :
  distinct es -> distinct (bracket_entries es).
Proof.
  unfold distinct. induction es as [|[k v] es IH]; intros ND; [constructor|].
  cbn [map fst] in ND. apply NoDup_cons in ND as [Hk ND].
  cbn [bracket_entries flat_map fst snd]. fold (bracket_entries es).
  destruct (bracket_name k) as [name|] eqn:E; cbn [app map fst]; [|auto].
  apply NoDup_cons. split; [|auto].
  intros Hin. apply list_elem_of_In, in_map_iff in Hin as ([n v'] & En & Hin).
  cbn [fst] in En. subst n. apply bracket_entries_In in Hin as (k' & Hin & E').
  apply bracket_name_spec in E as [-> _]. apply bracket_name_spec in E' as [-> _].
  apply Hk, list_elem_of_In. apply (in_map fst) in Hin. exact Hin.
Qed.

Lemma bracket_entries_nil (es : list (string * json)) :
  (forall k v, In (k, v) es -> bracket_name k = None) -> bracket_entries es = [].
Proof.
  induction es as [|[k v] es IH]; intros H; [reflexivity|].
  cbn [bracket_entries flat_map fst snd]. fold (bracket_entries es).
  rewrite (H k v) by (left; reflexivity). cbn [app]. apply IH.
  intros k' v' Hin. apply (H k' v'). right. exact Hin.
Qed.

Section Assignments.
Context {V : Type}.

(** A run of assignments: the last one to a key wins, and [__proto__]
    gets no property. *)
Lemma fold_assign_own (es : list (string * V)) :
  forall acc k, distinct es ->
    own k (fold_left (fun o kv => assign (fst kv) (snd kv) o) es acc)
    = match own k es with
      | Some v => if String.eqb k "__proto__" then own k acc else Some v
      | None => own k acc
      end.
Proof.
  unfold distinct. induction es as [|[k0 v0] es IH]; intros acc k ND; [reflexivity|].
  cbn [fold_left fst snd own map] in *. apply NoDup_cons in ND as [Hk ND].
  rewrite IH by exact ND. rewrite own_assign.
  destruct (String.eqb_spec k k0) as [->|N].
  - assert (E : own k0 es = None)
      by (apply own_None; intros H; apply Hk, list_elem_of_In, H).
    rewrite E. destruct (String.eqb k0 "__proto__"); reflexivity.
  - destruct (own k es); [|destruct (String.eqb k0 "__proto__"); reflexivity].
    destruct (String.eqb k "__proto__"); [|reflexivity].
    destruct (String.eqb k0 "__proto__"); reflexivity.
Qed.

Lemma fold_assign_distinct (es : list (string * V)) :
  forall acc, distinct acc ->
    distinct (fold_left (fun o kv => assign (fst kv) (snd kv) o) es acc).
Proof.
  induction es as [|[k0 v0] es IH]; intros acc D; cbn [fold_left]; [exact D|].
  apply IH, distinct_assign, D.
Qed.

Lemma fold_assign_In (es : list (string * V)) :
  forall acc kv,
    In kv (fold_left (fun o kv => assign (fst kv) (snd kv) o) es acc) ->
    In kv es \/ In kv acc.
Proof.
  induction es as [|[k0 v0] es IH]; intros acc [k v] H; cbn [fold_left] in H; [auto|].
  apply IH in H as [H|H]; [left; right; exact H|].
  cbn [fst snd] in H. unfold assign in H.
  destruct (String.eqb k0 "__proto__"); [auto|].
  apply define_In in H as [[-> ->]|H]; [left; left; reflexivity|auto].
Qed.
End Assignments.

(** ** The preferences store *)

Lemma Map_get_set_other {V : Type} (k : json) (s : string) (v : V) (m : list (json * V)) :
  k <> JStr s -> Map_get (JStr s) (Map_set k v m) = Map_get (JStr s) m.
Proof.
  intros N. induction m as [|[k' v'] m IH]; cbn [Map_set Map_get].
  - destruct k; cbn; try reflexivity.
    destruct (String.eqb_spec s s0); [congruence|reflexivity].
  - destruct (same_key k k') eqn:E; cbn [Map_get]; [|rewrite IH; reflexivity].
    destruct (same_key (JStr s) k') eqn:E'; [|reflexivity].
    destruct k'; try discriminate. cbn in E'. apply String.eqb_eq in E' as ->.
    destruct k; try discriminate. cbn in E. apply String.eqb_eq in E as ->. congruence.
Qed.

Lemma same_key_string (s : string) (k : json) : same_key (JStr s) k = true <-> k = JStr s.
Proof.
  destruct k; cbn; try (split; [discriminate|congruence]).
  rewrite String.eqb_eq. split; congruence.
Qed.

Lemma Map_get_set_same {V : Type} (s : string) (v : V) (m : list (json * V)) :
  Map_get (JStr s) (Map_set (JStr s) v m) = Some v.
Proof.
  induction m as [|[k' v'] m IH]; cbn [Map_set Map_get].
  - cbn. rewrite String.eqb_refl. reflexivity.
  - destruct (same_key (JStr s) k') eqn:E; cbn [Map_get]; rewrite E; auto.
Qed.

(** ** What the relay does *)

Section RelayFacts.
Variable NumberToString : float -> string.
Variable ObjectToString : json -> option string.
Variable JSON_parse : string -> option json.
Variable JSON_stringify : json -> string.
Variable SAVED : string.
Variable SUMMARY : string.
Variable N8N_CHAT_URL : string.
Variable searchParams : string -> list (string * string).
Variable upstream : Type.
Variable https_get :
  upstream -> string -> list (string * string) -> transport * upstream.

Local Abbreviation text_of := (toString NumberToString ObjectToString).
Local Abbreviation sanitized := (sanitize NumberToString ObjectToString).
Local Abbreviation gather :=
  (gatherPrefsFromQuery NumberToString ObjectToString JSON_parse).
Local Abbreviation made := (kept NumberToString ObjectToString).

(** X14: [sanitize] keeps of each entry the text of its value without the
    white space around it; an entry whose text is blank, and the key
    [__proto__], are left out. What it returns has non-empty, trimmed
    values. *)
Theorem sanitize_properties (o : list (string * json)) (out : list (string * string)) :
  distinct o -> sanitized o = Some out ->
  (forall k s, own k out = Some s <-> exists v, In (k, v) o /\ made k v s) /\
  (forall k s, In (k, s) out -> s <> EmptyString /\ trim s = s).
Proof.
  intros D H. destruct (sanitize_sound _ _ _ _ H) as [[Dout C] S]. split.
  - intros k s. split; [apply S|].
    intros (v & Hin & Hk). eapply sanitize_complete; eauto.
  - intros k s Hin. destruct (C k s Hin) as (Ne & Et & _).
    split; [apply nonempty_true; exact Ne|exact Et].
Qed.

(** X15: [sanitize] throws exactly when the conversion of some value to a
    string throws, and on what it returned before it changes nothing: it
    returns an object with the same properties. *)
Theorem sanitize_idempotent (o : list (string * json)) :
  (sanitized o = None <-> exists k v, In (k, v) o /\ text_of v = None) /\
  (forall out, sanitized o = Some out ->
     exists out', sanitized (strings out) = Some out' /\
                  forall k, own k out' = own k out).
Proof.
  split.
  - split.
    + unfold sanitize. generalize (@nil (string * string)).
      assert (G : forall es out, sanitize_entries NumberToString ObjectToString es out = None ->
                    exists k v, In (k, v) es /\ text_of v = None).
      { induction es as [|[k v] es IH]; intros out; cbn [sanitize_entries]; [discriminate|].
        destruct (text_of v) as [text|] eqn:Et.
        - intros H. destruct (IH _ H) as (k' & v' & Hin & E). exists k', v'. split; [right|]; auto.
        - intros _. exists k, v. split; [left; reflexivity|exact Et]. }
      intros out H. destruct (G _ _ H) as (k & v & Hin & E).
      exists k, v. split; [apply member_entries; exact Hin|exact E].
    + intros (k & v & Hin & E). destruct (sanitized o) as [out|] eqn:H; [|reflexivity].
      exfalso. unfold sanitize in H. apply entries_member in Hin.
      revert H. generalize (@nil (string * string)).
      induction (Object_entries o) as [|[k0 v0] es IH]; [destruct Hin|].
      intros acc; cbn [sanitize_entries]. destruct Hin as [[= -> ->]|Hin].
      * rewrite E. discriminate.
      * destruct (text_of v0); [apply IH; exact Hin|discriminate].
  - intros out H. destruct (sanitize_sound _ _ _ _ H) as [C _].
    destruct (sanitize_clean NumberToString ObjectToString out C) as (out' & H' & _ & E).
    eauto.
Qed.

(** The object [prefs] after the first loop of [gatherPrefsFromQuery]. *)
Definition bracket_prefs (q : list (string * json)) : list (string * json) :=
  fold_left (fun o kv => assign (fst kv) (snd kv) o)
            (bracket_entries (Object_entries q)) [].

Lemma bracket_prefs_In (q : list (string * json)) (name : string) (v : json) :
  distinct q ->
  In (name, v) (bracket_prefs q) <->
  In (("prefs[" ++ name ++ "]")%string, v) q /\
  name <> EmptyString /\ RegexFacts.all_units dot name = true /\
  name <> "__proto__"%string.
Proof.
  intros D. unfold bracket_prefs.
  assert (De : distinct (bracket_entries (Object_entries q)))
    by (apply bracket_entries_distinct, Object_entries_distinct, D).
  split.
  - intros H.
    assert (Np : name <> "__proto__"%string).
    { intros ->. apply (In_own _ _ _ (fold_assign_distinct _ _ distinct_nil)) in H.
      rewrite fold_assign_own in H by exact De. cbn in H.
      destruct (own "__proto__" (bracket_entries (Object_entries q))); discriminate. }
    apply fold_assign_In in H as [H|[]].
    apply bracket_entries_In in H as (k & Hin & E).
    apply bracket_name_spec in E as (-> & N & A).
    apply member_entries in Hin. auto.
  - intros (Hin & N & A & Np). apply own_In. rewrite fold_assign_own by exact De.
    assert (E : own name (bracket_entries (Object_entries q)) = Some v).
    { apply In_own; [exact De|]. apply bracket_entries_In.
      exists ("prefs[" ++ name ++ "]")%string. split; [apply entries_member; exact Hin|].
      apply bracket_name_spec. auto. }
    rewrite E. destruct (String.eqb_spec name "__proto__"); [contradiction|reflexivity].
Qed.

Lemma bracket_prefs_distinct (q : list (string * json)) : distinct (bracket_prefs q).
Proof. apply fold_assign_distinct, distinct_nil. Qed.

Lemma gather_with_brackets (q : list (string * json)) :
  bracket_prefs q <> [] -> gather q = sanitized (bracket_prefs q).
Proof.
  intros N. unfold gatherPrefsFromQuery. rewrite bracket_fold.
  fold (bracket_prefs q). destruct (bracket_prefs q); [congruence|reflexivity].
Qed.

(** X16: when the query has a key [prefs[name]], with a name other than
    [__proto__], the incoming preferences are made of the keys of that
    form alone, each value trimmed, and [prefs_json] is not looked at. *)
Theorem gatherPrefsFromQuery_brackets (q : list (string * json)) (name : string)
  (v : json) (incoming : list (string * string)) :
  distinct q ->
  In (("prefs[" ++ name ++ "]")%string, v) q ->
  name <> EmptyString -> RegexFacts.all_units dot name = true ->
  name <> "__proto__"%string ->
  gather q = Some incoming ->
  forall k s,
    own k incoming = Some s <->
    exists v', In (("prefs[" ++ k ++ "]")%string, v') q /\
               k <> EmptyString /\ RegexFacts.all_units dot k = true /\ made k v' s.
Proof.
  intros D Hin N A Np H k s.
  assert (Hb : In (name, v) (bracket_prefs q)) by (apply bracket_prefs_In; auto).
  rewrite gather_with_brackets in H by (intros E; rewrite E in Hb; destruct Hb).
  destruct (sanitize_sound _ _ _ _ H) as [_ S]. split.
  - intros Hs. destruct (S k s Hs) as (v' & Hin' & Hk).
    apply bracket_prefs_In in Hin' as (Hq & N' & A' & _); [|exact D]. eauto.
  - intros (v' & Hq & N' & A' & Hk).
    eapply sanitize_complete; [apply bracket_prefs_distinct|exact H| |exact Hk].
    apply bracket_prefs_In; [exact D|]. destruct Hk as (_ & _ & _ & _ & Np'). auto.
Qed.

Lemma gather_without_brackets (q : list (string * json)) :
  (forall k v, In (k, v) q -> bracket_name k = None) -> bracket_prefs q = [].
Proof.
  intros H. unfold bracket_prefs. rewrite bracket_entries_nil; [reflexivity|].
  intros k v Hin. apply (H k v). apply member_entries. exact Hin.
Qed.

(** X17: without a key of the form [prefs[name]], the incoming preferences
    are the properties of the object that [prefs_json] holds as JSON text,
    each value as text and trimmed. *)
Theorem gatherPrefsFromQuery_json (q : list (string * json)) (source : string)
  (fields : list (string * json)) (incoming : list (string * string)) :
  (forall k v, In (k, v) q -> bracket_name k = None) ->
  own "prefs_json" q = Some (JStr source) -> source <> EmptyString ->
  JSON_parse source = Some (JObj fields) -> distinct fields ->
  gather q = Some incoming ->
  forall k s, own k incoming = Some s <-> exists v, In (k, v) fields /\ made k v s.
Proof.
  intros Hq Ej Ns Ep D H k s.
  unfold gatherPrefsFromQuery in H. rewrite bracket_fold in H.
  fold (bracket_prefs q) in H. rewrite (gather_without_brackets q Hq), Ej in H.
  cbn [truthy toString] in H.
  apply String.eqb_neq in Ns. rewrite Ns, Ep in H. cbn [negb] in H.
  unfold Object_assign in H. cbn [own_enumerable] in H.
  set (prefs := fold_left _ _ _) in H.
  assert (Dp : distinct prefs) by (apply fold_assign_distinct, distinct_nil).
  assert (Hp : forall v, In (k, v) prefs <-> In (k, v) fields /\ k <> "__proto__"%string).
  { intros v. unfold prefs. split.
    - intros Hin.
      assert (Np : k <> "__proto__"%string).
      { intros ->. apply (In_own _ _ _ Dp) in Hin. unfold prefs in Hin.
        rewrite fold_assign_own in Hin by (apply Object_entries_distinct, D). cbn in Hin.
        destruct (own "__proto__" (Object_entries fields)); discriminate. }
      apply fold_assign_In in Hin as [Hin|[]]. apply member_entries in Hin. auto.
    - intros [Hin Np]. apply own_In.
      rewrite fold_assign_own by (apply Object_entries_distinct, D).
      rewrite Object_entries_own by exact D. rewrite (In_own _ _ _ D Hin).
      destruct (String.eqb_spec k "__proto__"); [contradiction|reflexivity]. }
  destruct (sanitize_sound _ _ _ _ H) as [_ S]. split.
  - intros Hs. destruct (S k s Hs) as (v & Hin & Hk). apply Hp in Hin as [Hin _]. eauto.
  - intros (v & Hin & Hk).
    eapply sanitize_complete; [exact Dp|exact H| |exact Hk].
    apply Hp. destruct Hk as (_ & _ & _ & _ & Np). auto.
Qed.

(** X18: a [prefs_json] that is not JSON, or that cannot be made a string,
    does not fail the request: without keys of the form [prefs[name]]
    there are no incoming preferences. *)
Theorem gatherPrefsFromQuery_malformed (q : list (string * json)) (v : json) :
  (forall k v, In (k, v) q -> bracket_name k = None) ->
  own "prefs_json" q = Some v ->
  (forall source, text_of v = Some source -> JSON_parse source = None) ->
  gather q = Some [].
Proof.
  intros Hq Ej Hv. unfold gatherPrefsFromQuery. rewrite bracket_fold.
  fold (bracket_prefs q). rewrite (gather_without_brackets q Hq), Ej.
  destruct (truthy v); [|reflexivity].
  destruct (text_of v) as [source|] eqn:Et; [|reflexivity].
  rewrite (Hv source eq_refl). reflexivity.
Qed.

Local Abbreviation summary := (summarizePrefs SUMMARY).
Local Abbreviation answer_of :=
  (extractAnswer NumberToString ObjectToString JSON_parse JSON_stringify).
Local Abbreviation call :=
  (callN8n NumberToString ObjectToString JSON_parse JSON_stringify N8N_CHAT_URL
           searchParams upstream https_get).
Local Abbreviation chat :=
  (api_chat NumberToString ObjectToString JSON_parse JSON_stringify SAVED SUMMARY
            N8N_CHAT_URL searchParams upstream https_get).
Local Abbreviation state := (server upstream).

(** ** [extractAnswer] *)

(** X19: a response body that is not JSON is relayed as it is, without
    the white space around it. *)
Theorem extractAnswer_plain_text (data : string) :
  JSON_parse (trim data) = None -> trim data <> EmptyString ->
  answer_of (JStr data) = trim data.
Proof.
  intros Ep N. apply nonempty_true in N.
  unfold extractAnswer, smartParse. cbn [toString]. rewrite N, Ep.
  cbn [member get assoc coalesce String.eqb Ascii.eqb Bool.eqb].
  rewrite trim_idempotent, N. reflexivity.
Qed.

(** X20: a body that is a JSON string holding the JSON text of an object
    or an array is read as that object or array. *)
Theorem extractAnswer_double_encoded (data inner : string) (j : json) :
  trim data <> EmptyString ->
  JSON_parse (trim data) = Some (JStr inner) -> JSON_parse inner = Some j ->
  match j with JObj _ | JArr _ => True | _ => False end ->
  answer_of (JStr data) = answer_of j.
Proof.
  intros N E1 E2 Hj. apply nonempty_true in N.
  unfold extractAnswer.
  assert (Es : smartParse NumberToString ObjectToString JSON_parse (JStr data) = j).
  { unfold smartParse. cbn [toString]. rewrite N, E1, E2. reflexivity. }
  assert (Ej : smartParse NumberToString ObjectToString JSON_parse j = j)
    by (destruct j; try destruct Hj; reflexivity).
  rewrite Es, Ej. destruct j; try destruct Hj; reflexivity.
Qed.

(** ** [summarizePrefs] *)

Lemma concat_In (sep w : string) (l : list string) :
  In w l -> exists u t, String.concat sep l = (u ++ w ++ t)%string.
Proof.
  induction l as [|x l IH]; [intros []|].
  intros [->|H].
  - exists EmptyString. destruct l as [|y l]; cbn [String.concat].
    + exists EmptyString. rewrite RegexFacts.append_nil_r. reflexivity.
    + eexists. reflexivity.
  - destruct (IH H) as (u & t & E). destruct l as [|y l]; [destruct H|].
    cbn [String.concat] in E |- *. rewrite E.
    exists (x ++ sep ++ u)%string, t. rewrite !RegexFacts.append_assoc. reflexivity.
Qed.

(** The labels of the summary and the preferences they stand for. *)
Definition labels : list (string * string) :=
  [ ("community", "community"); ("property type", "ptype"); ("bedrooms", "bedrooms");
    ("must-have", "musthave"); ("lifestyle", "lifestyle");
    ("personality", "personality"); ("style", "style"); ("commute", "commute");
    ("budget mindset", "budget") ]%string.

(** X21: the summary of an object with a property names every one of the
    nine known preferences that is set, with its label and its value. *)
Theorem summarizePrefs_mentions (p : list (string * string)) (label key v : string) :
  In (label, key) labels -> own key p = Some v -> v <> EmptyString ->
  includes (label ++ ": " ++ v) (summary p) = true.
Proof.
  intros Hl E N. apply nonempty_true in N.
  unfold summarizePrefs. destruct p as [|kv p]; [discriminate|].
  set (q := kv :: p) in *. set (bits := (_ ++ _)%list).
  assert (Eb : bits = flat_map (fun lk => bit (fst lk) (snd lk) q) labels)
    by (cbn [flat_map labels fst snd]; rewrite app_nil_r; reflexivity).
  assert (Hb : In (label ++ ": " ++ v)%string bits).
  { rewrite Eb. apply in_flat_map. exists (label, key). split; [exact Hl|].
    cbn [fst snd]. unfold bit. rewrite E, N. left. reflexivity. }
  destruct (concat_In ", " _ _ Hb) as (u & t & Ec). rewrite Ec.
  apply RegexFacts.includes_append. exists (SUMMARY ++ u)%string, (t ++ ".")%string.
  rewrite !RegexFacts.append_assoc. reflexivity.
Qed.

(** ** [callN8n] *)

Lemma params_delete_own (name k : string) (l : list (string * string)) :
  k <> name -> own k (params_delete name l) = own k l.
Proof.
  intros N. induction l as [|[k0 v0] l IH]; cbn [params_delete own]; [reflexivity|].
  destruct (String.eqb_spec k0 name) as [->|N0]; cbn [own].
  - rewrite IH. destruct (String.eqb_spec k name); [contradiction|reflexivity].
  - rewrite IH. reflexivity.
Qed.

Lemma params_set_own (name value k : string) (l : list (string * string)) :
  own k (params_set name value l)
  = if String.eqb k name then Some value else own k l.
Proof.
  induction l as [|[k0 v0] l IH]; cbn [params_set own]; [reflexivity|].
  destruct (String.eqb_spec k0 name) as [->|N0]; cbn [own].
  - destruct (String.eqb_spec k name) as [->|N]; [reflexivity|].
    apply params_delete_own. exact N.
  - rewrite IH. destruct (String.eqb_spec k k0) as [->|N]; [|reflexivity].
    destruct (String.eqb_spec k0 name); [contradiction|reflexivity].
Qed.

Lemma fold_params_own (es : list (string * string)) :
  forall params k, distinct es ->
    own k (fold_left (fun ps kv => params_set (fst kv) (snd kv) ps) es params)
    = match own k es with
      | Some v => Some v
      | None => own k params
      end.
Proof.
  unfold distinct. induction es as [|[k0 v0] es IH]; intros params k ND; [reflexivity|].
  cbn [fold_left fst snd own map] in *. apply NoDup_cons in ND as [Hk ND].
  rewrite IH by exact ND. rewrite params_set_own.
  destruct (String.eqb_spec k k0) as [->|N]; [|reflexivity].
  assert (E : own k0 es = None)
    by (apply own_None; intros H; apply Hk, list_elem_of_In, H).
  rewrite E. reflexivity.
Qed.

Lemma alias_own (from to k : string) (c : list (string * string)) :
  to <> "__proto__"%string ->
  (forall v, In (from, v) c -> nonempty v = true) ->
  own k (alias from to c)
  = match own from c with
    | Some v => if String.eqb k to then Some v else own k c
    | None => own k c
    end.
Proof.
  intros Np Hc. unfold alias. destruct (own from c) as [v|] eqn:E; [|reflexivity].
  rewrite (Hc v (own_In _ _ _ E)). rewrite own_assign.
  destruct (String.eqb_spec to "__proto__"); [contradiction|reflexivity].
Qed.

Lemma alias_clean (from to : string) (c : list (string * string)) :
  to <> "__proto__"%string -> clean c -> clean (alias from to c).
Proof.
  intros Np [D C]. unfold alias. destruct (own from c) as [v|] eqn:E; [|split; assumption].
  destruct (nonempty v); [|split; assumption]. split; [apply distinct_assign; exact D|].
  intros k s H. unfold assign in H.
  destruct (String.eqb_spec to "__proto__"); [contradiction|].
  apply define_In in H as [[-> ->]|H]; [|eauto].
  destruct (C from v (own_In _ _ _ E)) as (Ne & Et & _). auto.
Qed.

(** The preferences as [callN8n] forwards them. *)
Definition forwarded (clean : list (string * string)) : list (string * string) :=
  alias "bedrooms" "bedroom" (alias "ptype" "propertyType"
    (alias "community" "locations" clean)).

Lemma clean_nonempty (c : list (string * string)) (k v : string) :
  clean c -> In (k, v) c -> nonempty v = true.
Proof. intros [_ C] H. apply (C k v H). Qed.

Lemma request_query_own (question text : string) (c : list (string * string)) (k : string) :
  distinct c ->
  own k (request_query JSON_stringify N8N_CHAT_URL searchParams question text c)
  = match own k c with
    | Some v => Some v
    | None =>
        if String.eqb k "prefs_json" then Some (JSON_stringify (object_of c))
        else if String.eqb k "sessionId" then Some text
        else if String.eqb k "question" then Some question
        else own k (searchParams N8N_CHAT_URL)
    end.
Proof.
  intros D. unfold request_query.
  rewrite fold_params_own by (apply Object_entries_distinct; exact D).
  rewrite Object_entries_own by exact D. destruct (own k c); [reflexivity|].
  rewrite !params_set_own. reflexivity.
Qed.

(** One call: the exchange it makes, and what it ends with. *)
Lemma callN8n_run (question : string) (s : string) (prefs : list (string * string))
  (st : state) :
  exists c e,
    sanitized (strings prefs) = Some c /\
    snd (call question (JStr s) prefs st)
    = {| PREFS_STORE := PREFS_STORE upstream st;
         outside := snd (https_get (outside upstream st) N8N_CHAT_URL (query e));
         exchanges := exchanges upstream st ++ [e] |} /\
    target e = N8N_CHAT_URL /\
    query e = request_query JSON_stringify N8N_CHAT_URL searchParams question s
                            (forwarded c) /\
    ended e = fst (https_get (outside upstream st) N8N_CHAT_URL (query e)) /\
    fst (call question (JStr s) prefs st)
    = match ended e with
      | TransportError err => Rejected err
      | Transported statusCode data =>
          Resolved (result_of NumberToString ObjectToString JSON_parse JSON_stringify
                              statusCode data)
      | Unsettled => Waiting
      end.
Proof.
  destruct (sanitize_entries_total NumberToString ObjectToString
              (Object_entries (strings prefs))
              ltac:(intros k v H; apply member_entries, strings_In in H as (s' & -> & _);
                    discriminate) []) as [c Hc].
  fold (sanitized (strings prefs)) in Hc.
  unfold callN8n. fold (strings prefs). rewrite Hc. cbn [String_of toString].
  fold (forwarded c).
  set (params := request_query JSON_stringify N8N_CHAT_URL searchParams question s
                               (forwarded c)).
  destruct (https_get (outside upstream st) N8N_CHAT_URL params) as [t out] eqn:Eg.
  exists c, {| target := N8N_CHAT_URL; query := params; ended := t |}.
  cbn [target query ended]. rewrite Eg. cbn [fst snd].
  split; [reflexivity|]. destruct t; repeat split; reflexivity.
Qed.

Lemma forwarded_clean (c : list (string * string)) : clean c -> clean (forwarded c).
Proof.
  intros C. unfold forwarded. repeat (apply alias_clean; [discriminate|]). exact C.
Qed.

Lemma forwarded_own (c : list (string * string)) (k : string) :
  clean c ->
  own k (forwarded c)
  = if String.eqb k "bedroom" then
      match own "bedrooms" c with Some v => Some v | None => own k c end
    else if String.eqb k "propertyType" then
      match own "ptype" c with Some v => Some v | None => own k c end
    else if String.eqb k "locations" then
      match own "community" c with Some v => Some v | None => own k c end
    else own k c.
Proof.
  intros C. unfold forwarded.
  set (c1 := alias "community" "locations" c).
  set (c2 := alias "ptype" "propertyType" c1).
  assert (C1 : clean c1) by (apply alias_clean; [discriminate|exact C]).
  assert (C2 : clean c2) by (apply alias_clean; [discriminate|exact C1]).
  assert (E1 : forall k', own k' c1
               = match own "community" c with
                 | Some v => if String.eqb k' "locations" then Some v else own k' c
                 | None => own k' c
                 end)
    by (intros k'; apply alias_own; [discriminate|intros v; apply clean_nonempty; exact C]).
  assert (E2 : forall k', own k' c2
               = match own "ptype" c1 with
                 | Some v => if String.eqb k' "propertyType" then Some v else own k' c1
                 | None => own k' c1
                 end)
    by (intros k'; apply alias_own; [discriminate|intros v; apply clean_nonempty; exact C1]).
  rewrite alias_own by (try discriminate; intros v; apply clean_nonempty; exact C2).
  rewrite !E2, !E1. cbn [String.eqb Ascii.eqb Bool.eqb].
  destruct (own "community" c), (own "ptype" c), (own "bedrooms" c);
    destruct (String.eqb_spec k "bedroom") as [->|]; try reflexivity;
    destruct (String.eqb_spec k "propertyType") as [->|]; try reflexivity;
    destruct (String.eqb k "locations"); reflexivity.
Qed.


(** ** The handler of [/api/chat] *)

Lemma callN8n_store (question : string) (sessionId : json)
  (prefs : list (string * string)) (st : state) :
  PREFS_STORE upstream (snd (call question sessionId prefs st))
  = PREFS_STORE upstream st.
Proof.
  unfold callN8n. destruct (sanitize _ _ _); [|reflexivity].
  destruct (String_of _ _ _); [|reflexivity].
  destruct (https_get _ _ _) as [[err|code data|] out]; reflexivity.
Qed.

Lemma gather_clean (q : list (string * json)) (incoming : list (string * string)) :
  gather q = Some incoming -> clean incoming.
Proof.
  unfold gatherPrefsFromQuery. intros H. apply sanitize_sound in H as [C _]. exact C.
Qed.

(** The questions that the handler answers by itself. *)
Definition local_command (question : string) : bool :=
  let qLower := toLowerCase question in
  String.eqb qLower "__prefs__"
  || includes "what are my preferences" qLower
  || String.eqb qLower "__get_prefs__".

(** The preferences of the session before the request. *)
Definition stored_for (sessionId : json) (st : state) : list (string * string) :=
  match Map_get sessionId (PREFS_STORE upstream st) with
  | Some p => p
  | None => []
  end.

(** X23: a request leaves the preferences of every other session as they
    are, whatever it asks and however it ends. *)
Theorem api_chat_other_sessions (q : list (string * json)) (st : state) (s : string) :
  session_of q <> JStr s ->
  Map_get (JStr s) (PREFS_STORE upstream (snd (chat q st)))
  = Map_get (JStr s) (PREFS_STORE upstream st).
Proof.
  intros N. unfold api_chat.
  destruct (question_of q) as [question|]; [|reflexivity].
  destruct (gather q) as [incoming|]; [|reflexivity].
  set (merged := spread _ incoming).
  set (st1 := if _ : bool then _ else st).
  assert (E1 : Map_get (JStr s) (PREFS_STORE upstream st1)
               = Map_get (JStr s) (PREFS_STORE upstream st)).
  { unfold st1. destruct (_ || _); [|reflexivity].
    cbn [PREFS_STORE]. apply Map_get_set_other. exact N. }
  destruct (String.eqb (toLowerCase question) "__prefs__"); [exact E1|].
  destruct (includes _ _ || _); [exact E1|].
  pose proof (callN8n_store question (session_of q) merged st1) as Es.
  destruct (call question (session_of q) merged st1) as [[|err|result|] st2];
    cbn [snd] in Es |- *; try (rewrite Es; exact E1).
  destruct (_ && _); cbn [snd]; rewrite Es; exact E1.
Qed.

Lemma api_chat_local_run (q : list (string * json)) (st : state) (question : string)
  (incoming : list (string * string)) :
  question_of q = Some question -> gather q = Some incoming ->
  local_command question = true ->
  exchanges upstream (snd (chat q st)) = exchanges upstream st /\
  exists a r, fst (chat q st) = ChatOk a r.
Proof.
  intros Eq Eg L. unfold api_chat. rewrite Eq, Eg.
  set (merged := spread _ incoming).
  set (st1 := if _ : bool then _ else st).
  assert (E1 : exchanges upstream st1 = exchanges upstream st)
    by (unfold st1; destruct (_ || _); reflexivity).
  unfold local_command in L. cbv zeta in L.
  destruct (String.eqb (toLowerCase question) "__prefs__").
  - cbn [fst snd]. split; [apply E1|]. eauto.
  - cbn [orb] in L. rewrite L. cbn [fst snd]. split; [apply E1|]. eauto.
Qed.

(** X24: the questions [__prefs__], [__get_prefs__] and those asking what
    the preferences are, in whatever case, are answered from the store:
    nothing is sent to the workflow, and the reply is a success. *)
Theorem api_chat_local (q : list (string * json)) (st : state) (question : string)
  (incoming : list (string * string)) :
  question_of q = Some question -> gather q = Some incoming ->
  local_command question = true ->
  exchanges upstream (snd (chat q st)) = exchanges upstream st /\
  outside upstream (snd (chat q st)) = outside upstream st /\
  exists merged,
    (forall k v, own k incoming = Some v -> own k merged = Some v) /\
    (fst (chat q st) = ChatOk SAVED (JSON_stringify (object_of merged)) \/
     fst (chat q st) = ChatOk (summary merged) (JSON_stringify (object_of merged))).
Proof.
  intros Eq Eg L. unfold api_chat. rewrite Eq, Eg.
  set (merged := spread _ incoming).
  set (st1 := if _ : bool then _ else st).
  assert (E1 : exchanges upstream st1 = exchanges upstream st /\
               outside upstream st1 = outside upstream st)
    by (unfold st1; destruct (_ || _); split; reflexivity).
  assert (M : forall k v, own k incoming = Some v -> own k merged = Some v).
  { intros k v E. apply spread_overrides; [|exact E].
    apply (gather_clean q incoming Eg). }
  unfold local_command in L. cbv zeta in L.
  destruct (String.eqb (toLowerCase question) "__prefs__").
  - cbn [fst snd]. split; [apply E1|]. split; [apply E1|]. exists merged. auto.
  - cbn [orb] in L. rewrite L. cbn [fst snd].
    split; [apply E1|]. split; [apply E1|]. exists merged. auto.
Qed.

Lemma chat_saved (q : list (string * json)) (st : state) (question s : string)
  (incoming : list (string * string)) :
  question_of q = Some question -> gather q = Some incoming ->
  incoming <> [] -> session_of q = JStr s ->
  Map_get (JStr s) (PREFS_STORE upstream (snd (chat q st)))
  = Some (spread (stored_for (JStr s) st) incoming).
Proof.
  intros Eq Eg Ni Es. unfold api_chat. rewrite Eq, Eg, Es.
  fold (stored_for (JStr s) st).
  set (merged := spread _ incoming).
  assert (El : (0 <? length incoming)%nat = true)
    by (destruct incoming; [congruence|reflexivity]).
  rewrite El. cbn [orb].
  set (st1 := {| PREFS_STORE := _; outside := _; exchanges := _ |}).
  assert (E1 : Map_get (JStr s) (PREFS_STORE upstream st1) = Some merged)
    by apply Map_get_set_same.
  destruct (String.eqb (toLowerCase question) "__prefs__"); [exact E1|].
  destruct (includes _ _ || _); [exact E1|].
  pose proof (callN8n_store question (JStr s) merged st1) as Ec.
  destruct (call question (JStr s) merged st1) as [[|err|result|] st2];
    cbn [snd] in Ec |- *; try (rewrite Ec; exact E1).
  destruct (_ && _); cbn [snd]; rewrite Ec; exact E1.
Qed.

(** X25: the preferences that come with a request are stored for its
    session before the question is relayed, so also when the relay fails:
    the session then has the incoming preferences, and of the ones it had
    before those that no incoming one replaces. *)
Theorem api_chat_saves (q : list (string * json)) (st : state) (question s : string)
  (incoming : list (string * string)) :
  question_of q = Some question -> gather q = Some incoming ->
  incoming <> [] -> session_of q = JStr s ->
  distinct (stored_for (JStr s) st) ->
  exists merged,
    Map_get (JStr s) (PREFS_STORE upstream (snd (chat q st))) = Some merged /\
    forall k, own k merged = match own k incoming with
                             | Some v => Some v
                             | None => own k (stored_for (JStr s) st)
                             end.
Proof.
  intros Eq Eg Ni Es D. eexists. split; [eapply chat_saved; eauto|].
  intros k. apply spread_own; [exact D|]. apply (gather_clean q incoming Eg).
Qed.

(** X26: what a request stored, a later [__get_prefs__] of the same
    session reads back: its answer is the summary of preferences that
    hold every one that came with the first request. *)
Theorem api_chat_round_trip (q1 q2 : list (string * json)) (st : state)
  (question1 question2 s : string) (incoming : list (string * string)) :
  question_of q1 = Some question1 -> gather q1 = Some incoming ->
  incoming <> [] -> session_of q1 = JStr s ->
  question_of q2 = Some question2 -> toLowerCase question2 = "__get_prefs__"%string ->
  gather q2 = Some [] -> session_of q2 = JStr s ->
  exists merged,
    fst (chat q2 (snd (chat q1 st)))
    = ChatOk (summary merged) (JSON_stringify (object_of merged)) /\
    forall k v, own k incoming = Some v -> own k merged = Some v.
Proof.
  intros Eq1 Eg1 Ni Es1 Eq2 El Eg2 Es2.
  pose proof (chat_saved q1 st question1 s incoming Eq1 Eg1 Ni Es1) as Hs.
  set (st1 := snd (chat q1 st)) in *.
  set (merged1 := spread (stored_for (JStr s) st) incoming) in *.
  exists (spread merged1 []). split.
  - unfold api_chat. rewrite Eq2, Eg2, Es2, Hs.
    assert (Np : String.eqb question2 "__prefs__" = false).
    { apply String.eqb_neq. intros ->. discriminate El. }
    rewrite Np, El. reflexivity.
  - intros k v E. rewrite spread_own by (apply spread_distinct || apply distinct_nil).
    cbn [own]. unfold merged1. apply spread_overrides; [|exact E].
    apply (gather_clean q1 incoming Eg1).
Qed.

Lemma snoc_not_same {A : Type} (l : list A) (x : A) : l ++ [x] <> l.
Proof.
  intros E. apply (f_equal (@length A)) in E. rewrite length_app in E. cbn in E. lia.
Qed.

(** One request that is relayed. *)
Lemma chat_relayed (q : list (string * json)) (st : state) (question s : string)
  (incoming : list (string * string)) :
  question_of q = Some question -> gather q = Some incoming -> session_of q = JStr s ->
  local_command question = false ->
  let merged := spread (stored_for (JStr s) st) incoming in
  exists e,
    exchanges upstream (snd (chat q st)) = exchanges upstream st ++ [e] /\
    target e = N8N_CHAT_URL /\
    fst (chat q st)
    = match ended e with
      | TransportError _ => ChatFailed
      | Transported statusCode data =>
          let result := result_of NumberToString ObjectToString JSON_parse
                                  JSON_stringify statusCode data in
          if (0 <? length merged)%nat
             && (test true (lit "no preferences") (answer result) || negb (ok result))
          then ChatOk (summary merged) data
          else ChatOk (answer result) data
      | Unsettled => ChatSilent
      end.
Proof.
  intros Eq Eg Es L merged. unfold api_chat. rewrite Eq, Eg, Es.
  fold (stored_for (JStr s) st). fold merged.
  set (st1 := if _ : bool then _ else st).
  assert (E1 : exchanges upstream st1 = exchanges upstream st)
    by (unfold st1; destruct (_ || _); reflexivity).
  unfold local_command in L. cbv zeta in L.
  apply orb_false_iff in L as [L L3]. apply orb_false_iff in L as [L1 L2].
  rewrite L1, L2, L3. cbn [orb].
  destruct (callN8n_run question s merged st1) as (c & e & _ & Hs & Ht & _ & _ & Hf).
  exists e. destruct (call question (JStr s) merged st1) as [r st2].
  cbn [fst snd] in Hs, Hf. subst r st2.
  destruct (ended e) as [err|statusCode data|].
  - cbn [snd fst exchanges]. rewrite E1. auto.
  - cbv zeta.
    assert (Er : raw (result_of NumberToString ObjectToString JSON_parse
                                JSON_stringify statusCode data) = data).
    { unfold result_of. destruct statusCode as [code|]; [|reflexivity].
      destruct (400 <=? code)%nat; reflexivity. }
    rewrite Er. destruct (_ && _); cbn [snd fst exchanges]; rewrite E1; auto.
  - cbn [snd fst exchanges]. rewrite E1. auto.
Qed.


(** X28: a response of the workflow with an HTTP status of 400 or more is
    answered as a success: with the summary of the preferences of the
    session when it has some, and else with what [extractAnswer] makes of
    the body. *)
Theorem api_chat_http_error (q : list (string * json)) (st : state)
  (question s : string) (incoming : list (string * string))
  (e : exchange) (code : nat) (data : string) :
  question_of q = Some question -> gather q = Some incoming -> session_of q = JStr s ->
  exchanges upstream (snd (chat q st)) = exchanges upstream st ++ [e] ->
  ended e = Transported (Some code) data -> 400 <= code ->
  fst (chat q st)
  = ChatOk (match spread (stored_for (JStr s) st) incoming with
            | [] => answer_of (JStr data)
            | merged => summary merged
            end) data.
Proof.
  intros Eq Eg Es Hx He Hc. destruct (local_command question) eqn:L.
  - destruct (api_chat_local_run q st question incoming Eq Eg L) as (Hx' & _).
    rewrite Hx' in Hx. symmetry in Hx. destruct (snoc_not_same _ _ Hx).
  - destruct (chat_relayed q st question s incoming Eq Eg Es L) as (e' & Hx' & _ & Hf).
    rewrite Hx in Hx'. apply app_inj_tail in Hx' as [_ <-]. rewrite He in Hf.
    cbv zeta in Hf. rewrite Hf. unfold result_of.
    apply Nat.leb_le in Hc. rewrite Hc. cbn [ok answer negb].
    rewrite orb_true_r, andb_true_r.
    destruct (spread (stored_for (JStr s) st) incoming); reflexivity.
Qed.
End RelayFacts.

End ChatFacts.

Lemma deepFindNumber_sound_witness :
  deepFindNumber Reference.StringToNumber Stub.cyclic = Some 2500.5%float /\
  JSNum.isFinite 2500.5 = true /\
  numeric_value Reference.StringToNumber Stub.cyclic 2500.5.
Proof.
  assert (E : deepFindNumber Reference.StringToNumber Stub.cyclic = Some 2500.5%float)
    by (vm_compute; reflexivity).
  split; [exact E|].
  exact (deepFindNumber_sound Reference.StringToNumber Stub.cyclic 2500.5 E).
Defined.

Lemma deepFindNumber_root_first_witness :
  (forall x, ~ hit_value Reference.StringToNumber Sample.nested x) /\
  first_numeric Reference.StringToNumber (doc_heap Sample.nested !!! 0)
  = Some 1500%float /\
  deepFindNumber Reference.StringToNumber Sample.nested = Some 1500%float.
Proof.
  assert (H : forall x, ~ hit_value Reference.StringToNumber Sample.nested x).
  { apply hit_free_no_hit. unfold hit_free. apply (bool_decide_unpack _).
    vm_compute. exact I. }
  assert (E : first_numeric Reference.StringToNumber (doc_heap Sample.nested !!! 0)
              = Some 1500%float) by (vm_compute; reflexivity).
  split; [exact H|]. split; [exact E|].
  exact (deepFindNumber_root_first Reference.StringToNumber Sample.nested 0 1500
           eq_refl H E).
Defined.

Lemma deepFindNumber_raw_text_witness :
  Stub.JSON_parse "1,250" = None /\
  exists status,
    response_of Stub.JSON_parse (Transported (Some 200) "1,250")
    = Some (inr (status, raw_document "1,250")) /\
    deepFindNumber Reference.StringToNumber (raw_document "1,250")
    = numeric Reference.StringToNumber (VStr "1,250").
Proof.
  split; [reflexivity|].
  exact (deepFindNumber_raw_text Reference.StringToNumber Stub.JSON_parse
           (Some 200) "1,250" eq_refl).
Defined.

Lemma choosePlausibleTotal_without_area_witness :
  (0 <? area_of Reference.StringToNumber Reference.ObjectToNumber
          (JObj [("procedure_area"%string, JStr "n/a")]))%float = false /\
  In (ref_choosePlausibleTotal 12.5 (JObj [("procedure_area"%string, JStr "n/a")]))
     [ {| n := 12.5; rule := "raw" |};
       {| n := Reference.Math_exp 12.5; rule := "exp" |};
       {| n := Reference.Math_pow 10 12.5; rule := "pow10" |};
       {| n := (12.5 * 1000)%float; rule := "x1000" |} ] /\
  per_sqm (ref_choosePlausibleTotal 12.5 (JObj [("procedure_area"%string, JStr "n/a")]))
  = false.
Proof.
  split; [vm_compute; reflexivity|].
  exact (choosePlausibleTotal_without_area
           Reference.Math_exp Reference.Math_pow
           Reference.StringToNumber Reference.ObjectToNumber
           12.5 (JObj [("procedure_area"%string, JStr "n/a")]) eq_refl).
Defined.

Lemma tryAllShapes_reports_last_witness :
  fst (Stub.tryAllShapes area_1200 Stub.start) = Some (inr Stub.fourth_result) /\
  exists a,
    last (attempts nat (snd (Stub.tryAllShapes area_1200 Stub.start))) = Some a /\
    response_of Stub.JSON_parse (received a)
    = Some (inr (status Stub.fourth_result, raw Stub.fourth_result)) /\
    predicted_price_raw Stub.fourth_result
    = deepFindNumber Reference.StringToNumber (raw Stub.fourth_result) /\
    match deepFindNumber Reference.StringToNumber (raw Stub.fourth_result) with
    | Some x =>
        predicted_price Stub.fourth_result
        = Some (n (ref_choosePlausibleTotal x area_1200)) /\
        used_rule Stub.fourth_result
        = Some (rule (ref_choosePlausibleTotal x area_1200)) /\
        JSNum.isFinite (n (ref_choosePlausibleTotal x area_1200)) = true
    | None =>
        predicted_price Stub.fourth_result = None /\
        used_rule Stub.fourth_result = None
    end.
Proof.
  assert (E : fst (Stub.tryAllShapes area_1200 Stub.start) = Some (inr Stub.fourth_result))
    by (vm_compute; reflexivity).
  split; [exact E|].
  exact (tryAllShapes_reports_last
           Reference.Math_exp Reference.Math_pow
           Reference.StringToNumber Reference.ObjectToNumber
           Stub.JSON_parse nat Stub.https_request Stub.MODEL_BASE
           area_1200 Stub.start Stub.fourth_result E).
Defined.

(** ** The chat relay on the stub workflow *)

Lemma sanitize_properties_witness :
  ChatFacts.distinct [("community"%string, JStr " Marina "); ("ptype"%string, JStr "  ");
                      ("budget"%string, JNull)] /\
  ChatStub.sanitize [("community"%string, JStr " Marina "); ("ptype"%string, JStr "  ");
                     ("budget"%string, JNull)]
  = Some [("community"%string, "Marina"%string)] /\
  (forall k s,
     Chat.own k [("community"%string, "Marina"%string)] = Some s <->
     exists v, In (k, v) [("community"%string, JStr " Marina "); ("ptype"%string, JStr "  ");
                          ("budget"%string, JNull)] /\
               ChatFacts.kept ChatStub.NumberToString ChatStub.ObjectToString k v s) /\
  (forall k s, In (k, s) [("community"%string, "Marina"%string)] ->
               s <> EmptyString /\ Chat.trim s = s).
Proof.
  assert (D : ChatFacts.distinct
                [("community"%string, JStr " Marina "); ("ptype"%string, JStr "  ");
                 ("budget"%string, JNull)])
    by (apply (bool_decide_unpack _); vm_compute; exact I).
  split; [exact D|]. split; [reflexivity|].
  exact (ChatFacts.sanitize_properties ChatStub.NumberToString ChatStub.ObjectToString
           _ _ D eq_refl).
Defined.

Lemma gatherPrefsFromQuery_brackets_witness :
  ChatFacts.distinct ChatStub.asks /\
  In (("prefs[" ++ "community" ++ "]")%string, JStr " Marina ") ChatStub.asks /\
  ChatStub.gatherPrefsFromQuery ChatStub.asks = Some [("community"%string, "Marina"%string)] /\
  forall k s,
    Chat.own k [("community"%string, "Marina"%string)] = Some s <->
    exists v', In (("prefs[" ++ k ++ "]")%string, v') ChatStub.asks /\
               k <> EmptyString /\ RegexFacts.all_units Chat.dot k = true /\
               ChatFacts.kept ChatStub.NumberToString ChatStub.ObjectToString k v' s.
Proof.
  assert (D : ChatFacts.distinct ChatStub.asks)
    by (apply (bool_decide_unpack _); vm_compute; exact I).
  assert (Hin : In (("prefs[" ++ "community" ++ "]")%string, JStr " Marina ") ChatStub.asks)
    by (right; right; left; reflexivity).
  split; [exact D|]. split; [exact Hin|]. split; [reflexivity|].
  exact (ChatFacts.gatherPrefsFromQuery_brackets
           ChatStub.NumberToString ChatStub.ObjectToString ChatStub.JSON_parse
           ChatStub.asks "community" (JStr " Marina ") _ D Hin
           ltac:(discriminate) eq_refl ltac:(discriminate) eq_refl).
Defined.

Lemma gatherPrefsFromQuery_json_witness :
  (forall k v, In (k, v) (ChatStub.sends ChatStub.prefs_text) ->
               Chat.bracket_name k = None) /\
  ChatStub.JSON_parse ChatStub.prefs_text
  = Some (JObj [("community"%string, JStr " Marina ")]) /\
  ChatStub.gatherPrefsFromQuery (ChatStub.sends ChatStub.prefs_text)
  = Some [("community"%string, "Marina"%string)] /\
  forall k s,
    Chat.own k [("community"%string, "Marina"%string)] = Some s <->
    exists v, In (k, v) [("community"%string, JStr " Marina ")] /\
              ChatFacts.kept ChatStub.NumberToString ChatStub.ObjectToString k v s.
Proof.
  assert (H : forall k v, In (k, v) (ChatStub.sends ChatStub.prefs_text) ->
                          Chat.bracket_name k = None).
  { intros k v [[= <- _]|[[= <- _]|[[= <- _]|[]]]]; reflexivity. }
  split; [exact H|]. split; [reflexivity|]. split; [reflexivity|].
  exact (ChatFacts.gatherPrefsFromQuery_json
           ChatStub.NumberToString ChatStub.ObjectToString ChatStub.JSON_parse
           (ChatStub.sends ChatStub.prefs_text) ChatStub.prefs_text
           [("community"%string, JStr " Marina ")] _ H eq_refl ltac:(discriminate) eq_refl
           ltac:(apply (bool_decide_unpack _); vm_compute; exact I) eq_refl).
Defined.

Lemma gatherPrefsFromQuery_malformed_witness :
  (forall k v, In (k, v) (ChatStub.sends "{oops") -> Chat.bracket_name k = None) /\
  (forall source, ChatStub.toString (JStr "{oops") = Some source ->
                  ChatStub.JSON_parse source = None) /\
  ChatStub.gatherPrefsFromQuery (ChatStub.sends "{oops") = Some [].
Proof.
  assert (H : forall k v, In (k, v) (ChatStub.sends "{oops") ->
                          Chat.bracket_name k = None).
  { intros k v [[= <- _]|[[= <- _]|[[= <- _]|[]]]]; reflexivity. }
  assert (P : forall source, ChatStub.toString (JStr "{oops") = Some source ->
                             ChatStub.JSON_parse source = None).
  { intros source [= <-]. reflexivity. }
  split; [exact H|]. split; [exact P|].
  exact (ChatFacts.gatherPrefsFromQuery_malformed
           ChatStub.NumberToString ChatStub.ObjectToString ChatStub.JSON_parse
           (ChatStub.sends "{oops") (JStr "{oops") H eq_refl P).
Defined.

Lemma extractAnswer_plain_text_witness :
  ChatStub.JSON_parse (Chat.trim " Hello there ") = None /\
  ChatStub.extractAnswer (JStr " Hello there ") = Chat.trim " Hello there ".
Proof.
  split; [reflexivity|].
  exact (ChatFacts.extractAnswer_plain_text
           ChatStub.NumberToString ChatStub.ObjectToString ChatStub.JSON_parse
           ChatStub.JSON_stringify " Hello there " eq_refl ltac:(discriminate)).
Defined.

Lemma extractAnswer_double_encoded_witness :
  ChatStub.JSON_parse (Chat.trim ChatStub.encoded_text) = Some (JStr ChatStub.answer_text) /\
  ChatStub.JSON_parse ChatStub.answer_text = Some (JObj [("answer"%string, JStr "Hi")]) /\
  ChatStub.extractAnswer (JStr ChatStub.encoded_text)
  = ChatStub.extractAnswer (JObj [("answer"%string, JStr "Hi")]).
Proof.
  split; [reflexivity|]. split; [reflexivity|].
  exact (ChatFacts.extractAnswer_double_encoded
           ChatStub.NumberToString ChatStub.ObjectToString ChatStub.JSON_parse
           ChatStub.JSON_stringify ChatStub.encoded_text ChatStub.answer_text
           (JObj [("answer"%string, JStr "Hi")]) ltac:(discriminate) eq_refl eq_refl I).
Defined.

Lemma summarizePrefs_mentions_witness :
  In ("property type"%string, "ptype"%string) ChatFacts.labels /\
  Chat.own "ptype" [("community"%string, "Marina"%string); ("ptype"%string, "villa"%string)]
  = Some "villa"%string /\
  includes ("property type" ++ ": " ++ "villa")
           (ChatStub.summarizePrefs
              [("community"%string, "Marina"%string); ("ptype"%string, "villa"%string)])
  = true.
Proof.
  assert (H : In ("property type"%string, "ptype"%string) ChatFacts.labels)
    by (right; left; reflexivity).
  split; [exact H|]. split; [reflexivity|].
  exact (ChatFacts.summarizePrefs_mentions ChatStub.SUMMARY
           [("community"%string, "Marina"%string); ("ptype"%string, "villa"%string)]
           "property type" "ptype" "villa" H eq_refl ltac:(discriminate)).
Defined.


Lemma api_chat_other_sessions_witness :
  Chat.session_of ChatStub.asks <> JStr "s2" /\
  Chat.Map_get (JStr "s2")
    (Chat.PREFS_STORE nat (snd (ChatStub.api_chat ChatStub.asks (ChatStub.fresh 0))))
  = Chat.Map_get (JStr "s2") (Chat.PREFS_STORE nat (ChatStub.fresh 0)).
Proof.
  assert (N : Chat.session_of ChatStub.asks <> JStr "s2") by discriminate.
  split; [exact N|].
  exact (ChatFacts.api_chat_other_sessions
           ChatStub.NumberToString ChatStub.ObjectToString ChatStub.JSON_parse
           ChatStub.JSON_stringify ChatStub.SAVED ChatStub.SUMMARY ChatStub.N8N_CHAT_URL
           ChatStub.searchParams nat ChatStub.https_get ChatStub.asks (ChatStub.fresh 0)
           "s2" N).
Defined.

Lemma api_chat_local_witness :
  Chat.question_of ChatStub.reads = Some "__GET_PREFS__"%string /\
  ChatStub.gatherPrefsFromQuery ChatStub.reads = Some [] /\
  ChatFacts.local_command "__GET_PREFS__" = true /\
  Chat.exchanges nat (snd (ChatStub.api_chat ChatStub.reads (ChatStub.fresh 0)))
  = Chat.exchanges nat (ChatStub.fresh 0) /\
  Chat.outside nat (snd (ChatStub.api_chat ChatStub.reads (ChatStub.fresh 0)))
  = Chat.outside nat (ChatStub.fresh 0) /\
  exists merged,
    (forall k v, Chat.own k [] = Some v -> Chat.own k merged = Some v) /\
    (fst (ChatStub.api_chat ChatStub.reads (ChatStub.fresh 0))
     = Chat.ChatOk ChatStub.SAVED (ChatStub.JSON_stringify (Chat.object_of merged)) \/
     fst (ChatStub.api_chat ChatStub.reads (ChatStub.fresh 0))
     = Chat.ChatOk (ChatStub.summarizePrefs merged)
                   (ChatStub.JSON_stringify (Chat.object_of merged))).
Proof.
  split; [reflexivity|]. split; [reflexivity|]. split; [reflexivity|].
  exact (ChatFacts.api_chat_local
           ChatStub.NumberToString ChatStub.ObjectToString ChatStub.JSON_parse
           ChatStub.JSON_stringify ChatStub.SAVED ChatStub.SUMMARY ChatStub.N8N_CHAT_URL
           ChatStub.searchParams nat ChatStub.https_get ChatStub.reads (ChatStub.fresh 0)
           "__GET_PREFS__" [] eq_refl eq_refl eq_refl).
Defined.

Lemma api_chat_saves_witness :
  Chat.question_of ChatStub.asks = Some "Any villas?"%string /\
  ChatStub.gatherPrefsFromQuery ChatStub.asks = Some [("community"%string, "Marina"%string)] /\
  Chat.session_of ChatStub.asks = JStr "s1" /\
  fst (ChatStub.api_chat ChatStub.asks (ChatStub.fresh 2)) = Chat.ChatFailed /\
  exists merged,
    Chat.Map_get (JStr "s1")
      (Chat.PREFS_STORE nat (snd (ChatStub.api_chat ChatStub.asks (ChatStub.fresh 2))))
    = Some merged /\
    forall k, Chat.own k merged
              = match Chat.own k [("community"%string, "Marina"%string)] with
                | Some v => Some v
                | None => Chat.own k (ChatFacts.stored_for nat (JStr "s1") (ChatStub.fresh 2))
                end.
Proof.
  split; [reflexivity|]. split; [reflexivity|]. split; [reflexivity|].
  split; [reflexivity|].
  exact (ChatFacts.api_chat_saves
           ChatStub.NumberToString ChatStub.ObjectToString ChatStub.JSON_parse
           ChatStub.JSON_stringify ChatStub.SAVED ChatStub.SUMMARY ChatStub.N8N_CHAT_URL
           ChatStub.searchParams nat ChatStub.https_get ChatStub.asks (ChatStub.fresh 2)
           "Any villas?" "s1" [("community"%string, "Marina"%string)]
           eq_refl eq_refl ltac:(discriminate) eq_refl ltac:(constructor)).
Defined.

Lemma api_chat_round_trip_witness :
  ChatStub.gatherPrefsFromQuery ChatStub.asks = Some [("community"%string, "Marina"%string)] /\
  Chat.toLowerCase "__GET_PREFS__" = "__get_prefs__"%string /\
  ChatStub.gatherPrefsFromQuery ChatStub.reads = Some [] /\
  exists merged,
    fst (ChatStub.api_chat ChatStub.reads
           (snd (ChatStub.api_chat ChatStub.asks (ChatStub.fresh 2))))
    = Chat.ChatOk (ChatStub.summarizePrefs merged)
                  (ChatStub.JSON_stringify (Chat.object_of merged)) /\
    forall k v, Chat.own k [("community"%string, "Marina"%string)] = Some v ->
                Chat.own k merged = Some v.
Proof.
  split; [reflexivity|]. split; [reflexivity|]. split; [reflexivity|].
  exact (ChatFacts.api_chat_round_trip
           ChatStub.NumberToString ChatStub.ObjectToString ChatStub.JSON_parse
           ChatStub.JSON_stringify ChatStub.SAVED ChatStub.SUMMARY ChatStub.N8N_CHAT_URL
           ChatStub.searchParams nat ChatStub.https_get ChatStub.asks ChatStub.reads
           (ChatStub.fresh 2) "Any villas?" "__GET_PREFS__" "s1"
           [("community"%string, "Marina"%string)]
           eq_refl eq_refl ltac:(discriminate) eq_refl eq_refl eq_refl eq_refl eq_refl).
Defined.


Lemma api_chat_http_error_witness :
  Chat.exchanges nat (snd (ChatStub.api_chat ChatStub.asks (ChatStub.fresh 1)))
  = Chat.exchanges nat (ChatStub.fresh 1) ++ [ChatStub.failing] /\
  400 <= 500 /\
  fst (ChatStub.api_chat ChatStub.asks (ChatStub.fresh 1))
  = Chat.ChatOk
      (match Chat.spread (ChatFacts.stored_for nat (JStr "s1") (ChatStub.fresh 1))
                         [("community"%string, "Marina"%string)] with
       | [] => ChatStub.extractAnswer (JStr "Internal error")
       | merged => ChatStub.summarizePrefs merged
       end) "Internal error".
Proof.
  assert (L : 400 <= 500) by lia.
  split; [vm_compute; reflexivity|]. split; [exact L|].
  exact (ChatFacts.api_chat_http_error
           ChatStub.NumberToString ChatStub.ObjectToString ChatStub.JSON_parse
           ChatStub.JSON_stringify ChatStub.SAVED ChatStub.SUMMARY ChatStub.N8N_CHAT_URL
           ChatStub.searchParams nat ChatStub.https_get ChatStub.asks (ChatStub.fresh 1)
           "Any villas?" "s1" [("community"%string, "Marina"%string)]
           ChatStub.failing 500 "Internal error"
           eq_refl eq_refl eq_refl eq_refl eq_refl L).
Defined.
